(** * A shallow embedding of [mutpy/controller.py]

    The mutation controller, its score aggregator and the four higher-order
    combination strategies, translated function by function from the Python
    source, followed by the properties the specification states about them
    (Part III) and by further properties read off the code (Part IV).

    Conventions of the embedding.
    - Python [int]s are [Z].  Durations and the score are Python [float]s in
      the source; they are modelled by exact rationals [Q], so [/] and [*]
      below are the exact operations and no rounding is modelled.
    - A Python list object lives in a [store] at an address; [l[:]] allocates
      a new object, and [pop], [remove], [append], [sort] update an object in
      place.  A name bound to a list is bound to its address.
    - A generator is a frame (the local names that are live at the [yield])
      together with a [next] function that runs it to its next [yield].
    - Collaborators that are not part of [controller.py] (the loaders, the
      operators, the test runner, the views) are fields of a record of
      oracles; the values they exchange are kept opaque.
    - The decorator [utils.TimeRegister] and the context manager
      [self.stdout_manager] time a call and silence its output; they are
      read as leaving the call's result and its exceptions as they are. *)

From Stdlib Require Import ZArith QArith Qminmax String Lia.
From stdpp Require Import base option list gmap.

Local Open Scope Z_scope.

(* ===================================================================== *)
(** * Part I.  Definitions                                                *)
(* ===================================================================== *)

(** ** [class MutationScore] *)

Record MutationScore := mkScore {
  killed_mutants : Z;
  timeout_mutants : Z;
  incompetent_mutants : Z;
  survived_mutants : Z;
  covered_nodes : Z;
  all_nodes : Z
}.

(** [MutationScore.__init__] *)
Definition MutationScore_init : MutationScore := mkScore 0 0 0 0 0 0.

(** The property [all_mutants]. *)
Definition all_mutants (s : MutationScore) : Z :=
  killed_mutants s + timeout_mutants s + incompetent_mutants s + survived_mutants s.

(** [MutationScore.count]: [bottom] is tested for truth, that is, for being
    non-zero; the integer [0] of the [else] branch is the rational [0]. *)
Definition count (s : MutationScore) : Q :=
  let bottom := all_mutants s - incompetent_mutants s in
  if bottom =? 0 then 0%Q
  else ((inject_Z (killed_mutants s + timeout_mutants s) / inject_Z bottom) * 100)%Q.

Definition inc_killed (s : MutationScore) : MutationScore :=
  mkScore (killed_mutants s + 1) (timeout_mutants s) (incompetent_mutants s)
          (survived_mutants s) (covered_nodes s) (all_nodes s).

Definition inc_timeout (s : MutationScore) : MutationScore :=
  mkScore (killed_mutants s) (timeout_mutants s + 1) (incompetent_mutants s)
          (survived_mutants s) (covered_nodes s) (all_nodes s).

Definition inc_incompetent (s : MutationScore) : MutationScore :=
  mkScore (killed_mutants s) (timeout_mutants s) (incompetent_mutants s + 1)
          (survived_mutants s) (covered_nodes s) (all_nodes s).

Definition inc_survived (s : MutationScore) : MutationScore :=
  mkScore (killed_mutants s) (timeout_mutants s) (incompetent_mutants s)
          (survived_mutants s + 1) (covered_nodes s) (all_nodes s).

Definition update_coverage (covered all : Z) (s : MutationScore) : MutationScore :=
  mkScore (killed_mutants s) (timeout_mutants s) (incompetent_mutants s)
          (survived_mutants s) (covered_nodes s + covered) (all_nodes s + all).

(** The first line of [MutationController.run_mutation_test_runner]:
    [live_time = self.timeout_factor * (total_duration if total_duration > 1 else 1)]. *)
Definition live_time (timeout_factor total_duration : Q) : Q :=
  (timeout_factor * (if Qlt_le_dec 1 total_duration then total_duration else 1))%Q.

(** ** Python lists *)

(** The position a Python index [i] denotes in a list of length [n]:
    a negative index counts from the end, and a position outside the list is
    an [IndexError] ([None]). *)
Definition py_index (i : Z) (n : nat) : option nat :=
  let j := if bool_decide (i < 0) then i + Z.of_nat n else i in
  if bool_decide (0 <= j < Z.of_nat n) then Some (Z.to_nat j) else None.

(** [l.pop(i)]: the element removed and the list left. *)
Definition py_pop {A} (i : Z) (l : list A) : option (A * list A) :=
  j ← py_index i (length l);
  x ← l !! j;
  Some (x, delete j l).

(** [l.remove(x)]: the list without the first element equal to [x];
    [None] is the [ValueError] raised when there is none. *)
Fixpoint py_remove `{EqDecision A} (x : A) (l : list A) : option (list A) :=
  match l with
  | [] => None
  | y :: l' => if decide (y = x) then Some l' else cons y <$> py_remove x l'
  end.

(** [l.sort(key=...)] is a stable sort: elements with equal keys keep their
    order.  [py_sort_by] computes that arrangement by insertion. *)
Fixpoint insert_by {A} (key : A -> Z) (x : A) (l : list A) : list A :=
  match l with
  | [] => [x]
  | y :: l' => if bool_decide (key x <= key y) then x :: y :: l' else y :: insert_by key x l'
  end.

Definition py_sort_by {A} (key : A -> Z) (l : list A) : list A :=
  foldr (insert_by key) [] l.

(** ** What the strategies see of a mutation

    [operators.Mutation] and the syntax tree are not part of [controller.py]:
    a mutation is an object with a [node] and an [operator] attribute, a node
    has a [children] attribute (a list of nodes, filled in by
    [utils.ParentNodeTransformer]), and [==] on mutations, nodes and
    operators is decidable.  Mutations are keys of a dictionary. *)
Class MutationSig := {
  Node : Type;
  Operator : Type;
  Mutation : Type;
  Node_eq_dec :: EqDecision Node;
  Operator_eq_dec :: EqDecision Operator;
  Mutation_eq_dec :: EqDecision Mutation;
  Mutation_countable :: Countable Mutation;
  node : Mutation -> Node;
  operator : Mutation -> Operator;
  children : Node -> list Node
}.

(** ** The store of list objects and the monad of the strategies *)

Inductive exn := IndexError | ValueError | KeyError.

(** The result of running a piece of code: a value, a Python exception, or
    [Stuck] when the model cannot go on (an address that holds no list, or a
    loop bound that was too small).  The properties show that [Stuck] never
    happens. *)
Inductive res (A : Type) :=
| Ok (a : A)
| Raise (e : exn)
| Stuck.
Arguments Ok {A} a.
Arguments Raise {A} e.
Arguments Stuck {A}.

(** An address of the store. *)
Abbreviation loc := nat (only parsing).

(** ** Generators

    A generator that has been created but not started holds its argument;
    one that is suspended at its [yield] holds its live locals.  [next] runs
    it up to the next [yield], which hands over a list object, or to the end
    of its body ([StopIteration]). *)
Inductive frame (L : Type) :=
| Created (mutations : loc)
| Suspended (locals : L).
Arguments Created {L} mutations.
Arguments Suspended {L} locals.

Inductive step (L : Type) :=
| Yielded (value : loc) (fr : frame L)
| Returned (locals : L).
Arguments Yielded {L} value fr.
Arguments Returned {L} locals.

#[global] Instance exn_eq_dec : EqDecision exn.
Proof. solve_decision. Defined.

(** How a consumer's loop over a generator ended: the generator was
    exhausted, it raised, the model got stuck, or the consumer stopped
    asking. *)
Inductive ending := Exhausted | Raised (e : exn) | ModelStuck | Unfinished.

(** The list objects, by address. *)
Abbreviation store := (list (list Mutation)) (only parsing).

Section Store.
Context `{MutationSig}.

Definition M (A : Type) : Type := store -> res A * store.

#[global] Instance M_ret : MRet M := fun A a σ => (Ok a, σ).

#[global] Instance M_bind : MBind M := fun A B f m σ =>
  match m σ with
  | (Ok a, σ') => f a σ'
  | (Raise e, σ') => (Raise e, σ')
  | (Stuck, σ') => (Stuck, σ')
  end.

Definition raise {A} (e : exn) : M A := fun σ => (Raise e, σ).

Definition stuck {A} : M A := fun σ => (Stuck, σ).

(** [try: body except e: handler] *)
Definition try_except {A} (body : M A) (e : exn) (handler : M A) : M A := fun σ =>
  match body σ with
  | (Raise e', σ') => if decide (e' = e) then handler σ' else (Raise e', σ')
  | r => r
  end.

Definition read (l : loc) : M (list Mutation) := fun σ =>
  match σ !! l with
  | Some xs => (Ok xs, σ)
  | None => (Stuck, σ)
  end.

Definition write (l : loc) (xs : list Mutation) : M unit := fun σ =>
  match σ !! l with
  | Some _ => (Ok tt, <[l:=xs]> σ)
  | None => (Stuck, σ)
  end.

(** A new list object, at the first free address. *)
Definition alloc (xs : list Mutation) : M loc := fun σ => (Ok (length σ), σ ++ [xs]).

(** [l[:]] *)
Definition list_copy (l : loc) : M loc := xs ← read l; alloc xs.

(** [len(l)] *)
Definition list_len (l : loc) : M nat := xs ← read l; mret (length xs).

(** [l.pop(i)] *)
Definition list_pop (l : loc) (i : Z) : M Mutation :=
  xs ← read l;
  match py_pop i xs with
  | Some (x, xs') => write l xs';; mret x
  | None => raise IndexError
  end.

(** [l.append(x)] *)
Definition list_append (l : loc) (x : Mutation) : M unit :=
  xs ← read l; write l (xs ++ [x]).

(** [l.remove(x)] *)
Definition list_remove (l : loc) (x : Mutation) : M unit :=
  xs ← read l;
  match py_remove x xs with
  | Some xs' => write l xs'
  | None => raise ValueError
  end.

(** [usage[x]] *)
Definition dict_get (usage : gmap Mutation Z) (x : Mutation) : M Z := fun σ =>
  match usage !! x with
  | Some u => (Ok u, σ)
  | None => (Raise KeyError, σ)
  end.

(** [l.sort(key=lambda x: usage[x])]: the keys are computed first, and a
    missing one raises [KeyError] with the list as it was. *)
Definition list_sort_by_usage (l : loc) (usage : gmap Mutation Z) : M unit :=
  xs ← read l;
  match mapM (fun x => usage !! x) xs with
  | Some _ => write l (py_sort_by (fun x => default 0 (usage !! x)) xs)
  | None => raise KeyError
  end.

(** [for x in xs: body(x)], over the elements [xs] the list had when the
    loop was entered (none of the loops below changes the list it runs
    over). *)
Fixpoint for_each {A} (xs : list A) (body : A -> M unit) : M unit :=
  match xs with
  | [] => mret tt
  | x :: xs' => body x;; for_each xs' body
  end.

(** ** [class HOMStrategy] *)

(** The condition of [remove_bad_mutations], lines 355 to 358. *)
Definition bad (allow_same_operators : bool)
    (mutation_to_apply available_mutation : Mutation) : bool :=
  bool_decide (node mutation_to_apply = node available_mutation)
  || bool_decide (node mutation_to_apply ∈ children (node available_mutation))
  || bool_decide (node available_mutation ∈ children (node mutation_to_apply))
  || (negb allow_same_operators
      && bool_decide (operator mutation_to_apply = operator available_mutation)).

(** [HOMStrategy.remove_bad_mutations].  The inner loop runs over the copy
    [available_mutations[:]], which nothing else refers to: it is read as a
    value. *)
Definition remove_bad_mutations (mutations_to_apply available_mutations : loc)
    (allow_same_operators : bool) : M unit :=
  to_apply ← read mutations_to_apply;
  for_each to_apply (fun mutation_to_apply =>
    copy ← read available_mutations;
    for_each copy (fun available_mutation =>
      if bad allow_same_operators mutation_to_apply available_mutation
      then list_remove available_mutations available_mutation
      else mret tt)).

(** What the consumer saw: the groups it was handed, how the loop ended, the
    generator's locals when its body returned, and the store left. *)
Record consumed (L : Type) := mkConsumed {
  groups : list (list Mutation);
  ended : ending;
  final_locals : option L;
  final_store : store
}.
#[local] Arguments mkConsumed {L} groups ended final_locals final_store.
#[local] Arguments groups {L} c.
#[local] Arguments ended {L} c.
#[local] Arguments final_locals {L} c.
#[local] Arguments final_store {L} c.

Definition add_group {L} (g : list Mutation) (c : consumed L) : consumed L :=
  mkConsumed (g :: groups c) (ended c) (final_locals c) (final_store c).

(** [for mutations_to_apply in generator: ...], as in
    [HighOrderMutator.mutate], asking for at most [n] items; each group is
    read when it is handed over. *)
Fixpoint consume {L} (next : frame L -> M (step L)) (n : nat) (fr : frame L)
    (σ : store) : consumed L :=
  match n with
  | O => mkConsumed [] Unfinished None σ
  | S n' =>
    match next fr σ with
    | (Ok (Yielded v fr'), σ') =>
      match σ' !! v with
      | Some g => add_group g (consume next n' fr' σ')
      | None => mkConsumed [] ModelStuck None σ'
      end
    | (Ok (Returned locals), σ') => mkConsumed [] Exhausted (Some locals) σ'
    | (Raise e, σ') => mkConsumed [] (Raised e) None σ'
    | (Stuck, σ') => mkConsumed [] ModelStuck None σ'
    end
  end.

End Store.
Arguments mkConsumed {H L} groups ended final_locals final_store.
Arguments groups {H L} c.
Arguments ended {H L} c.
Arguments final_locals {H L} c.
Arguments final_store {H L} c.

(** ** [class FirstToLastHOMStrategy] *)
Module FirstToLastHOMStrategy.
Section Strategy.
Context `{MutationSig}.
Variable order : Z.

(** The inner [while] of [generate], lines 371 to 379.  [fuel] bounds the
    number of iterations. *)
Fixpoint group_loop (fuel : nat) (mutations mutations_to_apply available_mutations : loc)
    (index : Z) : M unit :=
  n ← list_len mutations_to_apply;
  a ← list_len available_mutations;
  if bool_decide (Z.of_nat n < order) && bool_decide (a ≠ 0%nat) then
    match fuel with
    | O => stuck
    | S fuel' =>
      r ← try_except
            (mutation ← list_pop available_mutations index;
             list_append mutations_to_apply mutation;;
             list_remove mutations mutation;;
             mret (Some (if bool_decide (index = -1) then 0 else -1)))
            IndexError
            (mret None);
      match r with
      | None => mret tt
      | Some index' =>
        remove_bad_mutations mutations_to_apply available_mutations true;;
        group_loop fuel' mutations mutations_to_apply available_mutations index'
      end
    end
  else mret tt.

(** One turn of the outer [while mutations:], from its test to the [yield]. *)
Definition resume (mutations : loc) : M (step loc) :=
  n ← list_len mutations;
  if bool_decide (n ≠ 0%nat) then
    mutations_to_apply ← alloc [];
    available_mutations ← list_copy mutations;
    fuel ← list_len available_mutations;
    group_loop fuel mutations mutations_to_apply available_mutations 0;;
    mret (Yielded mutations_to_apply (Suspended mutations))
  else mret (Returned mutations).

Definition generate (mutations : loc) : frame loc := Created mutations.

Definition next (fr : frame loc) : M (step loc) :=
  match fr with
  | Created mutations => mutations' ← list_copy mutations; resume mutations'
  | Suspended mutations => resume mutations
  end.

End Strategy.
End FirstToLastHOMStrategy.

(** ** [class EachChoiceHOMStrategy] *)
Module EachChoiceHOMStrategy.
Section Strategy.
Context `{MutationSig}.
Variable order : Z.

(** The inner [while] of [generate], lines 391 to 398. *)
Fixpoint group_loop (fuel : nat) (mutations mutations_to_apply available_mutations : loc)
    : M unit :=
  n ← list_len mutations_to_apply;
  a ← list_len available_mutations;
  if bool_decide (Z.of_nat n < order) && bool_decide (a ≠ 0%nat) then
    match fuel with
    | O => stuck
    | S fuel' =>
      r ← try_except
            (mutation ← list_pop available_mutations 0;
             list_append mutations_to_apply mutation;;
             list_remove mutations mutation;;
             mret true)
            IndexError
            (mret false);
      if r : bool then
        remove_bad_mutations mutations_to_apply available_mutations true;;
        group_loop fuel' mutations mutations_to_apply available_mutations
      else mret tt
    end
  else mret tt.

Definition resume (mutations : loc) : M (step loc) :=
  n ← list_len mutations;
  if bool_decide (n ≠ 0%nat) then
    mutations_to_apply ← alloc [];
    available_mutations ← list_copy mutations;
    fuel ← list_len available_mutations;
    group_loop fuel mutations mutations_to_apply available_mutations;;
    mret (Yielded mutations_to_apply (Suspended mutations))
  else mret (Returned mutations).

Definition generate (mutations : loc) : frame loc := Created mutations.

Definition next (fr : frame loc) : M (step loc) :=
  match fr with
  | Created mutations => mutations' ← list_copy mutations; resume mutations'
  | Suspended mutations => resume mutations
  end.

End Strategy.
End EachChoiceHOMStrategy.

(** ** [class BetweenOperatorsHOMStrategy] *)
Module BetweenOperatorsHOMStrategy.
Section Strategy.
Context `{MutationSig}.
Variable order : Z.

(** The locals that are live at the [yield]: the argument [mutations] (never
    rebound), the dictionary [usage] and the list [not_used]. *)
Record locals := mkLocals {
  mutations : loc;
  usage : gmap Mutation Z;
  not_used : loc
}.

(** The inner [while] of [generate], lines 412 to 418; it hands back the
    dictionary it has updated. *)
Fixpoint group_loop (fuel : nat) (usage : gmap Mutation Z)
    (not_used mutations_to_apply available_mutations : loc) : M (gmap Mutation Z) :=
  n ← list_len mutations_to_apply;
  a ← list_len available_mutations;
  if bool_decide (Z.of_nat n < order) && bool_decide (a ≠ 0%nat) then
    match fuel with
    | O => stuck
    | S fuel' =>
      mutation ← list_pop available_mutations 0;
      list_append mutations_to_apply mutation;;
      u ← dict_get usage mutation;
      (if bool_decide (u = 0) then list_remove not_used mutation else mret tt);;
      u' ← dict_get usage mutation;
      let usage' := <[mutation := u' + 1]> usage in
      remove_bad_mutations mutations_to_apply available_mutations false;;
      group_loop fuel' usage' not_used mutations_to_apply available_mutations
    end
  else mret usage.

Definition resume (l : locals) : M (step locals) :=
  n ← list_len (not_used l);
  if bool_decide (n ≠ 0%nat) then
    mutations_to_apply ← alloc [];
    available_mutations ← list_copy (mutations l);
    list_sort_by_usage available_mutations (usage l);;
    fuel ← list_len available_mutations;
    usage' ← group_loop fuel (usage l) (not_used l) mutations_to_apply available_mutations;
    mret (Yielded mutations_to_apply
            (Suspended (mkLocals (mutations l) usage' (not_used l))))
  else mret (Returned l).

Definition generate (mutations : loc) : frame locals := Created mutations.

Definition next (fr : frame locals) : M (step locals) :=
  match fr with
  | Created mutations =>
    xs ← read mutations;
    let usage := list_to_map ((fun mutation => (mutation, 0)) <$> xs) in
    not_used ← list_copy mutations;
    resume (mkLocals mutations usage not_used)
  | Suspended l => resume l
  end.

End Strategy.
End BetweenOperatorsHOMStrategy.

(** ** [class RandomHOMStrategy] *)
Module RandomHOMStrategy.
Section Strategy.
Context `{MutationSig}.
Variable order : Z.
(** [self.shuffler] rearranges in place the list it is handed; what it
    leaves there is a function of what it found. *)
Variable shuffler : list Mutation -> list Mutation.

(** The inner [while] of [generate], lines 435 to 442. *)
Fixpoint group_loop (fuel : nat) (mutations mutations_to_apply available_mutations : loc)
    : M unit :=
  n ← list_len mutations_to_apply;
  a ← list_len available_mutations;
  if bool_decide (Z.of_nat n < order) && bool_decide (a ≠ 0%nat) then
    match fuel with
    | O => stuck
    | S fuel' =>
      r ← try_except
            (mutation ← list_pop available_mutations 0;
             list_append mutations_to_apply mutation;;
             list_remove mutations mutation;;
             mret true)
            IndexError
            (mret false);
      if r : bool then
        remove_bad_mutations mutations_to_apply available_mutations true;;
        group_loop fuel' mutations mutations_to_apply available_mutations
      else mret tt
    end
  else mret tt.

Definition resume (mutations : loc) : M (step loc) :=
  n ← list_len mutations;
  if bool_decide (n ≠ 0%nat) then
    mutations_to_apply ← alloc [];
    available_mutations ← list_copy mutations;
    fuel ← list_len available_mutations;
    group_loop fuel mutations mutations_to_apply available_mutations;;
    mret (Yielded mutations_to_apply (Suspended mutations))
  else mret (Returned mutations).

Definition generate (mutations : loc) : frame loc := Created mutations.

Definition next (fr : frame loc) : M (step loc) :=
  match fr with
  | Created mutations =>
    mutations' ← list_copy mutations;
    xs ← read mutations';
    write mutations' (shuffler xs);;
    resume mutations'
  | Suspended mutations => resume mutations
  end.

End Strategy.
End RandomHOMStrategy.

(** ** The controller's collaborators

    The values the controller only passes on are opaque: loaded modules,
    syntax trees, test suites, exception objects, and the coverage injector
    together with its result. *)
Class ControllerSig := {
  Mod : Type;
  Ast : Type;
  Suite : Type;
  Exc : Type;
  Cov : Type
}.

(** What the controller reads of a [unittest.TestResult]. *)
Record TestResult := mkTestResult {
  wasSuccessful : bool;
  testsRun : Z
}.

(** A lazily produced sequence (a generator or an iterable) of a
    collaborator: it yields, ends, or raises. *)
Inductive stream (E A : Type) :=
| Stop
| Yield (a : A) (rest : stream E A)
| Throw (e : E).
Arguments Stop {E A}.
Arguments Yield {E A} a rest.
Arguments Throw {E A} e.

(** How a call of [run] ends: it returns, it leaves through [sys.exit]
    with the argument [status], or an exception escapes it.  What the
    operating system is told in each case is up to the interpreter and is
    not modelled. *)
Inductive exit (E : Type) :=
| Completed
| SysExit (status : Z)
| Uncaught (e : E).
Arguments Completed {E}.
Arguments SysExit {E} status.
Arguments Uncaught {E} e.

Section Controller.
Context `{MutationSig} `{ControllerSig}.

(** What the controller reads of the result of a mutant's test run. *)
Record MutantResult := mkMutantResult {
  is_incompetent : bool;
  is_survived : bool;
  killer : string;
  exception : Exc;
  exception_traceback : string;
  tests_run : Z
}.

(** The exceptions the controller raises or lets through.
    [KeyboardInterrupt] is the interrupt from outside, raised wherever a
    collaborator that can raise is at work; [OtherException] is any other
    exception of a collaborator, such as the [KeyError] of a test that has
    no entry in [coverage_result.test_covered_nodes]. *)
Inductive error :=
| TestsFailAtOriginal (result : TestResult)
| ModulesLoaderException (name : string) (exception : Exc)
| AssertionError (message : string)
| AttributeError (attribute : string)
| KeyboardInterrupt
| OtherException (exception : Exc).

(** The notifications of [views.ViewNotifier], with their arguments. *)
Inductive event :=
| notify_initialize (targets tests : list string)
| notify_passed (test_modules : list (Mod * string * Q)) (number_of_tests : Z)
| notify_start
| notify_end (score : MutationScore) (duration : Q)
| notify_original_tests_fail (result : TestResult)
| notify_cant_load (name : string) (exception : Exc)
| notify_mutation (number : Z) (mutations : list Mutation) (module_name : string)
    (mutant : Ast)
| notify_timeout (duration : Q)
| notify_incompetent (duration : Q) (exception : Exc) (tests_run : Z)
| notify_survived (duration : Q) (tests_run : Z)
| notify_killed (duration : Q) (killer : string) (exception_traceback : string)
    (tests_run : Z).

(** The notifications that report the classification of a mutant. *)
Definition is_classification (e : event) : bool :=
  match e with
  | notify_timeout _ | notify_incompetent _ _ _ | notify_survived _ _
  | notify_killed _ _ _ _ => true
  | _ => false
  end.

(** The state the controller changes: the attribute [self.score] (unset
    until [run_mutation_process] creates the score) and the notifications
    sent to the views so far, oldest first. *)
Record cstate := mkState {
  score : option MutationScore;
  events : list event
}.

Definition C (A : Type) : Type := cstate -> (error + A) * cstate.

#[global] Instance C_ret : MRet C := fun A a s => (inr a, s).

#[global] Instance C_bind : MBind C := fun A B f m s =>
  match m s with
  | (inr a, s') => f a s'
  | (inl e, s') => (inl e, s')
  end.

Definition throw {A} (e : error) : C A := fun s => (inl e, s).

(** A call that returns or raises without touching the state. *)
Definition lift {A} (r : error + A) : C A := fun s => (r, s).

(** The body of a [try]: what it raised, if anything, is handed to the
    handlers. *)
Definition attempt {A} (body : C A) : C (error + A) := fun s =>
  let '(r, s') := body s in (inr r, s').

Definition notify (e : event) : C unit := fun s =>
  (inr tt, mkState (score s) (events s ++ [e])).

(** Reading [self.score]. *)
Definition get_score : C MutationScore := fun s =>
  match score s with
  | Some sc => (inr sc, s)
  | None => (inl (AttributeError "score"%string), s)
  end.

(** [self.score = sc] *)
Definition set_score (sc : MutationScore) : C unit := fun s =>
  (inr tt, mkState (Some sc) (events s)).

(** A method call [self.score.f()] that updates the score in place. *)
Definition on_score (f : MutationScore -> MutationScore) : C unit :=
  sc ← get_score; set_score (f sc).

(** [for x in s: body(x)] over a collaborator's sequence. *)
Fixpoint for_stream {A} (s : stream error A) (body : A -> C unit) : C unit :=
  match s with
  | Stop => mret tt
  | Yield a rest => body a;; for_stream rest body
  | Throw e => throw e
  end.

(** The controller object: its configuration and what its collaborators
    do.  A generator of an operator is the list of the items it yields. *)
Record MutationController := mkController {
  (* configuration *)
  timeout_factor : Q;
  mutate_covered : bool;
  mutation_number : option Z;
  (* the loaders *)
  target_loader_names : list string;
  test_loader_names : list string;
  test_loader_load : stream error (Mod * string);
  (* [self.test_loader.load()] while [utils.InjectImporter(module)] is
     installed and the modules loaded since the start are removed: what the
     loader then yields or raises depends on the injected module *)
  test_loader_load_injected : Mod -> stream error (Mod * string);
  target_loader_load : list Mod -> stream error (Mod * option string);
  (* unittest: the loaders, the empty suite [unittest.TestSuite()],
     [suite.addTests(tests)] and [suite.run(result)] with its duration *)
  loadTestsFromName : string -> Mod -> Suite;
  loadTestsFromModule : Mod -> Suite;
  TestSuite : Suite;
  addTests : Suite -> Suite -> Suite;
  suite_run : Suite -> TestResult * Q;
  (* utils and coverage: [coverage_injector.inject] gives the injector and
     the coverage module, [coverage_run] is [suite.run(coverage_result)] *)
  module_name : Mod -> string;
  create_ast : Mod -> Ast;
  create_module : Ast -> string -> Exc + Mod;
  coverage_inject : Ast -> string -> Cov * Mod;
  coverage_run : Suite -> Cov -> Cov;
  coverage_get_result : Cov -> Z * Z;
  (* the walk of [mark_not_covered_tests_as_skip] over the test objects of
     the suite: the suite with the tests marked, or the exception raised on
     the way (the [KeyError] of [test_covered_nodes[repr(test)]]) *)
  mark_not_covered_tests_as_skip : list Mutation -> Cov -> Suite -> error + Suite;
  (* the mutation test runner: the result it has after [live_time], [None]
     when it has none yet, and the time the controller measured *)
  get_result : Suite -> Q -> option MutantResult;
  mutant_duration : Suite -> Q;
  run_duration : Q;
  (* [self.mutant_generator.mutate] *)
  mutant_generator :
    Ast -> option string -> option Cov -> Mod -> stream error (list Mutation * Ast)
}.

Section Methods.
Variable self : MutationController.

(** [MutationController.get_test_suite]; an empty [target_test] is false. *)
Definition get_test_suite (test_module : Mod) (target_test : string) : Suite :=
  if bool_decide (target_test ≠ EmptyString)
  then loadTestsFromName self target_test test_module
  else loadTestsFromModule self test_module.

(** [MutationController.run_test] *)
Definition run_test (test_module : Mod) (target_test : string) : TestResult * Q :=
  suite_run self (get_test_suite test_module target_test).

(** The loop of [MutationController.load_and_check_tests], with the three
    names it updates. *)
Fixpoint check_tests (tests : stream error (Mod * string))
    (test_modules : list (Mod * string * Q)) (number_of_tests : Z) (total_duration : Q)
    : C (list (Mod * string * Q) * Q * Z) :=
  match tests with
  | Stop => mret (test_modules, total_duration, number_of_tests)
  | Throw e => throw e
  | Yield (test_module, target_test) rest =>
    let '(result, duration) := run_test test_module target_test in
    if wasSuccessful result then
      check_tests rest (test_modules ++ [(test_module, target_test, duration)])
                  (number_of_tests + testsRun result) (total_duration + duration)%Q
    else throw (TestsFailAtOriginal result)
  end.

(** [MutationController.load_and_check_tests] *)
Definition load_and_check_tests : C (list (Mod * string * Q) * Q * Z) :=
  check_tests (test_loader_load self) [] 0 0%Q.

(** The loop of [MutationController.create_test_suite], lines 238 and 239:
    an exception of the loader leaves the loop and the method. *)
Fixpoint add_tests (tests : stream error (Mod * string)) (suite : Suite) : error + Suite :=
  match tests with
  | Stop => inr suite
  | Throw e => inl e
  | Yield (test_module, target_test) rest =>
    add_tests rest (addTests self suite (get_test_suite test_module target_test))
  end.

(** [MutationController.create_test_suite].  The importer it installs and
    the modules it removes from [sys.modules] are seen through what the
    loader yields; when the loader raises, the importer stays installed.
    The method sends no notification and does not touch the score. *)
Definition create_test_suite (mutant_module : Mod) : error + Suite :=
  add_tests (test_loader_load_injected self mutant_module) (TestSuite self).

(** [MutationController.inject_coverage]: the injector with the coverage
    result, or [None, None]. *)
Definition inject_coverage (target_ast : Ast) (target_module : Mod) : error + option Cov :=
  if negb (mutate_covered self) then inr None
  else
    let '(coverage_injector, coverage_module) :=
      coverage_inject self target_ast (module_name self target_module) in
    match create_test_suite coverage_module with
    | inr suite => inr (Some (coverage_run self suite coverage_injector))
    | inl e => inl e
    end.

(** [MutationController.create_mutant_module] *)
Definition create_mutant_module (target_module : Mod) (mutant_ast : Ast)
    : C (option Mod) :=
  match create_module self mutant_ast (module_name self target_module) with
  | inr mutant_module => mret (Some mutant_module)
  | inl exception => notify (notify_incompetent 0 exception 0);; mret None
  end.

(** [MutationController.run_mutation_test_runner] *)
Definition run_mutation_test_runner (suite : Suite) (total_duration : Q)
    : option MutantResult :=
  get_result self suite (live_time (timeout_factor self) total_duration).

Definition update_timeout_mutant (duration : Q) : C unit :=
  notify (notify_timeout duration);;
  on_score inc_timeout.

Definition update_incompetent_mutant (result : MutantResult) (duration : Q) : C unit :=
  notify (notify_incompetent duration (exception result) (tests_run result));;
  on_score inc_incompetent.

Definition update_survived_mutant (result : MutantResult) (duration : Q) : C unit :=
  notify (notify_survived duration (tests_run result));;
  on_score inc_survived.

Definition update_killed_mutant (result : MutantResult) (duration : Q) : C unit :=
  notify (notify_killed duration (killer result) (exception_traceback result)
                        (tests_run result));;
  on_score inc_killed.

(** [MutationController.update_score_and_notify_views] *)
Definition update_score_and_notify_views (result : option MutantResult)
    (mutant_duration : Q) : C unit :=
  match result with
  | None => update_timeout_mutant mutant_duration
  | Some r =>
    if is_incompetent r then update_incompetent_mutant r mutant_duration
    else if is_survived r then update_survived_mutant r mutant_duration
    else update_killed_mutant r mutant_duration
  end.

(** [MutationController.run_tests_with_mutant] *)
Definition run_tests_with_mutant (total_duration : Q) (mutant_module : Mod)
    (mutations : list Mutation) (coverage_result : option Cov) : C unit :=
  suite ← lift (create_test_suite mutant_module);
  suite ← match coverage_result with
          | Some cov => lift (mark_not_covered_tests_as_skip self mutations cov suite)
          | None => mret suite
          end;
  let result := run_mutation_test_runner suite total_duration in
  update_score_and_notify_views result (mutant_duration self suite).

(** Whether [self.mutation_number] is true: neither [None] nor [0]. *)
Definition mutation_number_set : bool :=
  match mutation_number self with
  | Some n => bool_decide (n ≠ 0)
  | None => false
  end.

(** The body of the loop of [MutationController.mutate_module], lines 164
    to 173. *)
Definition mutate_module_body (target_module : Mod) (total_duration : Q)
    (coverage_result : option Cov) (item : list Mutation * Ast) : C unit :=
  let '(mutations, mutant_ast) := item in
  sc ← get_score;
  let number := all_mutants sc + 1 in
  if mutation_number_set && bool_decide (mutation_number self ≠ Some number) then
    on_score inc_incompetent
  else
    notify (notify_mutation number mutations (module_name self target_module) mutant_ast);;
    mutant_module ← create_mutant_module target_module mutant_ast;
    match mutant_module with
    | Some m => run_tests_with_mutant total_duration m mutations coverage_result
    | None => on_score inc_incompetent
    end.

(** [MutationController.mutate_module] *)
Definition mutate_module (target_module : Mod) (to_mutate : option string)
    (total_duration : Q) : C unit :=
  let target_ast := create_ast self target_module in
  coverage ← lift (inject_coverage target_ast target_module);
  match coverage with
  | Some cov =>
    let '(covered, all) := coverage_get_result self cov in
    on_score (update_coverage covered all)
  | None => mret tt
  end;;
  for_stream (mutant_generator self target_ast to_mutate coverage target_module)
             (mutate_module_body target_module total_duration coverage).

(** The body of the [try] of [MutationController.run_mutation_process],
    lines 89 to 97. *)
Definition mutation_process : C unit :=
  '(test_modules, total_duration, number_of_tests) ← load_and_check_tests;
  notify (notify_passed test_modules number_of_tests);;
  notify notify_start;;
  set_score MutationScore_init;;
  for_stream (target_loader_load self ((fun t => fst (fst t)) <$> test_modules))
             (fun '(target_module, to_mutate) =>
                mutate_module target_module to_mutate total_duration).

(** [MutationController.run_mutation_process]: [except KeyboardInterrupt:
    pass] ends the process quietly, every other exception goes on. *)
Definition run_mutation_process : C unit :=
  r ← attempt mutation_process;
  match r with
  | inr _ => mret tt
  | inl KeyboardInterrupt => mret tt
  | inl e => throw e
  end.

(** What a call of [run] leaves: how it ended, and the state. *)
Record run_result := mkRun {
  run_exit : exit error;
  run_state : cstate
}.

(** [MutationController.run] *)
Definition run : run_result :=
  let body :=
    notify (notify_initialize (target_loader_names self) (test_loader_names self));;
    r ← attempt
          (run_mutation_process;;
           sc ← get_score;
           notify (notify_end sc (run_duration self)));
    match r with
    | inr _ => mret Completed
    | inl (TestsFailAtOriginal result) =>
      notify (notify_original_tests_fail result);;
      mret (SysExit (-1))
    | inl (ModulesLoaderException name exception) =>
      notify (notify_cant_load name exception);;
      mret (SysExit (-2))
    | inl e => throw e
    end in
  match body (mkState None []) with
  | (inr x, s) => mkRun x s
  | (inl e, s) => mkRun (Uncaught e) s
  end.

End Methods.

(** ** [class FirstOrderMutator] and [class HighOrderMutator]

    An operator is run by [op().mutate(ast, to_mutate, sampler,
    coverage_injector, module, only_mutation)]; [operator_mutate] gives the
    items that generator yields ([sampled] tells whether the mutator's
    sampler or [None] is passed). *)
Record Mutator := mkMutator {
  operators : list Operator;
  sort_operators : list Operator -> list Operator;
  operator_mutate :
    Operator -> Ast -> option string -> bool -> option Cov -> Mod -> option Mutation
    -> list (Mutation * Ast);
  (* [self.hom_strategy.generate] *)
  hom_strategy : list Mutation -> stream error (list Mutation)
}.

Section Mutators.
Variable self : Mutator.

Definition list_stream {A} (l : list A) : stream error A :=
  foldr Yield Stop l.

(** [FirstOrderMutator.mutate].  The generator of an operator is the list of
    what it yields, so a first order mutator yields and then ends: an
    operator that raises is not part of this model. *)
Definition FirstOrderMutator_mutate (target_ast : Ast) (to_mutate : option string)
    (coverage_injector : option Cov) (module : Mod) : stream error (list Mutation * Ast) :=
  list_stream
    (op ← sort_operators self (operators self);
     '(mutation, mutant) ←
        operator_mutate self op target_ast to_mutate true coverage_injector module None;
     [([mutation], mutant)]).

(** [HighOrderMutator.generate_all_mutations] *)
Definition generate_all_mutations (coverage_injector : option Cov) (module : Mod)
    (target_ast : Ast) (to_mutate : option string) : list Mutation :=
  op ← sort_operators self (operators self);
  '(mutation, _) ←
     operator_mutate self op target_ast to_mutate false coverage_injector module None;
  [mutation].

(** The inner loop of [HighOrderMutator.mutate], lines 478 to 492: the
    mutations applied, the mutant, and what is left of each generator. *)
Fixpoint apply_mutations (to_mutate : option string) (coverage_injector : option Cov)
    (module : Mod) (mutations_to_apply : list Mutation) (mutant : Ast)
    (applied_mutations : list Mutation) (generators : list (list (Mutation * Ast)))
    : error + (list Mutation * Ast * list (list (Mutation * Ast))) :=
  match mutations_to_apply with
  | [] => inr (applied_mutations, mutant, generators)
  | mutation :: rest =>
    match operator_mutate self (operator mutation) mutant to_mutate true
                          coverage_injector module (Some mutation) with
    | [] => inl (AssertionError "no mutations!"%string)
    | (new_mutation, mutant') :: generator =>
      apply_mutations to_mutate coverage_injector module rest mutant'
                      (applied_mutations ++ [new_mutation]) (generators ++ [generator])
    end
  end.

(** [HighOrderMutator.finish_generators]: [None] when every generator is
    exhausted. *)
Fixpoint finish_generators (reversed_generators : list (list (Mutation * Ast)))
    : option error :=
  match reversed_generators with
  | [] => None
  | [] :: rest => finish_generators rest
  | (_ :: _) :: _ => Some (AssertionError "too many mutations!"%string)
  end.

(** The outer loop of [HighOrderMutator.mutate]. *)
Fixpoint mutate_groups (to_mutate : option string) (coverage_injector : option Cov)
    (module : Mod) (target_ast : Ast) (groups : stream error (list Mutation))
    : stream error (list Mutation * Ast) :=
  match groups with
  | Stop => Stop
  | Throw e => Throw e
  | Yield mutations_to_apply rest =>
    match apply_mutations to_mutate coverage_injector module mutations_to_apply
                          target_ast [] [] with
    | inl e => Throw e
    | inr (applied_mutations, mutant, generators) =>
      Yield (applied_mutations, mutant)
            match finish_generators (reverse generators) with
            | Some e => Throw e
            | None => mutate_groups to_mutate coverage_injector module target_ast rest
            end
    end
  end.

(** [HighOrderMutator.mutate] *)
Definition HighOrderMutator_mutate (target_ast : Ast) (to_mutate : option string)
    (coverage_injector : option Cov) (module : Mod) : stream error (list Mutation * Ast) :=
  let mutations := generate_all_mutations coverage_injector module target_ast to_mutate in
  mutate_groups to_mutate coverage_injector module target_ast (hom_strategy self mutations).

End Mutators.
End Controller.

(* ===================================================================== *)
(** * Part II.  The vocabulary of the properties                          *)
(* ===================================================================== *)

(** The yields of a collaborator's sequence, in order. *)
Fixpoint stream_items {E A} (s : stream E A) : list A :=
  match s with
  | Yield a rest => a :: stream_items rest
  | _ => []
  end.

(** How a collaborator's sequence ends: [None] for the end of the
    iteration, the exception otherwise. *)
Fixpoint stream_end {E A} (s : stream E A) : option E :=
  match s with
  | Stop => None
  | Yield _ rest => stream_end rest
  | Throw e => Some e
  end.

(** The sequence that yields [items] and goes on as [tail]. *)
Definition stream_app {E A} (items : list A) (tail : stream E A) : stream E A :=
  foldr Yield tail items.

(** The four counters of the score, in the order killed, timeout,
    incompetent, survived. *)
Definition counters (s : MutationScore) : list Z :=
  [killed_mutants s; timeout_mutants s; incompetent_mutants s; survived_mutants s].

(** The first element of a list has the least key. *)
Definition head_least {A} (key : A -> Z) (l : list A) : Prop :=
  match l with
  | [] => True
  | x :: _ => Forall (fun y => key x <= key y) l
  end.

Section Vocabulary.
Context `{MutationSig}.
Implicit Types (σ : store) (m t a : loc) (ms ts avail nu muts g : list Mutation)
  (x y : Mutation) (usage : gmap Mutation Z) (allow : bool).

(** Two mutations are in conflict when they are at the same node, or the
    node of one is among the [children] of the node of the other: the
    relation between locations that [remove_bad_mutations] tests, with
    ancestors and descendants as the [children] attribute records them. *)
Definition conflict x y : Prop :=
  node x = node y \/ node x ∈ children (node y) \/ node y ∈ children (node x).

(** No two mutations of a group, at different positions, are in conflict. *)
Definition non_conflicting g : Prop :=
  forall (i j : nat) x y, i ≠ j -> g !! i = Some x -> g !! j = Some y -> ~ conflict x y.

(** What [remove_bad_mutations] leaves of the available mutations: those
    that are not bad for any mutation to apply. *)
Definition compatible allow ts (am : Mutation) : Prop :=
  Forall (fun mta => bad allow mta am = false) ts.

#[global] Instance compatible_dec allow ts am : Decision (compatible allow ts am).
Proof. unfold compatible. apply _. Defined.

(** Three list objects of the store and their contents. *)
Definition cells σ m ms t ts a avail : Prop :=
  σ !! m = Some ms /\ σ !! t = Some ts /\ σ !! a = Some avail.

(** Two stores of the same size that agree outside three addresses. *)
Definition same_elsewhere σ σ' m t a : Prop :=
  length σ' = length σ /\ forall l : loc, l ≠ m -> l ≠ t -> l ≠ a -> σ' !! l = σ !! l.

(** Every mutation of [muts] has a counter, which is not negative, and one
    whose counter is [0] is still in [not_used]. *)
Definition counted muts usage nu : Prop :=
  forall y, y ∈ muts -> exists u, usage !! y = Some u /\ 0 <= u /\ (u = 0 -> y ∈ nu).

(** [not_used] holds exactly the mutations whose counter is [0], once each. *)
Definition exact muts usage nu : Prop :=
  counted muts usage nu /\ NoDup nu /\ forall y, y ∈ nu -> y ∈ muts /\ usage !! y = Some 0.

(** The key [lambda x: usage[x]] on the mutations that have a counter. *)
Definition usage_key usage (x : Mutation) : Z := default 0 (usage !! x).

(** The dictionary [{mutation: 0 for mutation in mutations}]. *)
Definition usage0 muts : gmap Mutation Z :=
  list_to_map ((fun mutation => (mutation, 0)) <$> muts).

(** The index [pop] is given next: [FirstToLast] alternates between the
    front and the back, the other strategies stay at the front. *)
Definition alternate (index : Z) : Z := if bool_decide (index = -1) then 0 else -1.

Definition front (index : Z) : Z := 0.

Variable order : Z.

(** What the inner loop of [FirstToLast], [EachChoice] and [Random] computes
    on the contents of [mutations], [mutations_to_apply] and
    [available_mutations]. *)
Fixpoint grouping (toggle : Z -> Z) (fuel : nat) ms ts avail (index : Z)
    : list Mutation * list Mutation * list Mutation :=
  if bool_decide (Z.of_nat (length ts) < order) && bool_decide (length avail ≠ 0%nat) then
    match fuel with
    | O => (ms, ts, avail)
    | S fuel' =>
      match py_pop index avail with
      | Some (x, avail') =>
        match py_remove x ms with
        | Some ms' =>
          grouping toggle fuel' ms' (ts ++ [x])
                   (filter (compatible true (ts ++ [x])) avail') (toggle index)
        | None => (ms, ts, avail)
        end
      | None => (ms, ts, avail)
      end
    end
  else (ms, ts, avail).

(** One turn of the outer loop on the contents of [mutations]: what is left
    of it, and the group. *)
Definition group_step (toggle : Z -> Z) ms : list Mutation * list Mutation :=
  let '(ms', ts', _) := grouping toggle (length ms) ms [] ms 0 in (ms', ts').

(** The groups the first [n] calls of [next] hand over, and how the
    consumer's loop ends. *)
Fixpoint run_groups (toggle : Z -> Z) (n : nat) ms : list (list Mutation) * ending :=
  match n with
  | O => ([], Unfinished)
  | S n' =>
    match ms with
    | [] => ([], Exhausted)
    | _ :: _ =>
      let '(ms', g) := group_step toggle ms in
      let '(gs, e) := run_groups toggle n' ms' in
      (g :: gs, e)
    end
  end.

(** A generator whose suspended frame behaves like [group_step]. *)
Definition steps_like (next : frame loc -> M (step loc)) (toggle : Z -> Z) : Prop :=
  forall σ m ms, σ !! m = Some ms ->
  match ms with
  | [] => next (Suspended m) σ = (Ok (Returned m), σ)
  | _ :: _ =>
    exists σ', next (Suspended m) σ = (Ok (Yielded (length σ) (Suspended m)), σ')
      /\ σ' !! m = Some (fst (group_step toggle ms))
      /\ σ' !! length σ = Some (snd (group_step toggle ms))
      /\ (length σ <= length σ')%nat
      /\ forall l : loc, (l < length σ)%nat -> l ≠ m -> σ' !! l = σ !! l
  end.

(** What a consumer of a strategy's generator sees, in terms of the contents
    [ms] of the list the generator works on, and what it leaves of the store
    [σ] it started in. *)
Definition sees {L} (c : consumed L) (n : nat) (toggle : Z -> Z) ms σ : Prop :=
  groups c = fst (run_groups toggle n ms)
  /\ ended c = snd (run_groups toggle n ms)
  /\ forall l : loc, (l < length σ)%nat -> final_store c !! l = σ !! l.

(** What the inner loop of [BetweenOperators] computes on the dictionary and
    on the contents of [not_used], [mutations_to_apply] and
    [available_mutations]. *)
Fixpoint bo_grouping (fuel : nat) usage nu ts avail
    : gmap Mutation Z * list Mutation * list Mutation * list Mutation :=
  if bool_decide (Z.of_nat (length ts) < order) && bool_decide (length avail ≠ 0%nat) then
    match fuel, avail with
    | S fuel', x :: avail' =>
      match usage !! x with
      | Some u =>
        match (if bool_decide (u = 0) then py_remove x nu else Some nu) with
        | Some nu' =>
          bo_grouping fuel' (<[x := u + 1]> usage) nu' (ts ++ [x])
                      (filter (compatible false (ts ++ [x])) avail')
        | None => (usage, nu, ts, avail)
        end
      | None => (usage, nu, ts, avail)
      end
    | _, _ => (usage, nu, ts, avail)
    end
  else (usage, nu, ts, avail).

(** One turn of the outer loop of [BetweenOperators] on the dictionary and
    the contents of [not_used]: what they become, and the group. *)
Definition bo_step usage nu muts : gmap Mutation Z * list Mutation * list Mutation :=
  let avail := py_sort_by (usage_key usage) muts in
  let '(usage', nu', ts', _) := bo_grouping (length avail) usage nu [] avail in
  (usage', nu', ts').

(** The groups the first [n] calls of [next] hand over, how the consumer's
    loop ends, and the dictionary at that point. *)
Fixpoint bo_run (n : nat) usage nu muts
    : list (list Mutation) * ending * gmap Mutation Z :=
  match n with
  | O => ([], Unfinished, usage)
  | S n' =>
    match nu with
    | [] => ([], Exhausted, usage)
    | _ :: _ =>
      let '(usage', nu', g) := bo_step usage nu muts in
      let '(gs, e, u) := bo_run n' usage' nu' muts in
      (g :: gs, e, u)
    end
  end.

End Vocabulary.

Section ControllerVocabulary.
Context `{MutationSig} `{ControllerSig}.

(** The state in which the [try] of [run] starts. *)
Definition initialized (self : MutationController) : cstate :=
  mkState None [notify_initialize (target_loader_names self) (test_loader_names self)].

End ControllerVocabulary.

(** ** An example: six mutations of three operators on a small tree

    A mutation is written (identity, operator, node); node 1 has nodes 2 and
    3 below it, node 2 has node 3 below it, and nodes 4 and 5 are apart. *)
Definition example_sig : MutationSig := {|
  Node := nat;
  Operator := nat;
  Mutation := nat * nat * nat;
  node := fun m => snd m;
  operator := fun m => snd (fst m);
  children := fun n =>
    match n with
    | 1%nat => [2%nat; 3%nat]
    | 2%nat => [3%nat]
    | _ => []
    end
|}.

Definition example_mutations : list (@Mutation example_sig) :=
  [(0, 0, 1); (1, 0, 2); (2, 1, 3); (3, 1, 4); (4, 0, 5); (5, 2, 4)]%nat.

(** ** An example controller

    Modules and suites are named by strings, a syntax tree is the list of
    the nodes mutated in it, and the mutations are those of
    [example_mutations]. *)
Definition example_controller_sig : ControllerSig := {|
  Mod := string;
  Ast := list nat;
  Suite := string;
  Exc := string;
  Cov := unit
|}.

(** The default strategy of [HighOrderMutator]: [FirstToLastHOMStrategy(order=2)],
    consumed to its end. *)
Definition example_strategy (mutations : list (@Mutation example_sig))
    : stream (@error example_controller_sig) (list (@Mutation example_sig)) :=
  list_stream (H0 := example_controller_sig)
    (groups (consume (FirstToLastHOMStrategy.next (H := example_sig) 2)
               (S (length mutations)) (FirstToLastHOMStrategy.generate 0%nat)
               [mutations])).

(** Operators that find every mutation again when they are re-applied. *)
Definition example_mutator : @Mutator example_sig example_controller_sig :=
  mkMutator (H := example_sig) (H0 := example_controller_sig)
    (* operators *) [0; 1; 2]%nat
    (* sort_operators *) (fun ops => ops)
    (* operator_mutate *)
    (fun (op : nat) (ast : list nat) _ _ _ _ (only_mutation : option (nat * nat * nat)) =>
       match only_mutation with
       | None =>
         (fun m : nat * nat * nat => (m, ast ++ [snd m]))
           <$> filter (fun m : nat * nat * nat => snd (fst m) = op) example_mutations
       | Some m => [(m, ast ++ [snd m])]
       end)
    (* hom_strategy *) example_strategy.

(** Operators that do not find their target when they are re-applied. *)
Definition forgetful_mutator : @Mutator example_sig example_controller_sig :=
  mkMutator (H := example_sig) (H0 := example_controller_sig)
    (* operators *) [0; 1; 2]%nat
    (* sort_operators *) (fun ops => ops)
    (* operator_mutate *)
    (fun (op : nat) (ast : list nat) _ _ _ _ (only_mutation : option (nat * nat * nat)) =>
       match only_mutation with
       | None =>
         (fun m : nat * nat * nat => (m, ast ++ [snd m]))
           <$> filter (fun m : nat * nat * nat => snd (fst m) = op) example_mutations
       | Some _ => []
       end)
    (* hom_strategy *) example_strategy.

(** One test module, whose tests pass on the original when [baseline] is
    true and fail on every mutant, and one target. *)
Definition example_controller
    (mutant_generator : list nat -> option string -> option unit -> string
                        -> stream (@error example_controller_sig)
                             (list (@Mutation example_sig) * list nat))
    (mutation_number : option Z) (baseline : bool)
    : @MutationController example_sig example_controller_sig :=
  mkController (H := example_sig) (H0 := example_controller_sig)
    (* timeout_factor *) 5
    (* mutate_covered *) false
    (* mutation_number *) mutation_number
    (* target_loader_names *) ["target"%string]
    (* test_loader_names *) ["test_target"%string]
    (* test_loader_load *) (Yield ("test_target"%string, EmptyString) Stop)
    (* test_loader_load_injected *) (fun _ => Yield ("test_target"%string, EmptyString) Stop)
    (* target_loader_load *) (fun _ => Yield ("target"%string, None) Stop)
    (* loadTestsFromName *) (fun _ m => m)
    (* loadTestsFromModule *) (fun m => m)
    (* TestSuite *) EmptyString
    (* addTests *) (fun suite tests => (suite ++ tests)%string)
    (* suite_run *) (fun _ => (mkTestResult baseline 3, 1 # 2))
    (* module_name *) (fun m => m)
    (* create_ast *) (fun _ => [])
    (* create_module *) (fun _ name => inr name)
    (* coverage_inject *) (fun _ name => (tt, name))
    (* coverage_run *) (fun _ cov => cov)
    (* coverage_get_result *) (fun _ => (0, 0))
    (* mark_not_covered_tests_as_skip *) (fun _ _ suite => inr suite)
    (* get_result *)
    (fun _ _ =>
       Some (mkMutantResult (H0 := example_controller_sig) false false
               "test_one"%string "AssertionError"%string "traceback"%string 3))
    (* mutant_duration *) (fun _ => 1 # 4)
    (* run_duration *) 2
    (* mutant_generator *) mutant_generator.

(** ** More vocabulary: groups, notifications, the table of modules *)

Section GroupVocabulary.
Context `{MutationSig}.

(** No two mutations of a group, at different positions, have the same
    operator. *)
Definition distinct_operators (g : list Mutation) : Prop :=
  forall (i j : nat) x y, i ≠ j -> g !! i = Some x -> g !! j = Some y ->
    operator x ≠ operator y.

(** A group of the right size for an order: at most [order] mutations, and
    at least one when [order] is positive. *)
Definition well_sized (order : Z) (g : list Mutation) : Prop :=
  Z.of_nat (length g) <= Z.max order 0 /\ (0 < order -> g ≠ []).

(** The mutations of [not_used] are mutations of the input, each with a
    counter that says whether it was used. *)
Definition tracked (muts : list Mutation) (usage : gmap Mutation Z) (nu : list Mutation)
    : Prop :=
  counted muts usage nu /\ forall y, y ∈ nu -> y ∈ muts.

(** The number of times [m] is in a list. *)
Definition occurrences (m : Mutation) (l : list Mutation) : Z :=
  Z.of_nat (length (filter (fun y => y = m) l)).

(** A mutation that stays in [not_used] for ever: it has been used and is
    still there, or it has not been used and is there twice. *)
Definition lingers (usage : gmap Mutation Z) (nu : list Mutation) (m : Mutation) : Prop :=
  exists u, usage !! m = Some u /\ 0 <= u
    /\ ((1 <= u /\ m ∈ nu) \/ (u = 0 /\ exists rest, nu ≡ₚ m :: m :: rest)).

End GroupVocabulary.

(** The counters of a score that counts mutants: none is negative. *)
Definition sound (sc : MutationScore) : Prop :=
  0 <= killed_mutants sc /\ 0 <= timeout_mutants sc
  /\ 0 <= incompetent_mutants sc /\ 0 <= survived_mutants sc.

Section NotificationVocabulary.
Context `{MutationSig} `{ControllerSig}.

(** The ordinals of the mutants announced by [notify_mutation], in the order
    of the notifications. *)
Definition mutation_numbers (es : list event) : list Z :=
  omap (fun e => match e with notify_mutation number _ _ _ => Some number | _ => None end) es.

(** Whether the mutant of ordinal [number] passes the test of line 165:
    [mutation_number] is unset, or it is [number]. *)
Definition selected (self : MutationController) (number : Z) : bool :=
  negb (mutation_number_set self && bool_decide (mutation_number self ≠ Some number)).

(** What a loop over a collaborator's sequence returns: nothing at the end
    of the sequence, or the exception the sequence raised. *)
Definition loop_result (e : option error) : error + unit :=
  match e with
  | None => inr tt
  | Some e => inl e
  end.

(** A test of the baseline, as [load_and_check_tests] records it: the test
    module, the target test and the duration of the run. *)
Definition baseline_entry (self : MutationController) (item : Mod * string)
    : Mod * string * Q :=
  (fst item, snd item, snd (run_test self (fst item) (snd item))).

(** The sum of durations, added up from the left as the loop does. *)
Definition sum_durations (ds : list Q) : Q := foldl Qplus 0%Q ds.

(** The number of tests run by the tests of the baseline. *)
Definition sum_tests_run (self : MutationController) (items : list (Mod * string)) : Z :=
  foldr (fun item n => testsRun (fst (run_test self (fst item) (snd item))) + n) 0 items.

(** Every test of the baseline passes and the test loader ends normally. *)
Definition baseline_passes (self : MutationController) : Prop :=
  Forall (fun item => wasSuccessful (fst (run_test self (fst item) (snd item))) = true)
         (stream_items (test_loader_load self))
  /\ stream_end (test_loader_load self) = None.

(** What [load_and_check_tests] returns when the baseline passes: the tests
    with their durations and the total duration. *)
Definition baseline_modules (self : MutationController) : list (Mod * string * Q) :=
  baseline_entry self <$> stream_items (test_loader_load self).

Definition baseline_duration (self : MutationController) : Q :=
  sum_durations ((fun entry => snd entry) <$> baseline_modules self).

(** The state in which the loop over the target modules starts when the
    baseline passes: the score is created, and the views were told that the
    tests passed and that the mutation starts. *)
Definition started (self : MutationController) : cstate :=
  mkState (Some MutationScore_init)
    (events (initialized self)
     ++ [notify_passed (baseline_modules self)
           (sum_tests_run self (stream_items (test_loader_load self)));
         notify_start]).

(** The sequence of target modules that loop runs over, and its body. *)
Definition target_modules (self : MutationController) : stream error (Mod * option string) :=
  target_loader_load self ((fun t => fst (fst t)) <$> baseline_modules self).

Definition module_loop (self : MutationController) (item : Mod * option string) : C unit :=
  let '(target_module, to_mutate) := item in
  mutate_module self target_module to_mutate (baseline_duration self).

(** The suite a mutant is tested with, as [run_tests_with_mutant] makes it:
    the suite of [create_test_suite], with the tests that are not covered
    marked when there is a coverage result; or the exception raised on the
    way. *)
Definition test_suite_for (self : MutationController) (mutations : list Mutation)
    (coverage_result : option Cov) (mutant_module : Mod) : error + Suite :=
  match create_test_suite self mutant_module with
  | inr suite =>
    match coverage_result with
    | Some cov => mark_not_covered_tests_as_skip self mutations cov suite
    | None => inr suite
    end
  | inl e => inl e
  end.

(** The score after the coverage update at the start of [mutate_module]. *)
Definition score_coverage (self : MutationController) (coverage : option Cov)
    (sc : MutationScore) : MutationScore :=
  match coverage with
  | Some cov =>
    update_coverage (fst (coverage_get_result self cov)) (snd (coverage_get_result self cov))
                    sc
  | None => sc
  end.




End NotificationVocabulary.

(** ** [sys.modules] and the modules loaded since the controller was made

    [sys.modules] is a dictionary from module names to module objects, which
    stay opaque.  [store_init_modules] first starts a test runner on an
    empty suite, which may import modules; [init_modules] is the list of the
    names in the dictionary after that. *)
Section ModuleTable.
Context {V : Type}.

(** [list(sys.modules.keys())]: the names, each once, in the order of the
    dictionary; [keys] is any such enumeration. *)
Definition keys_of (sys_modules : gmap string V) (keys : list string) : Prop :=
  NoDup keys /\ forall name, name ∈ keys <-> is_Some (sys_modules !! name).

(** [del sys.modules[module]]; [None] is the [KeyError] of a missing name. *)
Definition del_module (module : string) (sys_modules : gmap string V)
    : option (gmap string V) :=
  match sys_modules !! module with
  | Some _ => Some (delete module sys_modules)
  | None => None
  end.

(** [MutationController.remove_loaded_modules], the loop over the names
    [keys] that [list(sys.modules.keys())] gave. *)
Fixpoint remove_loaded_modules (init_modules : list string) (keys : list string)
    (sys_modules : gmap string V) : option (gmap string V) :=
  match keys with
  | [] => Some sys_modules
  | module :: keys' =>
    if bool_decide (module ∉ init_modules) then
      sys_modules' ← del_module module sys_modules;
      remove_loaded_modules init_modules keys' sys_modules'
    else remove_loaded_modules init_modules keys' sys_modules
  end.

End ModuleTable.

(** Operators that find a mutation twice when they are re-applied. *)
Definition eager_mutator : @Mutator example_sig example_controller_sig :=
  mkMutator (H := example_sig) (H0 := example_controller_sig)
    (* operators *) [0; 1; 2]%nat
    (* sort_operators *) (fun ops => ops)
    (* operator_mutate *)
    (fun (op : nat) (ast : list nat) _ _ _ _ (only_mutation : option (nat * nat * nat)) =>
       match only_mutation with
       | None =>
         (fun m : nat * nat * nat => (m, ast ++ [snd m]))
           <$> filter (fun m : nat * nat * nat => snd (fst m) = op) example_mutations
       | Some m => [(m, ast ++ [snd m]); (m, ast ++ [snd m])]
       end)
    (* hom_strategy *) example_strategy.

(** Three mutations of the example no two of which are in conflict. *)
Definition example_apart : list (@Mutation example_sig) :=
  [(2, 1, 3); (3, 1, 4); (4, 0, 5)]%nat.

(** A table of modules: two that the controller found, one loaded since. *)
Definition example_init_modules : gmap string nat :=
  <["sys"%string := 1%nat]> (<["unittest"%string := 2%nat]> ∅).

Definition example_sys_modules : gmap string nat :=
  <["target"%string := 3%nat]> example_init_modules.

(* ===================================================================== *)
(** * Part III.  Properties                                               *)
(* ===================================================================== *)

(** C1.  In every state of the score, [count] is
    [(killed + timeout) / (all - incompetent) * 100] when
    [all - incompetent] is not zero, and [0] when [all_mutants] equals
    [incompetent_mutants]; the freshly created score, in which no mutant has
    been classified, is such a state. *)
Theorem count_formula (s : MutationScore) :
  (all_mutants s - incompetent_mutants s <> 0 ->
   count s = ((inject_Z (killed_mutants s + timeout_mutants s)
               / inject_Z (all_mutants s - incompetent_mutants s)) * 100)%Q)
  /\ (all_mutants s = incompetent_mutants s -> count s = 0%Q)
  /\ all_mutants MutationScore_init = incompetent_mutants MutationScore_init
  /\ count MutationScore_init = 0%Q.
Proof.
  unfold count. repeat split.
  - intros Hb. destruct (Z.eqb_spec (all_mutants s - incompetent_mutants s) 0); [lia | reflexivity].
  - intros He. destruct (Z.eqb_spec (all_mutants s - incompetent_mutants s) 0); [reflexivity | lia].
Qed.

Section StoreFacts.
Context `{MutationSig}.
Implicit Types (σ : store) (l : loc) (xs : list Mutation).

Lemma bind_ok {A B} (m : M A) (f : A -> M B) σ a σ' :
  m σ = (Ok a, σ') -> (m ≫= f) σ = f a σ'.
Proof. intros E. unfold mbind, M_bind. by rewrite E. Qed.

Lemma lookup_update_eq σ l xs xs' : σ !! l = Some xs -> <[l:=xs']> σ !! l = Some xs'.
Proof. intros E. apply list_lookup_insert_eq. by eapply lookup_lt_Some. Qed.

Lemma read_ok σ l xs : σ !! l = Some xs -> read l σ = (Ok xs, σ).
Proof. intros E. unfold read. by rewrite E. Qed.

Lemma write_ok σ l xs xs' : σ !! l = Some xs -> write l xs' σ = (Ok tt, <[l:=xs']> σ).
Proof. intros E. unfold write. by rewrite E. Qed.

Lemma list_len_ok σ l xs : σ !! l = Some xs -> list_len l σ = (Ok (length xs), σ).
Proof. intros E. unfold list_len. by rewrite (bind_ok _ _ _ _ _ (read_ok _ _ _ E)). Qed.

Lemma list_copy_ok σ l xs : σ !! l = Some xs -> list_copy l σ = (Ok (length σ), σ ++ [xs]).
Proof. intros E. unfold list_copy. by rewrite (bind_ok _ _ _ _ _ (read_ok _ _ _ E)). Qed.

Lemma list_pop_ok σ l i xs x xs' :
  σ !! l = Some xs -> py_pop i xs = Some (x, xs') ->
  list_pop l i σ = (Ok x, <[l:=xs']> σ).
Proof.
  intros E P. unfold list_pop. rewrite (bind_ok _ _ _ _ _ (read_ok _ _ _ E)), P.
  by rewrite (bind_ok _ _ _ _ _ (write_ok _ _ _ _ E)).
Qed.

Lemma list_append_ok σ l xs x :
  σ !! l = Some xs -> list_append l x σ = (Ok tt, <[l:=xs ++ [x]]> σ).
Proof.
  intros E. unfold list_append. rewrite (bind_ok _ _ _ _ _ (read_ok _ _ _ E)).
  by apply write_ok with xs.
Qed.

Lemma list_remove_ok σ l xs x xs' :
  σ !! l = Some xs -> py_remove x xs = Some xs' ->
  list_remove l x σ = (Ok tt, <[l:=xs']> σ).
Proof.
  intros E P. unfold list_remove. rewrite (bind_ok _ _ _ _ _ (read_ok _ _ _ E)), P.
  by apply write_ok with xs.
Qed.

Lemma lookup_alloc_old σ l xs : (l < length σ)%nat -> (σ ++ [xs]) !! l = σ !! l.
Proof. intros. by apply lookup_app_l. Qed.

Lemma lookup_alloc_new σ xs : (σ ++ [xs]) !! length σ = Some xs.
Proof. by rewrite list_lookup_middle. Qed.

End StoreFacts.

Section PyLists.
Context `{EqDecision A}.
Implicit Types (x y : A) (l k : list A).

Lemma py_remove_middle x k r : x ∉ k -> py_remove x (k ++ x :: r) = Some (k ++ r).
Proof.
  induction k as [|y k IH]; intros Hx; simpl.
  - by rewrite decide_True.
  - apply not_elem_of_cons in Hx as [Hne Hx].
    rewrite decide_False by done. by rewrite IH.
Qed.

Lemma py_remove_Some x l : x ∈ l -> exists l', py_remove x l = Some l' /\ l ≡ₚ x :: l'.
Proof.
  induction l as [|y l IH]; intros Hx; [by apply elem_of_nil in Hx|]. simpl.
  destruct (decide (y = x)) as [->|Hne]; [eauto|].
  apply elem_of_cons in Hx as [->|Hx]; [done|].
  destruct (IH Hx) as (l' & -> & Hp).
  eexists; split; [done|]. rewrite Hp. apply Permutation_swap.
Qed.

Lemma py_remove_other x y l l' : py_remove x l = Some l' -> y ≠ x -> y ∈ l -> y ∈ l'.
Proof.
  revert l'. induction l as [|z l IH]; intros l'; simpl; [done|].
  destruct (decide (z = x)) as [->|Hne].
  - intros [= <-] Hy [->|Hin]%elem_of_cons; done.
  - destruct (py_remove x l) as [l''|]; simpl; [|done].
    intros [= <-] Hy Hin. apply elem_of_cons in Hin as [->|Hin]; [left|right; eauto].
Qed.

Lemma py_pop_Permutation i l x l' : py_pop i l = Some (x, l') -> l ≡ₚ x :: l'.
Proof.
  unfold py_pop. destruct (py_index i (length l)) as [j|]; simpl; [|done].
  destruct (l !! j) as [z|] eqn:E; simpl; [|done].
  intros [= <- <-]. by apply delete_Permutation.
Qed.

Lemma py_pop_front l x : py_pop 0 (x :: l) = Some (x, l).
Proof.
  unfold py_pop, py_index. simpl.
  repeat case_bool_decide; try lia. done.
Qed.

Lemma py_pop_ends i l :
  l ≠ [] -> i = 0 \/ i = -1 -> exists x l', py_pop i l = Some (x, l').
Proof.
  intros Hl Hi. unfold py_pop, py_index.
  assert (0 < length l)%nat by (destruct l; simpl; [done|lia]).
  destruct Hi as [-> | ->]; simpl.
  - repeat case_bool_decide; try lia. simpl. destruct l; [done|]. simpl. eauto.
  - repeat case_bool_decide; try lia. simpl.
    destruct (lookup_lt_is_Some_2 l (Z.to_nat (-1 + Z.of_nat (length l)))) as [x Hx]; [lia|].
    rewrite Hx. simpl. eauto.
Qed.

End PyLists.

Section RemoveBad.
Context `{MutationSig}.
Implicit Types (σ : store) (l t a : loc) (xs ts avail : list Mutation) (allow : bool).

Lemma remove_bad_inner allow (mta : Mutation) a rest : forall kept σ,
  σ !! a = Some (kept ++ rest) ->
  (forall x, x ∈ kept -> bad allow mta x = false) ->
  for_each rest (fun am => if bad allow mta am then list_remove a am else mret tt) σ
  = (Ok tt, <[a := kept ++ filter (fun am => bad allow mta am = false) rest]> σ).
Proof.
  induction rest as [|x rest IH]; intros kept σ E K; simpl.
  - rewrite filter_nil, list_insert_id by done. done.
  - destruct (bad allow mta x) eqn:B.
    + erewrite bind_ok; last first.
      { eapply list_remove_ok; [exact E|]. apply py_remove_middle.
        intros Hin. apply K in Hin. congruence. }
      rewrite (IH kept); [|by eapply lookup_update_eq|done].
      rewrite list_insert_insert_eq. rewrite filter_cons_False by congruence. done.
    + unfold mbind at 1, M_bind, mret, M_ret.
      rewrite (IH (kept ++ [x])).
      * rewrite filter_cons_True by done. by rewrite <- app_assoc.
      * by rewrite <- app_assoc.
      * intros y [Hy | ->%list_elem_of_singleton]%elem_of_app; auto.
Qed.

Lemma filter_compatible_snoc allow ts (mta : Mutation) avail :
  filter (fun am => bad allow mta am = false) (filter (compatible allow ts) avail)
  = filter (compatible allow (ts ++ [mta])) avail.
Proof.
  induction avail as [|x avail IH]; [done|].
  rewrite !filter_cons.
  destruct (decide (compatible allow ts x)) as [F|F];
    destruct (decide (compatible allow (ts ++ [mta]) x)) as [G|G];
    unfold compatible in F, G; rewrite Forall_app, Forall_singleton in G.
  - rewrite filter_cons, decide_True by tauto. by rewrite IH.
  - rewrite filter_cons, decide_False by tauto. done.
  - tauto.
  - done.
Qed.

Lemma filter_compatible_nil allow avail : filter (compatible allow []) avail = avail.
Proof.
  induction avail as [|x avail IH]; [done|].
  rewrite filter_cons_True by apply Forall_nil_2. by rewrite IH.
Qed.

Lemma remove_bad_outer allow a (rest : list Mutation) : forall done_ avail σ,
  σ !! a = Some (filter (compatible allow done_) avail) ->
  for_each rest (fun mta =>
      copy ← read a;
      for_each copy (fun am => if bad allow mta am then list_remove a am else mret tt)) σ
  = (Ok tt, <[a := filter (compatible allow (done_ ++ rest)) avail]> σ).
Proof.
  induction rest as [|mta rest IH]; intros done_ avail σ E; simpl.
  - rewrite app_nil_r, list_insert_id; done.
  - erewrite bind_ok; last first.
    { erewrite bind_ok by (by apply read_ok).
      apply (remove_bad_inner allow mta a _ []); [exact E|].
      intros x Hx. by apply elem_of_nil in Hx. }
    simpl. rewrite filter_compatible_snoc.
    rewrite (IH (done_ ++ [mta]) avail); [|by eapply lookup_update_eq].
    by rewrite list_insert_insert_eq, <- app_assoc.
Qed.

Lemma remove_bad_mutations_ok allow σ t a ts avail :
  σ !! t = Some ts -> σ !! a = Some avail ->
  remove_bad_mutations t a allow σ
  = (Ok tt, <[a := filter (compatible allow ts) avail]> σ).
Proof.
  intros Et Ea. unfold remove_bad_mutations.
  erewrite bind_ok by (by apply read_ok).
  apply (remove_bad_outer allow a ts [] avail).
  by rewrite filter_compatible_nil.
Qed.

End RemoveBad.

Section Grouping.
Context `{MutationSig}.
Variable order : Z.
Implicit Types (σ : store) (m t a : loc) (ms ts avail : list Mutation).

Lemma try_except_ok {A} (body handler : M A) e σ v σ' :
  body σ = (Ok v, σ') -> try_except body e handler σ = (Ok v, σ').
Proof. intros E. unfold try_except. by rewrite E. Qed.

Lemma bad_refl allow (x : Mutation) : bad allow x x = true.
Proof. unfold bad. by rewrite bool_decide_true. Qed.

Lemma compatible_last allow ts x y : compatible allow (ts ++ [x]) y -> y ≠ x.
Proof.
  unfold compatible. rewrite Forall_app, Forall_singleton. intros [_ B] ->.
  by rewrite bad_refl in B.
Qed.

(** One turn of the inner loop on the contents. *)
Lemma pop_step index ms ts avail :
  avail ≠ [] -> (index = 0 \/ index = -1) -> (forall x, x ∈ avail -> x ∈ ms) ->
  exists x avail' ms',
    py_pop index avail = Some (x, avail') /\ py_remove x ms = Some ms'
    /\ avail ≡ₚ x :: avail' /\ ms ≡ₚ x :: ms'
    /\ (forall y, y ∈ filter (compatible true (ts ++ [x])) avail' -> y ∈ ms').
Proof.
  intros Ha Hi Hsub.
  destruct (py_pop_ends index avail Ha Hi) as (x & avail' & P).
  pose proof (py_pop_Permutation _ _ _ _ P) as Pa.
  assert (x ∈ ms) as Hx by (apply Hsub; rewrite Pa; left).
  destruct (py_remove_Some x ms Hx) as (ms' & R & Pm).
  exists x, avail', ms'. repeat split; try done.
  intros y [Hc Hy]%list_elem_of_filter.
  eapply py_remove_other; [exact R| by eapply compatible_last |].
  apply Hsub. rewrite Pa. by right.
Qed.

Lemma toggle_ends index : (index = 0 \/ index = -1) -> alternate index = 0 \/ alternate index = -1.
Proof. unfold alternate. case_bool_decide; auto. Qed.

Lemma FirstToLast_group_loop_ok fuel : forall σ m t a ms ts avail index,
  m ≠ t -> m ≠ a -> t ≠ a -> cells σ m ms t ts a avail ->
  (index = 0 \/ index = -1) -> (length avail <= fuel)%nat ->
  (forall x, x ∈ avail -> x ∈ ms) ->
  exists σ', FirstToLastHOMStrategy.group_loop order fuel m t a index σ = (Ok tt, σ')
    /\ (let '(ms', ts', avail') := grouping order alternate fuel ms ts avail index in
        cells σ' m ms' t ts' a avail')
    /\ same_elsewhere σ σ' m t a.
Proof.
  induction fuel as [|fuel IH]; intros σ m t a ms ts avail index Hmt Hma Hta (Em & Et & Ea) Hi Hf Hsub.
  - destruct avail; [|simpl in Hf; lia].
    exists σ. simpl.
    erewrite bind_ok by (by eapply list_len_ok).
    erewrite bind_ok by (by eapply list_len_ok).
    simpl. rewrite andb_false_r. repeat split; done.
  - simpl.
    erewrite bind_ok by (by eapply list_len_ok).
    erewrite bind_ok by (by eapply list_len_ok).
    destruct (bool_decide (Z.of_nat (length ts) < order) && bool_decide (length avail ≠ 0%nat)) eqn:Hc;
      [|exists σ; repeat split; done].
    apply andb_true_iff in Hc as [_ Hne%bool_decide_eq_true].
    assert (avail ≠ []) as Ha by (by destruct avail).
    destruct (pop_step index ms ts avail Ha Hi Hsub) as (x & avail' & ms' & P & R & Pa & Pm & Hsub').
    rewrite P, R.
    set (σ1 := <[a:=avail']> σ).
    set (σ2 := <[t:=ts ++ [x]]> σ1).
    set (σ3 := <[m:=ms']> σ2).
    set (σ4 := <[a:=filter (compatible true (ts ++ [x])) avail']> σ3).
    assert (σ1 !! t = Some ts) as Et1 by (subst σ1; by rewrite list_lookup_insert_ne).
    assert (σ2 !! m = Some ms) as Em2
      by (subst σ2 σ1; by rewrite !list_lookup_insert_ne by done).
    assert (σ3 !! t = Some (ts ++ [x])) as Et3.
    { subst σ3. rewrite list_lookup_insert_ne by done. by eapply lookup_update_eq. }
    assert (σ3 !! a = Some avail') as Ea3.
    { subst σ3 σ2. rewrite !list_lookup_insert_ne by done. by eapply lookup_update_eq. }
    erewrite bind_ok; last first.
    { apply try_except_ok.
      erewrite bind_ok by (eapply list_pop_ok; [exact Ea|exact P]).
      erewrite bind_ok by (eapply list_append_ok; exact Et1).
      erewrite bind_ok by (eapply list_remove_ok; [exact Em2|exact R]).
      reflexivity. }
    cbv beta iota.
    erewrite bind_ok by (eapply remove_bad_mutations_ok; [exact Et3|exact Ea3]).
    fold σ1 σ2 σ3 σ4.
    destruct (IH σ4 m t a ms' (ts ++ [x]) (filter (compatible true (ts ++ [x])) avail')
                (alternate index)) as (σ' & E & Hcells & Hlen & Hsame); try done.
    + subst σ4. repeat split.
      * rewrite list_lookup_insert_ne by done. by eapply lookup_update_eq.
      * by rewrite list_lookup_insert_ne.
      * by eapply lookup_update_eq.
    + by apply toggle_ends.
    + pose proof (length_filter (compatible true (ts ++ [x])) avail').
      apply Permutation_length in Pa. simpl in Pa. lia.
    + exists σ'. split; [exact E|]. split; [exact Hcells|].
      split.
      * rewrite Hlen. subst σ4 σ3 σ2 σ1. by rewrite !length_insert.
      * intros l ? ? ?. rewrite Hsame by done.
        subst σ4 σ3 σ2 σ1. by rewrite !list_lookup_insert_ne by done.
Qed.

End Grouping.

Section Sim.
Context `{MutationSig}.
Variable order : Z.
Implicit Types (σ : store) (m t a : loc) (ms ts avail : list Mutation).

Lemma EachChoice_group_loop_ok fuel : forall σ m t a ms ts avail,
  m ≠ t -> m ≠ a -> t ≠ a -> cells σ m ms t ts a avail ->
  (length avail <= fuel)%nat ->
  (forall x, x ∈ avail -> x ∈ ms) ->
  exists σ', EachChoiceHOMStrategy.group_loop order fuel m t a σ = (Ok tt, σ')
    /\ (let '(ms', ts', avail') := grouping order front fuel ms ts avail 0 in
        cells σ' m ms' t ts' a avail')
    /\ same_elsewhere σ σ' m t a.
Proof.
  induction fuel as [|fuel IH]; intros σ m t a ms ts avail Hmt Hma Hta (Em & Et & Ea) Hf Hsub.
  - destruct avail; [|simpl in Hf; lia].
    exists σ. simpl.
    erewrite bind_ok by (by eapply list_len_ok).
    erewrite bind_ok by (by eapply list_len_ok).
    simpl. rewrite andb_false_r. repeat split; done.
  - simpl.
    erewrite bind_ok by (by eapply list_len_ok).
    erewrite bind_ok by (by eapply list_len_ok).
    destruct (bool_decide (Z.of_nat (length ts) < order) && bool_decide (length avail ≠ 0%nat)) eqn:Hc;
      [|exists σ; repeat split; done].
    apply andb_true_iff in Hc as [_ Hne%bool_decide_eq_true].
    assert (avail ≠ []) as Ha by (by destruct avail).
    destruct (pop_step 0 ms ts avail Ha (or_introl eq_refl) Hsub)
      as (x & avail' & ms' & P & R & Pa & Pm & Hsub').
    rewrite P, R.
    set (σ1 := <[a:=avail']> σ).
    set (σ2 := <[t:=ts ++ [x]]> σ1).
    set (σ3 := <[m:=ms']> σ2).
    set (σ4 := <[a:=filter (compatible true (ts ++ [x])) avail']> σ3).
    assert (σ1 !! t = Some ts) as Et1 by (subst σ1; by rewrite list_lookup_insert_ne).
    assert (σ2 !! m = Some ms) as Em2
      by (subst σ2 σ1; by rewrite !list_lookup_insert_ne by done).
    assert (σ3 !! t = Some (ts ++ [x])) as Et3.
    { subst σ3. rewrite list_lookup_insert_ne by done. by eapply lookup_update_eq. }
    assert (σ3 !! a = Some avail') as Ea3.
    { subst σ3 σ2. rewrite !list_lookup_insert_ne by done. by eapply lookup_update_eq. }
    erewrite bind_ok; last first.
    { apply try_except_ok.
      erewrite bind_ok by (eapply list_pop_ok; [exact Ea|exact P]).
      erewrite bind_ok by (eapply list_append_ok; exact Et1).
      erewrite bind_ok by (eapply list_remove_ok; [exact Em2|exact R]).
      reflexivity. }
    cbv beta iota.
    erewrite bind_ok by (eapply remove_bad_mutations_ok; [exact Et3|exact Ea3]).
    fold σ1 σ2 σ3 σ4.
    destruct (IH σ4 m t a ms' (ts ++ [x]) (filter (compatible true (ts ++ [x])) avail'))
      as (σ' & E & Hcells & Hlen & Hsame); try done.
    + subst σ4. repeat split.
      * rewrite list_lookup_insert_ne by done. by eapply lookup_update_eq.
      * by rewrite list_lookup_insert_ne.
      * by eapply lookup_update_eq.
    + pose proof (length_filter (compatible true (ts ++ [x])) avail').
      apply Permutation_length in Pa. simpl in Pa. lia.
    + exists σ'. split; [exact E|]. split; [exact Hcells|].
      split.
      * rewrite Hlen. subst σ4 σ3 σ2 σ1. by rewrite !length_insert.
      * intros l ? ? ?. rewrite Hsame by done.
        subst σ4 σ3 σ2 σ1. by rewrite !list_lookup_insert_ne by done.
Qed.

Lemma FirstToLast_resume_ok σ m ms :
  σ !! m = Some ms ->
  match ms with
  | [] => FirstToLastHOMStrategy.resume order m σ = (Ok (Returned m), σ)
  | _ :: _ =>
    exists σ', FirstToLastHOMStrategy.resume order m σ
               = (Ok (Yielded (length σ) (Suspended m)), σ')
      /\ σ' !! m = Some (fst (group_step order alternate ms))
      /\ σ' !! length σ = Some (snd (group_step order alternate ms))
      /\ (length σ <= length σ')%nat
      /\ forall l : loc, (l < length σ)%nat -> l ≠ m -> σ' !! l = σ !! l
  end.
Proof.
  intros Em.
  destruct ms as [|x0 ms0].
  { unfold FirstToLastHOMStrategy.resume.
    erewrite bind_ok by (by eapply list_len_ok). done. }
  remember (FirstToLastHOMStrategy.resume order m σ) as r eqn:Hr.
  unfold FirstToLastHOMStrategy.resume in Hr.
  rewrite (bind_ok _ _ _ _ _ (list_len_ok _ _ _ Em)) in Hr.
  set (ms := x0 :: ms0) in *.
  rewrite bool_decide_true in Hr by done.
  pose proof (lookup_lt_Some _ _ _ Em) as Hm.
  erewrite bind_ok in Hr by reflexivity.
  set (σ1 := σ ++ [[]]) in *.
  assert (σ1 !! m = Some ms) as Em1 by (subst σ1; by rewrite lookup_app_l).
  erewrite bind_ok in Hr by (by eapply list_copy_ok).
  set (σ2 := σ1 ++ [ms]) in *.
  assert (length σ1 = S (length σ)) as L1 by (subst σ1; rewrite length_app; simpl; lia).
  assert (cells σ2 m ms (length σ) [] (length σ1) ms) as Hc.
  { subst σ2. repeat split.
    - rewrite lookup_app_l by lia. done.
    - rewrite lookup_app_l by lia. subst σ1. apply lookup_alloc_new.
    - apply lookup_alloc_new. }
  erewrite bind_ok in Hr by (eapply list_len_ok; apply Hc).
  destruct (FirstToLast_group_loop_ok order (length ms) σ2 m (length σ) (length σ1) ms [] ms 0
              ltac:(lia) ltac:(lia) ltac:(lia) Hc (or_introl eq_refl) (le_n _)
              (fun x Hx => Hx))
    as (σ' & E & Hcells & Hlen & Hsame).
  erewrite bind_ok in Hr by exact E.
  exists σ'. split; [done|].
  unfold group_step.
  destruct (grouping order alternate (length ms) ms [] ms 0) as [[ms' ts'] avail'].
  destruct Hcells as (Em' & Et' & Ea'). simpl.
  repeat split; try done.
  - rewrite Hlen. subst σ2. rewrite length_app. lia.
  - intros l Hl Hlm. rewrite Hsame by lia.
    subst σ2 σ1. by rewrite !lookup_app_l by (rewrite ?length_app; simpl; lia).
Qed.

End Sim.

Section Sim2.
Context `{MutationSig}.
Variable order : Z.
Implicit Types (σ : store) (m t a : loc) (ms ts avail : list Mutation).

Lemma EachChoice_resume_ok σ m ms :
  σ !! m = Some ms ->
  match ms with
  | [] => EachChoiceHOMStrategy.resume order m σ = (Ok (Returned m), σ)
  | _ :: _ =>
    exists σ', EachChoiceHOMStrategy.resume order m σ
               = (Ok (Yielded (length σ) (Suspended m)), σ')
      /\ σ' !! m = Some (fst (group_step order front ms))
      /\ σ' !! length σ = Some (snd (group_step order front ms))
      /\ (length σ <= length σ')%nat
      /\ forall l : loc, (l < length σ)%nat -> l ≠ m -> σ' !! l = σ !! l
  end.
Proof.
  intros Em.
  destruct ms as [|x0 ms0].
  { unfold EachChoiceHOMStrategy.resume.
    erewrite bind_ok by (by eapply list_len_ok). done. }
  remember (EachChoiceHOMStrategy.resume order m σ) as r eqn:Hr.
  unfold EachChoiceHOMStrategy.resume in Hr.
  erewrite bind_ok in Hr by (by eapply list_len_ok).
  set (ms := x0 :: ms0) in *.
  rewrite bool_decide_true in Hr by done.
  pose proof (lookup_lt_Some _ _ _ Em) as Hm.
  erewrite bind_ok in Hr by reflexivity.
  set (σ1 := σ ++ [[]]) in *.
  assert (σ1 !! m = Some ms) as Em1 by (subst σ1; by rewrite lookup_app_l).
  erewrite bind_ok in Hr by (by eapply list_copy_ok).
  set (σ2 := σ1 ++ [ms]) in *.
  assert (length σ1 = S (length σ)) as L1 by (subst σ1; rewrite length_app; simpl; lia).
  assert (cells σ2 m ms (length σ) [] (length σ1) ms) as Hc.
  { subst σ2. repeat split.
    - rewrite lookup_app_l by lia. done.
    - rewrite lookup_app_l by lia. subst σ1. apply lookup_alloc_new.
    - apply lookup_alloc_new. }
  erewrite bind_ok in Hr by (eapply list_len_ok; apply Hc).
  destruct (EachChoice_group_loop_ok order (length ms) σ2 m (length σ) (length σ1) ms [] ms
              ltac:(lia) ltac:(lia) ltac:(lia) Hc (le_n _) (fun x Hx => Hx))
    as (σ' & E & Hcells & Hlen & Hsame).
  erewrite bind_ok in Hr by exact E.
  exists σ'. split; [done|].
  unfold group_step.
  destruct (grouping order front (length ms) ms [] ms 0) as [[ms' ts'] avail'].
  destruct Hcells as (Em' & Et' & Ea'). simpl.
  repeat split; try done.
  - rewrite Hlen. subst σ2. rewrite length_app. lia.
  - intros l Hl Hlm. rewrite Hsame by lia.
    subst σ2 σ1. by rewrite !lookup_app_l by (rewrite ?length_app; simpl; lia).
Qed.

Lemma consume_suspended next toggle (Hnext : steps_like order next toggle) n :
  forall σ m ms, σ !! m = Some ms ->
  let c := consume next n (Suspended m) σ in
  groups c = fst (run_groups order toggle n ms)
  /\ ended c = snd (run_groups order toggle n ms)
  /\ (length σ <= length (final_store c))%nat
  /\ forall l : loc, (l < length σ)%nat -> l ≠ m -> final_store c !! l = σ !! l.
Proof.
  induction n as [|n IH]; intros σ m ms Em; simpl.
  - done.
  - pose proof (Hnext σ m ms Em) as Hs.
    destruct ms as [|x0 ms0].
    + rewrite Hs. simpl. done.
    + destruct Hs as (σ' & -> & Em' & Eg & Hlen & Hsame).
      rewrite Eg.
      destruct (group_step order toggle (x0 :: ms0)) as [ms' g] eqn:Egs.
      simpl in Em', Eg.
      destruct (IH σ' m ms' Em') as (Hg & He & Hl & Hs').
      destruct (run_groups order toggle n ms') as [gs e]. simpl in *.
      repeat split.
      * by rewrite Hg.
      * done.
      * lia.
      * intros l ? ?. rewrite Hs' by lia. by apply Hsame.
Qed.

Lemma FirstToLast_steps_like : steps_like order (FirstToLastHOMStrategy.next order) alternate.
Proof. intros σ m ms Em. by apply FirstToLast_resume_ok. Qed.

Lemma EachChoice_steps_like : steps_like order (EachChoiceHOMStrategy.next order) front.
Proof. intros σ m ms Em. by apply EachChoice_resume_ok. Qed.

Lemma Random_steps_like sh : steps_like order (RandomHOMStrategy.next order sh) front.
Proof. intros σ m ms Em. by apply EachChoice_resume_ok. Qed.

Lemma consume_created next toggle (Hnext : steps_like order next toggle) n σ σ1 l0 ms :
  next (Created l0) σ = next (Suspended (length σ)) σ1 ->
  length σ1 = S (length σ) -> σ1 !! length σ = Some ms ->
  (forall l : loc, (l < length σ)%nat -> σ1 !! l = σ !! l) ->
  sees order (consume next n (Created l0) σ) n toggle ms σ.
Proof.
  intros Hn Hlen Em Hold.
  destruct n as [|n]; [done|].
  assert (consume next (S n) (Created l0) σ = consume next (S n) (Suspended (length σ)) σ1)
    as -> by (simpl; by rewrite Hn).
  destruct (consume_suspended next toggle Hnext (S n) σ1 (length σ) ms Em)
    as (Hg & He & Hl & Hs).
  repeat split; try done.
  intros l Hlt. rewrite Hs by lia. by apply Hold.
Qed.

Lemma FirstToLast_sees n σ l0 ms :
  σ !! l0 = Some ms ->
  sees order (consume (FirstToLastHOMStrategy.next order) n (FirstToLastHOMStrategy.generate l0) σ)
       n alternate ms σ.
Proof.
  intros E. apply consume_created with (σ ++ [ms]).
  - apply FirstToLast_steps_like.
  - simpl. by erewrite bind_ok by (by eapply list_copy_ok).
  - rewrite length_app. simpl. lia.
  - apply lookup_alloc_new.
  - intros. by apply lookup_app_l.
Qed.

Lemma EachChoice_sees n σ l0 ms :
  σ !! l0 = Some ms ->
  sees order (consume (EachChoiceHOMStrategy.next order) n (EachChoiceHOMStrategy.generate l0) σ)
       n front ms σ.
Proof.
  intros E. apply consume_created with (σ ++ [ms]).
  - apply EachChoice_steps_like.
  - simpl. by erewrite bind_ok by (by eapply list_copy_ok).
  - rewrite length_app. simpl. lia.
  - apply lookup_alloc_new.
  - intros. by apply lookup_app_l.
Qed.

Lemma Random_sees sh n σ l0 ms :
  σ !! l0 = Some ms ->
  sees order (consume (RandomHOMStrategy.next order sh) n (RandomHOMStrategy.generate l0) σ)
       n front (sh ms) σ.
Proof.
  intros E. apply consume_created with (<[length σ := sh ms]> (σ ++ [ms])).
  - apply Random_steps_like.
  - simpl. erewrite bind_ok by (by eapply list_copy_ok).
    erewrite bind_ok by (apply read_ok, lookup_alloc_new).
    erewrite bind_ok by (eapply write_ok, lookup_alloc_new). done.
  - rewrite length_insert, length_app. simpl. lia.
  - eapply lookup_update_eq, lookup_alloc_new.
  - intros. rewrite list_lookup_insert_ne by lia. by apply lookup_app_l.
Qed.

End Sim2.

Section Pure.
Context `{MutationSig}.
Variable order : Z.
Implicit Types (ms ts avail g : list Mutation) (x y : Mutation).

Lemma bad_false_conflict allow x y : bad allow x y = false -> ~ conflict x y.
Proof.
  unfold bad, conflict. rewrite !orb_false_iff, !bool_decide_eq_false. tauto.
Qed.

Lemma conflict_sym x y : conflict x y -> conflict y x.
Proof. unfold conflict. intuition. Qed.

Lemma non_conflicting_nil : non_conflicting [].
Proof. intros i j x y _ Hi. by rewrite lookup_nil in Hi. Qed.

Lemma non_conflicting_snoc ts x :
  non_conflicting ts -> (forall u, u ∈ ts -> ~ conflict u x) -> non_conflicting (ts ++ [x]).
Proof.
  intros Hts Hx i j a b Hij Hi Hj.
  apply lookup_snoc_Some in Hi as [[Hil Hi] | [-> ->]];
    apply lookup_snoc_Some in Hj as [[Hjl Hj] | [-> ->]].
  - by eapply Hts.
  - apply Hx. by eapply list_elem_of_lookup_2.
  - intros Hc%conflict_sym. revert Hc. apply Hx. by eapply list_elem_of_lookup_2.
  - done.
Qed.

Lemma py_remove_Permutation x ms ms' : py_remove x ms = Some ms' -> ms ≡ₚ x :: ms'.
Proof.
  revert ms'. induction ms as [|z ms IH]; intros ms'; simpl; [done|].
  destruct (decide (z = x)) as [->|Hne]; [by intros [= <-]|].
  destruct (py_remove x ms) as [l|]; simpl; [|done].
  intros [= <-]. rewrite (IH l eq_refl). apply Permutation_swap.
Qed.

Lemma grouping_non_conflicting toggle fuel : forall ms ts avail index,
  non_conflicting ts -> (forall y, y ∈ avail -> compatible true ts y) ->
  non_conflicting (snd (fst (grouping order toggle fuel ms ts avail index))).
Proof.
  induction fuel as [|fuel IH]; intros ms ts avail index Hts Hav; simpl.
  - by destruct (_ && _).
  - destruct (_ && _); [|done].
    destruct (py_pop index avail) as [[x avail']|] eqn:P; [|done].
    destruct (py_remove x ms) as [ms'|]; [|done].
    apply IH.
    + apply non_conflicting_snoc; [done|].
      intros u Hu. apply (bad_false_conflict true).
      assert (x ∈ avail) as Hx by (rewrite (py_pop_Permutation _ _ _ _ P); left).
      apply Hav in Hx. unfold compatible in Hx. rewrite Forall_forall in Hx. by apply Hx.
    + by intros y [Hc _]%list_elem_of_filter.
Qed.

Lemma grouping_Permutation toggle fuel : forall ms ts avail index,
  match grouping order toggle fuel ms ts avail index with
  | (ms', ts', _) => ts' ++ ms' ≡ₚ ts ++ ms
  end.
Proof.
  induction fuel as [|fuel IH]; intros ms ts avail index; simpl.
  - by destruct (_ && _).
  - destruct (_ && _); [|done].
    destruct (py_pop index avail) as [[x avail']|] eqn:P; [|done].
    destruct (py_remove x ms) as [ms'|] eqn:R; [|done].
    specialize (IH ms' (ts ++ [x]) (filter (compatible true (ts ++ [x])) avail') (toggle index)).
    destruct (grouping _ _ _ _ _ _ _) as [[ms'' ts''] ?].
    rewrite IH, (py_remove_Permutation _ _ _ R), <- app_assoc. done.
Qed.

Lemma grouping_length toggle fuel : forall ms ts avail index,
  (length ts <= length (snd (fst (grouping order toggle fuel ms ts avail index))))%nat.
Proof.
  induction fuel as [|fuel IH]; intros ms ts avail index; simpl.
  - by destruct (_ && _).
  - destruct (_ && _); [|done].
    destruct (py_pop index avail) as [[x avail']|] eqn:P; [|done].
    destruct (py_remove x ms) as [ms'|] eqn:R; [|done].
    etrans; [|apply IH]. rewrite length_app. simpl. lia.
Qed.

Lemma group_step_Permutation toggle ms :
  snd (group_step order toggle ms) ++ fst (group_step order toggle ms) ≡ₚ ms.
Proof.
  unfold group_step.
  pose proof (grouping_Permutation toggle (length ms) ms [] ms 0) as P.
  destruct (grouping _ _ _ _ _ _ _) as [[ms' ts'] ?]. done.
Qed.

Lemma group_step_non_conflicting toggle ms :
  non_conflicting (snd (group_step order toggle ms)).
Proof.
  unfold group_step.
  pose proof (grouping_non_conflicting toggle (length ms) ms [] ms 0 non_conflicting_nil) as P.
  destruct (grouping _ _ _ _ _ _ _) as [[ms' ts'] ?]. simpl in *.
  apply P. intros y _. apply Forall_nil_2.
Qed.

Lemma grouping_S toggle fuel ms ts avail index :
  grouping order toggle (S fuel) ms ts avail index
  = if bool_decide (Z.of_nat (length ts) < order) && bool_decide (length avail ≠ 0%nat) then
      match py_pop index avail with
      | Some (x, avail') =>
        match py_remove x ms with
        | Some ms' =>
          grouping order toggle fuel ms' (ts ++ [x])
                   (filter (compatible true (ts ++ [x])) avail') (toggle index)
        | None => (ms, ts, avail)
        end
      | None => (ms, ts, avail)
      end
    else (ms, ts, avail).
Proof. reflexivity. Qed.

Lemma group_step_progress toggle ms :
  0 < order -> ms ≠ [] -> snd (group_step order toggle ms) ≠ [].
Proof.
  intros Ho Hms. unfold group_step.
  destruct (pop_step 0 ms [] ms Hms (or_introl eq_refl) (fun x Hx => Hx))
    as (x & avail' & ms' & P & R & _).
  destruct ms as [|x0 ms0]; [done|]. set (ms := x0 :: ms0) in *.
  change (length ms) with (S (length ms0)).
  rewrite grouping_S, P, R.
  rewrite !bool_decide_true by (simpl; lia). cbv beta iota. simpl andb. cbv iota.
  pose proof (grouping_length toggle (length ms0) ms' ([] ++ [x])
                (filter (compatible true ([] ++ [x])) avail') (toggle 0)) as L.
  destruct (grouping _ _ _ _ _ _ _) as [[ms'' ts''] ?]. simpl in *.
  intros ->. simpl in L. lia.
Qed.

Lemma run_groups_non_conflicting toggle n : forall ms g,
  g ∈ fst (run_groups order toggle n ms) -> non_conflicting g.
Proof.
  induction n as [|n IH]; intros ms g; simpl; [by intros ?%elem_of_nil|].
  destruct ms as [|x0 ms0]; [by intros ?%elem_of_nil|].
  pose proof (group_step_non_conflicting toggle (x0 :: ms0)) as Hg.
  destruct (group_step order toggle (x0 :: ms0)) as [ms' g'].
  specialize (IH ms' g).
  destruct (run_groups order toggle n ms') as [gs e]. simpl in *.
  intros [-> | Hin]%elem_of_cons; auto.
Qed.

Lemma run_groups_exhausts toggle n : forall ms,
  0 < order -> (length ms < n)%nat ->
  snd (run_groups order toggle n ms) = Exhausted
  /\ concat (fst (run_groups order toggle n ms)) ≡ₚ ms.
Proof.
  induction n as [|n IH]; intros ms Ho Hn; [lia|]. simpl.
  destruct ms as [|x0 ms0]; [done|].
  pose proof (group_step_Permutation toggle (x0 :: ms0)) as Hp.
  pose proof (group_step_progress toggle (x0 :: ms0) Ho ltac:(done)) as Hg.
  destruct (group_step order toggle (x0 :: ms0)) as [ms' g']. simpl in *.
  assert (length ms' < n)%nat as Hlt.
  { apply Permutation_length in Hp. rewrite length_app in Hp. simpl in Hp.
    destruct g'; [done|]. simpl in Hp. lia. }
  destruct (IH ms' Ho Hlt) as [He Hc].
  destruct (run_groups order toggle n ms') as [gs e]. simpl in *.
  split; [done|]. by rewrite Hc.
Qed.

End Pure.

Section BO.
Context `{MutationSig}.
Variable order : Z.
Implicit Types (σ : store) (k t a : loc) (muts nu ts avail : list Mutation)
  (usage : gmap Mutation Z).

Lemma dict_get_ok usage x u σ : usage !! x = Some u -> dict_get usage x σ = (Ok u, σ).
Proof. intros E. unfold dict_get. by rewrite E. Qed.

Lemma counted_step muts usage nu x u nu' :
  counted muts usage nu -> usage !! x = Some u ->
  (if bool_decide (u = 0) then py_remove x nu else Some nu) = Some nu' ->
  counted muts (<[x := u + 1]> usage) nu'.
Proof.
  intros Hc Hu Hr y Hy. destruct (Hc y Hy) as (v & Hv & Hv0 & Hvn).
  destruct (decide (y = x)) as [->|Hne].
  - rewrite lookup_insert_eq. exists (u + 1). rewrite Hu in Hv. injection Hv as ->.
    repeat split; [lia|lia].
  - rewrite lookup_insert_ne by done. exists v. repeat split; try done.
    intros Hz. specialize (Hvn Hz). case_bool_decide.
    + by eapply py_remove_other.
    + by injection Hr as <-.
Qed.

Lemma BetweenOperators_group_loop_ok muts fuel : forall σ k t a usage nu ts avail,
  k ≠ t -> k ≠ a -> t ≠ a -> cells σ k nu t ts a avail ->
  (length avail <= fuel)%nat ->
  counted muts usage nu -> (forall x, x ∈ avail -> x ∈ muts) ->
  exists σ',
    (let '(usage', nu', ts', avail') := bo_grouping order fuel usage nu ts avail in
     BetweenOperatorsHOMStrategy.group_loop order fuel usage k t a σ = (Ok usage', σ')
     /\ cells σ' k nu' t ts' a avail')
    /\ same_elsewhere σ σ' k t a.
Proof.
  induction fuel as [|fuel IH]; intros σ k t a usage nu ts avail Hkt Hka Hta (Ek & Et & Ea) Hf Hc Hsub.
  - destruct avail; [|simpl in Hf; lia].
    exists σ. simpl.
    erewrite bind_ok by (by eapply list_len_ok).
    erewrite bind_ok by (by eapply list_len_ok).
    simpl. rewrite andb_false_r. repeat split; done.
  - simpl.
    erewrite bind_ok by (by eapply list_len_ok).
    erewrite bind_ok by (by eapply list_len_ok).
    destruct (bool_decide (Z.of_nat (length ts) < order) && bool_decide (length avail ≠ 0%nat)) eqn:Hcond;
      [|exists σ; repeat split; done].
    destruct avail as [|x avail'];
      [apply andb_true_iff in Hcond as [_ Hne%bool_decide_eq_true]; by destruct Hne|].
    destruct (Hc x) as (u & Hu & Hu0 & Hun); [apply Hsub; left|].
    rewrite Hu.
    assert (exists nu', (if bool_decide (u = 0) then py_remove x nu else Some nu) = Some nu')
      as (nu' & Hr).
    { destruct (decide (u = 0)) as [Hz|Hz].
      - rewrite bool_decide_true by done.
        destruct (py_remove_Some x nu) as (nu' & ? & _); [by apply Hun|eauto].
      - rewrite bool_decide_false by done. eauto. }
    rewrite Hr.
    set (σ1 := <[a:=avail']> σ).
    set (σ2 := <[t:=ts ++ [x]]> σ1).
    set (σ3 := <[k:=nu']> σ2).
    set (σ4 := <[a:=filter (compatible false (ts ++ [x])) avail']> σ3).
    assert (σ1 !! t = Some ts) as Et1 by (subst σ1; by rewrite list_lookup_insert_ne).
    assert (σ2 !! k = Some nu) as Ek2
      by (subst σ2 σ1; by rewrite !list_lookup_insert_ne by done).
    assert (σ3 !! t = Some (ts ++ [x])) as Et3.
    { subst σ3. rewrite list_lookup_insert_ne by done. by eapply lookup_update_eq. }
    assert (σ3 !! a = Some avail') as Ea3.
    { subst σ3 σ2. rewrite !list_lookup_insert_ne by done. by eapply lookup_update_eq. }
    erewrite bind_ok by (eapply list_pop_ok; [exact Ea|apply py_pop_front]).
    erewrite bind_ok by (eapply list_append_ok; exact Et1).
    erewrite bind_ok by (by apply dict_get_ok).
    erewrite (bind_ok _ _ σ2 tt σ3); last first.
    { subst σ3. destruct (decide (u = 0)) as [Hz|Hz].
      - rewrite bool_decide_true in Hr |- * by done.
        eapply list_remove_ok; [exact Ek2|exact Hr].
      - rewrite bool_decide_false in Hr |- * by done.
        injection Hr as <-. by rewrite list_insert_id. }
    erewrite bind_ok by (by apply dict_get_ok).
    cbv zeta.
    erewrite bind_ok by (eapply remove_bad_mutations_ok; [exact Et3|exact Ea3]).
    fold σ1 σ2 σ3 σ4.
    destruct (IH σ4 k t a (<[x := u + 1]> usage) nu' (ts ++ [x])
                (filter (compatible false (ts ++ [x])) avail'))
      as (σ' & Hres & Hlen & Hsame); try done.
    + subst σ4. repeat split.
      * rewrite list_lookup_insert_ne by done. by eapply lookup_update_eq.
      * by rewrite list_lookup_insert_ne.
      * by eapply lookup_update_eq.
    + pose proof (length_filter (compatible false (ts ++ [x])) avail').
      simpl in Hf. lia.
    + by eapply counted_step.
    + intros y [_ Hy]%list_elem_of_filter. apply Hsub. by right.
    + exists σ'. split; [exact Hres|].
      split.
      * rewrite Hlen. subst σ4 σ3 σ2 σ1. by rewrite !length_insert.
      * intros l ? ? ?. rewrite Hsame by done.
        subst σ4 σ3 σ2 σ1. by rewrite !list_lookup_insert_ne by done.
Qed.

End BO.

Section SortFacts.
Context {A : Type} (key : A -> Z).

Lemma insert_by_Permutation x (l : list A) : insert_by key x l ≡ₚ x :: l.
Proof.
  induction l as [|y l IH]; simpl; [done|].
  case_bool_decide; [done|]. rewrite IH. apply Permutation_swap.
Qed.

Lemma py_sort_by_Permutation (l : list A) : py_sort_by key l ≡ₚ l.
Proof.
  induction l as [|x l IH]; simpl; [done|].
  unfold py_sort_by in *. simpl. by rewrite insert_by_Permutation, IH.
Qed.

Lemma insert_by_head_least x (l : list A) :
  head_least key l -> head_least key (insert_by key x l).
Proof.
  destruct l as [|y l]; simpl.
  - intros _. by repeat constructor.
  - intros Hy. case_bool_decide as Hxy.
    + constructor; [lia|]. eapply Forall_impl; [exact Hy|]. simpl. intros; lia.
    + pose proof (insert_by_Permutation x l) as P.
      inversion Hy as [|? ? Hyy Hl]; subst.
      constructor; [done|]. rewrite P. constructor; [lia|done].
Qed.

Lemma py_sort_by_head_least (l : list A) : head_least key (py_sort_by key l).
Proof.
  induction l as [|x l IH]; simpl; [done|].
  by apply insert_by_head_least.
Qed.

End SortFacts.

Section BO2.
Context `{MutationSig}.
Variable order : Z.
Implicit Types (σ : store) (k t a : loc) (muts nu ts avail : list Mutation)
  (usage : gmap Mutation Z).

Lemma bo_grouping_counted muts fuel : forall usage nu ts avail,
  counted muts usage nu -> (forall x, x ∈ avail -> x ∈ muts) ->
  match bo_grouping order fuel usage nu ts avail with
  | (usage', nu', _, _) => counted muts usage' nu'
  end.
Proof.
  induction fuel as [|fuel IH]; intros usage nu ts avail Hc Hsub; simpl.
  - by destruct (_ && _).
  - destruct (_ && _); [|done].
    destruct avail as [|x avail']; [done|].
    destruct (usage !! x) as [u|] eqn:Hu; [|done].
    destruct (if bool_decide (u = 0) then py_remove x nu else Some nu) as [nu'|] eqn:Hr; [|done].
    apply IH.
    + by eapply counted_step.
    + intros y [_ Hy]%list_elem_of_filter. apply Hsub. by right.
Qed.

Lemma bo_step_counted muts usage nu :
  counted muts usage nu ->
  match bo_step order usage nu muts with (usage', nu', _) => counted muts usage' nu' end.
Proof.
  intros Hc. unfold bo_step.
  pose proof (bo_grouping_counted muts (length (py_sort_by (usage_key usage) muts))
                usage nu [] (py_sort_by (usage_key usage) muts) Hc) as P.
  destruct (bo_grouping _ _ _ _ _ _) as [[[usage' nu'] ts'] ?].
  apply P. intros x Hx. by rewrite py_sort_by_Permutation in Hx.
Qed.

Lemma BetweenOperators_resume_ok σ l0 k muts usage nu :
  σ !! l0 = Some muts -> σ !! k = Some nu -> l0 ≠ k -> counted muts usage nu ->
  let l := BetweenOperatorsHOMStrategy.mkLocals l0 usage k in
  match nu with
  | [] => BetweenOperatorsHOMStrategy.resume order l σ = (Ok (Returned l), σ)
  | _ :: _ =>
    let '(usage', nu', g) := bo_step order usage nu muts in
    exists σ',
      BetweenOperatorsHOMStrategy.resume order l σ
      = (Ok (Yielded (length σ)
               (Suspended (BetweenOperatorsHOMStrategy.mkLocals l0 usage' k))), σ')
      /\ σ' !! k = Some nu'
      /\ σ' !! length σ = Some g
      /\ (length σ <= length σ')%nat
      /\ forall l : loc, (l < length σ)%nat -> l ≠ k -> σ' !! l = σ !! l
  end.
Proof.
  intros E0 Ek Hne Hc l.
  destruct nu as [|y0 nu0].
  { unfold BetweenOperatorsHOMStrategy.resume. simpl.
    erewrite bind_ok by (by eapply list_len_ok). done. }
  remember (BetweenOperatorsHOMStrategy.resume order l σ) as r eqn:Hr.
  unfold BetweenOperatorsHOMStrategy.resume in Hr. simpl in Hr.
  erewrite bind_ok in Hr by (by eapply list_len_ok).
  set (nu := y0 :: nu0) in *.
  rewrite bool_decide_true in Hr by done.
  pose proof (lookup_lt_Some _ _ _ E0) as H0.
  pose proof (lookup_lt_Some _ _ _ Ek) as Hk.
  erewrite bind_ok in Hr by reflexivity.
  set (σ1 := σ ++ [[]]) in *.
  assert (σ1 !! l0 = Some muts) as E01 by (subst σ1; by rewrite lookup_app_l).
  erewrite bind_ok in Hr by (by eapply list_copy_ok).
  set (σ2 := σ1 ++ [muts]) in *.
  assert (length σ1 = S (length σ)) as L1 by (subst σ1; rewrite length_app; simpl; lia).
  assert (σ2 !! length σ1 = Some muts) as Ea2 by (subst σ2; apply lookup_alloc_new).
  set (avail := py_sort_by (usage_key usage) muts).
  set (σ3 := <[length σ1 := avail]> σ2).
  assert (list_sort_by_usage (length σ1) usage σ2 = (Ok tt, σ3)) as Hsort.
  { unfold list_sort_by_usage. erewrite bind_ok by (by apply read_ok).
    destruct (mapM (λ x : Mutation, usage !! x) muts) eqn:Hm.
    - by eapply write_ok.
    - exfalso. assert (is_Some (mapM (λ x : Mutation, usage !! x) muts)) as [? Hs]; [|congruence].
      apply mapM_is_Some. apply Forall_forall. intros x Hx.
      destruct (Hc x Hx) as (u & Hu & _). simpl. rewrite Hu. by eexists. }
  erewrite bind_ok in Hr by exact Hsort.
  assert (cells σ3 k nu (length σ) [] (length σ1) avail) as Hcells.
  { subst σ3 σ2. repeat split.
    - rewrite list_lookup_insert_ne by lia. rewrite lookup_app_l by lia.
      subst σ1. by rewrite lookup_app_l.
    - rewrite list_lookup_insert_ne by lia. rewrite lookup_app_l by lia.
      subst σ1. apply lookup_alloc_new.
    - eapply lookup_update_eq, lookup_alloc_new. }
  erewrite bind_ok in Hr by (eapply list_len_ok; apply Hcells).
  assert (forall x, x ∈ avail -> x ∈ muts) as Hsub.
  { intros x Hx. subst avail. by rewrite py_sort_by_Permutation in Hx. }
  destruct (BetweenOperators_group_loop_ok order muts (length avail) σ3 k (length σ) (length σ1)
              usage nu [] avail ltac:(lia) ltac:(lia) ltac:(lia) Hcells (le_n _) Hc Hsub)
    as (σ' & Hres & Hlen & Hsame).
  unfold bo_step. fold avail.
  destruct (bo_grouping order (length avail) usage nu [] avail) as [[[usage' nu'] ts'] avail'].
  destruct Hres as (E & Ek' & Et' & Ea').
  erewrite bind_ok in Hr by exact E.
  exists σ'. split; [done|].
  repeat split; try done.
  - rewrite Hlen. subst σ3 σ2. rewrite length_insert, length_app. lia.
  - intros l' Hl Hlk. rewrite Hsame by lia.
    subst σ3 σ2 σ1. rewrite list_lookup_insert_ne by (rewrite ?length_app; simpl; lia).
    by rewrite !lookup_app_l by (rewrite ?length_app; simpl; lia).
Qed.

(** What a consumer of the generator of [BetweenOperators] sees. *)
Lemma BetweenOperators_consume_suspended n : forall σ l0 k muts usage nu,
  σ !! l0 = Some muts -> σ !! k = Some nu -> l0 ≠ k -> counted muts usage nu ->
  let c := consume (BetweenOperatorsHOMStrategy.next order) n
             (Suspended (BetweenOperatorsHOMStrategy.mkLocals l0 usage k)) σ in
  let '(gs, e, u) := bo_run order n usage nu muts in
  groups c = gs /\ ended c = e
  /\ (e = Exhausted ->
      final_locals c = Some (BetweenOperatorsHOMStrategy.mkLocals l0 u k))
  /\ (length σ <= length (final_store c))%nat
  /\ forall l : loc, (l < length σ)%nat -> l ≠ k -> final_store c !! l = σ !! l.
Proof.
  induction n as [|n IH]; intros σ l0 k muts usage nu E0 Ek Hne Hc; simpl.
  - done.
  - pose proof (BetweenOperators_resume_ok σ l0 k muts usage nu E0 Ek Hne Hc) as Hs.
    simpl in Hs.
    destruct nu as [|y0 nu0].
    + rewrite Hs. simpl. done.
    + pose proof (bo_step_counted muts usage (y0 :: nu0) Hc) as Hc'.
      destruct (bo_step order usage (y0 :: nu0) muts) as [[usage' nu'] g].
      destruct Hs as (σ' & -> & Ek' & Eg & Hlen & Hsame).
      rewrite Eg.
      assert (σ' !! l0 = Some muts) as E0'.
      { rewrite Hsame; [done| by eapply lookup_lt_Some |done]. }
      specialize (IH σ' l0 k muts usage' nu' E0' Ek' Hne Hc').
      destruct (bo_run order n usage' nu' muts) as [[gs e] u]. simpl in *.
      destruct IH as (Hg & He & Hf & Hl & Hs').
      repeat split; try done.
      * by rewrite Hg.
      * lia.
      * intros l ? ?. rewrite Hs' by lia. by apply Hsame.
Qed.

Lemma usage0_lookup muts y : y ∈ muts -> usage0 muts !! y = Some 0.
Proof.
  intros Hy. unfold usage0. apply elem_of_list_to_map_1'.
  - intros z (x & [= _ <-] & _)%list_elem_of_fmap. done.
  - apply list_elem_of_fmap. eauto.
Qed.

Lemma counted_usage0 muts : counted muts (usage0 muts) muts.
Proof. intros y Hy. exists 0. by rewrite usage0_lookup. Qed.

Lemma BetweenOperators_sees n σ l0 muts :
  σ !! l0 = Some muts ->
  let c := consume (BetweenOperatorsHOMStrategy.next order) n
             (BetweenOperatorsHOMStrategy.generate l0) σ in
  let '(gs, e, u) := bo_run order n (usage0 muts) muts muts in
  groups c = gs /\ ended c = e
  /\ (e = Exhausted -> exists l, final_locals c = Some l
                                 /\ BetweenOperatorsHOMStrategy.usage l = u)
  /\ forall l : loc, (l < length σ)%nat -> final_store c !! l = σ !! l.
Proof.
  intros E0. pose proof (lookup_lt_Some _ _ _ E0) as H0.
  destruct n as [|n]; [done|].
  assert (consume (BetweenOperatorsHOMStrategy.next order) (S n)
            (BetweenOperatorsHOMStrategy.generate l0) σ
          = consume (BetweenOperatorsHOMStrategy.next order) (S n)
              (Suspended (BetweenOperatorsHOMStrategy.mkLocals l0 (usage0 muts) (length σ)))
              (σ ++ [muts])) as ->.
  { simpl. erewrite bind_ok by (by apply read_ok).
    erewrite bind_ok by (by eapply list_copy_ok). done. }
  pose proof (BetweenOperators_consume_suspended (S n) (σ ++ [muts]) l0 (length σ) muts
                (usage0 muts) muts) as P.
  cbv zeta in P |- *.
  destruct (bo_run order (S n) (usage0 muts) muts muts) as [[gs e] u].
  destruct P as (Hg & He & Hf & Hl & Hs).
  - by rewrite lookup_app_l.
  - apply lookup_alloc_new.
  - lia.
  - apply counted_usage0.
  - repeat split; try done.
    + intros ->. eexists. split; [by apply Hf|done].
    + intros l Hlt. rewrite Hs by (rewrite ?length_app; simpl; lia). by apply lookup_app_l.
Qed.

End BO2.

Section BO3.
Context `{MutationSig}.
Variable order : Z.
Implicit Types (muts nu ts avail g : list Mutation) (usage : gmap Mutation Z)
  (x y : Mutation).

Lemma bo_grouping_non_conflicting fuel : forall usage nu ts avail,
  non_conflicting ts -> (forall y, y ∈ avail -> compatible false ts y) ->
  non_conflicting (snd (fst (bo_grouping order fuel usage nu ts avail))).
Proof.
  induction fuel as [|fuel IH]; intros usage nu ts avail Hts Hav; simpl.
  - by destruct (_ && _).
  - destruct (_ && _); [|done].
    destruct avail as [|x avail']; [done|].
    destruct (usage !! x) as [u|]; [|done].
    destruct (if bool_decide (u = 0) then py_remove x nu else Some nu) as [nu'|]; [|done].
    apply IH.
    + apply non_conflicting_snoc; [done|].
      intros v Hv. apply (bad_false_conflict false).
      assert (compatible false ts x) as Hx by (apply Hav; left).
      unfold compatible in Hx. rewrite Forall_forall in Hx. by apply Hx.
    + by intros y [Hc _]%list_elem_of_filter.
Qed.

Lemma bo_grouping_group_from fuel : forall usage nu ts avail y,
  y ∈ snd (fst (bo_grouping order fuel usage nu ts avail)) -> y ∈ ts \/ y ∈ avail.
Proof.
  induction fuel as [|fuel IH]; intros usage nu ts avail y; simpl.
  - destruct (_ && _); simpl; auto.
  - destruct (_ && _); [|simpl; auto].
    destruct avail as [|x avail']; [simpl; auto|].
    destruct (usage !! x) as [u|]; [|simpl; auto].
    destruct (if bool_decide (u = 0) then py_remove x nu else Some nu) as [nu'|]; [|simpl; auto].
    intros [Hy | Hy]%IH.
    + apply elem_of_app in Hy as [Hy | Hy]; [by left|]. apply list_elem_of_singleton in Hy as ->. right; left.
    + apply list_elem_of_filter in Hy as [_ Hy]. right. by right.
Qed.

Lemma py_remove_NoDup x nu nu' :
  NoDup nu -> py_remove x nu = Some nu' ->
  NoDup nu' /\ (x ∉ nu') /\ (forall y, y ∈ nu' -> y ∈ nu) /\ length nu = S (length nu').
Proof.
  intros Hnd Hr. pose proof (py_remove_Permutation _ _ _ Hr) as P.
  rewrite P in Hnd. apply NoDup_cons in Hnd as [Hx Hnd].
  repeat split; try done.
  - intros y Hy. rewrite P. by right.
  - by rewrite P.
Qed.

Lemma exact_step muts usage nu x u nu' :
  exact muts usage nu -> usage !! x = Some u ->
  (if bool_decide (u = 0) then py_remove x nu else Some nu) = Some nu' ->
  exact muts (<[x := u + 1]> usage) nu'
  /\ (length nu' <= length nu)%nat
  /\ (u = 0 -> length nu = S (length nu'))
  /\ (forall y, y ∈ nu -> y ∈ nu' \/ y = x).
Proof.
  intros (Hc & Hnd & Hz) Hu Hr.
  split; [split; [by eapply counted_step|]|].
  - destruct (decide (u = 0)) as [->|Hne].
    + rewrite bool_decide_true in Hr by done.
      destruct (py_remove_NoDup _ _ _ Hnd Hr) as (Hnd' & Hx & Hsub & _).
      split; [done|]. intros y Hy. destruct (Hz y (Hsub y Hy)) as [Hm Hy0].
      split; [done|]. rewrite lookup_insert_ne; [done|]. intros <-. done.
    + rewrite bool_decide_false in Hr by done. injection Hr as <-.
      split; [done|]. intros y Hy. destruct (Hz y Hy) as [Hm Hy0].
      split; [done|]. rewrite lookup_insert_ne; [done|]. intros <-. congruence.
  - destruct (decide (u = 0)) as [->|Hne].
    + rewrite bool_decide_true in Hr by done.
      destruct (py_remove_NoDup _ _ _ Hnd Hr) as (_ & _ & _ & Hlen).
      repeat split; [lia|done|].
      intros y Hy. destruct (decide (y = x)); [by right|left].
      by eapply py_remove_other.
    + rewrite bool_decide_false in Hr by done. injection Hr as <-.
      repeat split; [lia|done|auto].
Qed.

Lemma bo_grouping_exact muts fuel : forall usage nu ts avail,
  exact muts usage nu -> (forall x, x ∈ avail -> x ∈ muts) ->
  match bo_grouping order fuel usage nu ts avail with
  | (usage', nu', ts', _) =>
    exact muts usage' nu' /\ (length nu' <= length nu)%nat
    /\ (forall y, y ∈ nu -> y ∈ nu' \/ y ∈ ts')
    /\ (forall y, y ∈ ts -> y ∈ ts')
  end.
Proof.
  induction fuel as [|fuel IH]; intros usage nu ts avail He Hsub; simpl.
  - destruct (_ && _); auto.
  - destruct (_ && _); [|auto].
    destruct avail as [|x avail']; [auto|].
    destruct (usage !! x) as [u|] eqn:Hu; [|auto].
    destruct (if bool_decide (u = 0) then py_remove x nu else Some nu) as [nu1|] eqn:Hr; [|auto].
    destruct (exact_step muts usage nu x u nu1 He Hu Hr) as (He1 & Hl1 & _ & Hn1).
    specialize (IH (<[x := u + 1]> usage) nu1 (ts ++ [x])
                   (filter (compatible false (ts ++ [x])) avail') He1).
    destruct (bo_grouping _ _ _ _ _ _) as [[[usage' nu'] ts'] ?].
    destruct IH as (He' & Hl' & Hn' & Ht').
    { intros y [_ Hy]%list_elem_of_filter. apply Hsub. by right. }
    split; [done|]. split; [lia|]. split.
    + intros y Hy. destruct (Hn1 y Hy) as [Hy1 | ->].
      * by apply Hn'.
      * right. apply Ht'. apply elem_of_app. right. by left.
    + intros y Hy. apply Ht'. apply elem_of_app. by left.
Qed.

Lemma bo_grouping_S fuel usage nu ts x avail' :
  bo_grouping order (S fuel) usage nu ts (x :: avail')
  = if bool_decide (Z.of_nat (length ts) < order)
       && bool_decide (length (x :: avail') ≠ 0%nat) then
      match usage !! x with
      | Some u =>
        match (if bool_decide (u = 0) then py_remove x nu else Some nu) with
        | Some nu' =>
          bo_grouping order fuel (<[x := u + 1]> usage) nu' (ts ++ [x])
                      (filter (compatible false (ts ++ [x])) avail')
        | None => (usage, nu, ts, x :: avail')
        end
      | None => (usage, nu, ts, x :: avail')
      end
    else (usage, nu, ts, x :: avail').
Proof. reflexivity. Qed.

Lemma bo_step_spec muts usage nu :
  match bo_step order usage nu muts with
  | (usage', nu', g) =>
    non_conflicting g /\ (forall y, y ∈ g -> y ∈ muts)
    /\ (exact muts usage nu ->
        exact muts usage' nu' /\ (forall y, y ∈ nu -> y ∈ nu' \/ y ∈ g)
        /\ (0 < order -> nu ≠ [] -> (length nu' < length nu)%nat))
  end.
Proof.
  unfold bo_step. set (avail := py_sort_by (usage_key usage) muts).
  assert (forall x, x ∈ avail -> x ∈ muts) as Hsub.
  { intros x Hx. subst avail. by rewrite py_sort_by_Permutation in Hx. }
  pose proof (bo_grouping_non_conflicting (length avail) usage nu [] avail non_conflicting_nil) as Hnc.
  pose proof (bo_grouping_group_from (length avail) usage nu [] avail) as Hfrom.
  pose proof (bo_grouping_exact muts (length avail) usage nu [] avail) as Hex.
  pose proof (py_sort_by_head_least (usage_key usage) muts) as Hleast.
  fold avail in Hleast.
  destruct (bo_grouping order (length avail) usage nu [] avail) as [[[usage' nu'] ts'] avail'] eqn:Hg.
  simpl in Hnc, Hfrom. split; [|split].
  - apply Hnc. intros y _. apply Forall_nil_2.
  - intros y [Hy | Hy]%Hfrom; [by apply elem_of_nil in Hy|auto].
  - intros He. destruct (Hex He Hsub) as (He' & Hl & Hn & _).
    split; [done|]. split; [done|].
    intros Ho Hnu.
    (* the first mutation popped has counter 0 *)
    pose proof He as (Hc & Hnd & Hz).
    destruct nu as [|y0 nu0]; [done|]. clear Hnu. set (nu := y0 :: nu0) in *.
    destruct (Hz y0) as [Hy0m Hy0u]; [left|].
    assert (y0 ∈ avail) as Hy0a by (subst avail; by rewrite py_sort_by_Permutation).
    destruct avail as [|x avail1]; [by apply elem_of_nil in Hy0a|].
    simpl in Hleast. rewrite Forall_forall in Hleast. specialize (Hleast y0 Hy0a).
    destruct (Hc x) as (u & Hu & Hu0 & Hun); [apply Hsub; left|].
    unfold usage_key in Hleast. rewrite Hu, Hy0u in Hleast. simpl in Hleast.
    assert (u = 0) as -> by lia.
    destruct (py_remove_Some x nu (Hun eq_refl)) as (nu1 & Hr & _).
    change (length (x :: avail1)) with (S (length avail1)) in Hg.
    rewrite bo_grouping_S, Hu in Hg.
    rewrite !bool_decide_true in Hg by (simpl; lia). simpl andb in Hg. cbv iota in Hg.
    rewrite Hr in Hg.
    destruct (exact_step muts usage nu x 0 nu1 He Hu) as (He1 & _ & Hlen1 & _).
    { by rewrite bool_decide_true. }
    pose proof (bo_grouping_exact muts (length avail1) (<[x:=0 + 1]> usage) nu1 ([] ++ [x])
                  (filter (compatible false ([] ++ [x])) avail1) He1) as Hrest.
    rewrite Hg in Hrest. destruct Hrest as (_ & Hl2 & _).
    { intros y [_ Hy]%list_elem_of_filter. apply Hsub. by right. }
    specialize (Hlen1 eq_refl). lia.
Qed.

End BO3.

Section BO4.
Context `{MutationSig}.
Variable order : Z.
Implicit Types (muts nu ts avail g : list Mutation) (usage : gmap Mutation Z)
  (x y : Mutation).

Lemma bo_run_groups n : forall usage nu muts g,
  g ∈ fst (fst (bo_run order n usage nu muts)) ->
  non_conflicting g /\ forall y, y ∈ g -> y ∈ muts.
Proof.
  induction n as [|n IH]; intros usage nu muts g; simpl; [by intros ?%elem_of_nil|].
  destruct nu as [|y0 nu0]; [by intros ?%elem_of_nil|].
  pose proof (bo_step_spec order muts usage (y0 :: nu0)) as Hs.
  destruct (bo_step order usage (y0 :: nu0) muts) as [[usage' nu'] g'].
  destruct Hs as (Hnc & Hsub & _).
  specialize (IH usage' nu' muts g).
  destruct (bo_run order n usage' nu' muts) as [[gs e] u]. simpl in *.
  intros [-> | Hin]%elem_of_cons; auto.
Qed.

Lemma bo_run_exhausts n : forall usage nu muts,
  exact muts usage nu -> 0 < order -> (length nu < n)%nat ->
  match bo_run order n usage nu muts with
  | (gs, e, u) =>
    e = Exhausted /\ (forall y, y ∈ nu -> y ∈ concat gs)
    /\ (forall y, y ∈ muts -> exists v, u !! y = Some v /\ 1 <= v)
  end.
Proof.
  induction n as [|n IH]; intros usage nu muts He Ho Hn; [lia|]. simpl.
  destruct nu as [|y0 nu0].
  - repeat split; [by intros y ?%elem_of_nil|].
    intros y Hy. destruct He as (Hc & _). destruct (Hc y Hy) as (v & Hv & Hv0 & Hvn).
    exists v. split; [done|].
    destruct (decide (v = 0)) as [->|]; [|lia]. specialize (Hvn eq_refl). by apply elem_of_nil in Hvn.
  - pose proof (bo_step_spec order muts usage (y0 :: nu0)) as Hs.
    destruct (bo_step order usage (y0 :: nu0) muts) as [[usage' nu'] g'].
    destruct Hs as (_ & _ & Hex). destruct (Hex He) as (He' & Hcov & Hlt).
    specialize (Hlt Ho ltac:(done)). simpl in Hlt, Hn.
    specialize (IH usage' nu' muts He' Ho ltac:(lia)).
    destruct (bo_run order n usage' nu' muts) as [[gs e] u].
    destruct IH as (-> & Hgs & Hu).
    repeat split; [|done].
    intros y Hy. simpl. apply elem_of_app.
    destruct (Hcov y Hy); auto.
Qed.

Lemma exact_usage0 muts : NoDup muts -> exact muts (usage0 muts) muts.
Proof.
  intros Hnd. split; [apply counted_usage0|]. split; [done|].
  intros y Hy. split; [done|]. by apply usage0_lookup.
Qed.

End BO4.

Section Strategies.
Context `{MutationSig}.
Implicit Types (σ : store) (l : loc) (mutations g : list Mutation) (order : Z)
  (shuffler : list Mutation -> list Mutation).

Lemma elem_of_concat (x : Mutation) (ls : list (list Mutation)) :
  x ∈ concat ls <-> exists g, x ∈ g /\ g ∈ ls.
Proof.
  induction ls as [|g0 ls IH]; simpl.
  - split; [by intros ?%elem_of_nil|]. intros (g & _ & Hg). by apply elem_of_nil in Hg.
  - rewrite elem_of_app, IH. split.
    + intros [Hx | (g & Hx & Hg)]; [exists g0; split; [done|left] | exists g; split; [done|by right]].
    + intros (g & Hx & [-> | Hg]%elem_of_cons); [by left|right; eauto].
Qed.

(** C3.  Whatever the order, the store, the input list and the number of
    items asked for, every group handed over by the generator of each of the
    four strategies is pairwise non-conflicting: no two of its mutations are
    at the same node, and the node of none is among the [children] (the
    descendants, as [utils.ParentNodeTransformer] records them) of the node
    of another. *)
Theorem groups_non_conflicting order shuffler σ l mutations (n : nat) g :
  σ !! l = Some mutations ->
  (g ∈ groups (consume (FirstToLastHOMStrategy.next order) n
                 (FirstToLastHOMStrategy.generate l) σ) -> non_conflicting g)
  /\ (g ∈ groups (consume (EachChoiceHOMStrategy.next order) n
                    (EachChoiceHOMStrategy.generate l) σ) -> non_conflicting g)
  /\ (g ∈ groups (consume (BetweenOperatorsHOMStrategy.next order) n
                    (BetweenOperatorsHOMStrategy.generate l) σ) -> non_conflicting g)
  /\ (g ∈ groups (consume (RandomHOMStrategy.next order shuffler) n
                    (RandomHOMStrategy.generate l) σ) -> non_conflicting g).
Proof.
  intros E.
  destruct (FirstToLast_sees order n σ l mutations E) as (-> & _).
  destruct (EachChoice_sees order n σ l mutations E) as (-> & _).
  destruct (Random_sees order shuffler n σ l mutations E) as (-> & _).
  pose proof (BetweenOperators_sees order n σ l mutations E) as B. cbv zeta in B.
  pose proof (bo_run_groups order n (usage0 mutations) mutations mutations g) as Hbo.
  destruct (bo_run order n (usage0 mutations) mutations mutations) as [[gs e] u].
  destruct B as (-> & _). simpl in Hbo.
  split; [|split; [|split]].
  - apply run_groups_non_conflicting.
  - apply run_groups_non_conflicting.
  - intros Hg. by apply Hbo.
  - apply run_groups_non_conflicting.
Qed.

(** C4.  For an order of at least 1, asking the generator of FirstToLast or
    of EachChoice for one item more than the input has mutations exhausts
    it, and the groups it handed over, put end to end, are a rearrangement
    of the input: every mutation of the input is in exactly one group and
    none is dropped.  The same holds for Random when the shuffler rearranges
    the list.  For BetweenOperators on an input without repetition the
    generator is exhausted as well, the mutations of its groups are exactly
    those of the input, and when its body returns every mutation of the
    input has a counter of at least 1 in [usage]. *)
Theorem groups_cover_input order shuffler σ l mutations :
  0 < order -> σ !! l = Some mutations ->
  (let c := consume (FirstToLastHOMStrategy.next order) (S (length mutations))
              (FirstToLastHOMStrategy.generate l) σ in
   ended c = Exhausted /\ concat (groups c) ≡ₚ mutations)
  /\ (let c := consume (EachChoiceHOMStrategy.next order) (S (length mutations))
                 (EachChoiceHOMStrategy.generate l) σ in
      ended c = Exhausted /\ concat (groups c) ≡ₚ mutations)
  /\ (shuffler mutations ≡ₚ mutations ->
      let c := consume (RandomHOMStrategy.next order shuffler) (S (length mutations))
                 (RandomHOMStrategy.generate l) σ in
      ended c = Exhausted /\ concat (groups c) ≡ₚ mutations)
  /\ (NoDup mutations ->
      let c := consume (BetweenOperatorsHOMStrategy.next order) (S (length mutations))
                 (BetweenOperatorsHOMStrategy.generate l) σ in
      ended c = Exhausted
      /\ (forall m, m ∈ concat (groups c) <-> m ∈ mutations)
      /\ exists locals, final_locals c = Some locals
           /\ forall m, m ∈ mutations ->
                exists u, BetweenOperatorsHOMStrategy.usage locals !! m = Some u /\ 1 <= u).
Proof.
  intros Ho E. set (n := S (length mutations)).
  destruct (FirstToLast_sees order n σ l mutations E) as (Fg & Fe & _).
  destruct (EachChoice_sees order n σ l mutations E) as (Eg & Ee & _).
  destruct (Random_sees order shuffler n σ l mutations E) as (Rg & Re & _).
  pose proof (BetweenOperators_sees order n σ l mutations E) as B.
  cbv zeta in B |- *.
  split; [|split; [|split]].
  - rewrite Fg, Fe.
    apply (run_groups_exhausts order alternate n mutations Ho). subst n; lia.
  - rewrite Eg, Ee.
    apply (run_groups_exhausts order front n mutations Ho). subst n; lia.
  - intros Hp. rewrite Rg, Re.
    destruct (run_groups_exhausts order front n (shuffler mutations) Ho) as [He Hc].
    { apply Permutation_length in Hp. subst n; lia. }
    split; [done|]. by rewrite Hc.
  - intros Hnd.
    pose proof (bo_run_exhausts order n (usage0 mutations) mutations mutations
                  (exact_usage0 _ Hnd) Ho ltac:(subst n; lia)) as X.
    pose proof (bo_run_groups order n (usage0 mutations) mutations mutations) as G.
    destruct (bo_run order n (usage0 mutations) mutations mutations) as [[gs e] u].
    destruct B as (-> & -> & Hf & _). destruct X as (He & Hcov & Hu). simpl in G.
    split; [done|]. split.
    + intros m. split; [|apply Hcov].
      intros (g & Hm & Hg)%elem_of_concat. by apply (G g Hg).
    + destruct (Hf He) as (locals & Hl & <-). eauto.
Qed.

(** C9.  The groups that EachChoice and FirstToLast hand over, and the way
    the sequence ends, depend on the input only through the mutations it
    holds, in their order: two runs on lists with the same contents, in
    whatever stores and at whatever addresses, give the same sequence.  Two
    runs of Random give the same sequence when the two shufflers leave the
    same arrangement of the input. *)
Theorem generate_deterministic order shuffler shuffler' σ σ' l l' mutations (n : nat) :
  σ !! l = Some mutations -> σ' !! l' = Some mutations ->
  (let c := consume (EachChoiceHOMStrategy.next order) n (EachChoiceHOMStrategy.generate l) σ in
   let c' := consume (EachChoiceHOMStrategy.next order) n
               (EachChoiceHOMStrategy.generate l') σ' in
   groups c = groups c' /\ ended c = ended c')
  /\ (let c := consume (FirstToLastHOMStrategy.next order) n
                 (FirstToLastHOMStrategy.generate l) σ in
      let c' := consume (FirstToLastHOMStrategy.next order) n
                  (FirstToLastHOMStrategy.generate l') σ' in
      groups c = groups c' /\ ended c = ended c')
  /\ (shuffler mutations = shuffler' mutations ->
      let c := consume (RandomHOMStrategy.next order shuffler) n
                 (RandomHOMStrategy.generate l) σ in
      let c' := consume (RandomHOMStrategy.next order shuffler') n
                  (RandomHOMStrategy.generate l') σ' in
      groups c = groups c' /\ ended c = ended c').
Proof.
  intros E E'. cbv zeta.
  destruct (EachChoice_sees order n σ l mutations E) as (-> & -> & _).
  destruct (EachChoice_sees order n σ' l' mutations E') as (-> & -> & _).
  destruct (FirstToLast_sees order n σ l mutations E) as (-> & -> & _).
  destruct (FirstToLast_sees order n σ' l' mutations E') as (-> & -> & _).
  destruct (Random_sees order shuffler n σ l mutations E) as (-> & -> & _).
  destruct (Random_sees order shuffler' n σ' l' mutations E') as (-> & -> & _).
  split; [done|]. split; [done|].
  intros ->. done.
Qed.

(** C10.  However many items are asked for, up to the exhaustion of the
    generator, consuming the generator of any of the four strategies leaves
    the list object it was given, and every other list object the caller
    had, with the elements it had, in the same order: what the strategies
    pop from, remove from, sort and shuffle are objects they have created. *)
Theorem generate_keeps_input order shuffler σ l mutations (n : nat) :
  σ !! l = Some mutations ->
  (final_store (consume (FirstToLastHOMStrategy.next order) n
                  (FirstToLastHOMStrategy.generate l) σ) !! l = Some mutations
   /\ final_store (consume (EachChoiceHOMStrategy.next order) n
                     (EachChoiceHOMStrategy.generate l) σ) !! l = Some mutations
   /\ final_store (consume (BetweenOperatorsHOMStrategy.next order) n
                     (BetweenOperatorsHOMStrategy.generate l) σ) !! l = Some mutations
   /\ final_store (consume (RandomHOMStrategy.next order shuffler) n
                     (RandomHOMStrategy.generate l) σ) !! l = Some mutations)
  /\ forall (l' : loc) xs, σ !! l' = Some xs ->
       final_store (consume (FirstToLastHOMStrategy.next order) n
                      (FirstToLastHOMStrategy.generate l) σ) !! l' = Some xs
       /\ final_store (consume (EachChoiceHOMStrategy.next order) n
                         (EachChoiceHOMStrategy.generate l) σ) !! l' = Some xs
       /\ final_store (consume (BetweenOperatorsHOMStrategy.next order) n
                         (BetweenOperatorsHOMStrategy.generate l) σ) !! l' = Some xs
       /\ final_store (consume (RandomHOMStrategy.next order shuffler) n
                         (RandomHOMStrategy.generate l) σ) !! l' = Some xs.
Proof.
  intros E.
  destruct (FirstToLast_sees order n σ l mutations E) as (_ & _ & F1).
  destruct (EachChoice_sees order n σ l mutations E) as (_ & _ & F2).
  destruct (Random_sees order shuffler n σ l mutations E) as (_ & _ & F3).
  pose proof (BetweenOperators_sees order n σ l mutations E) as B. cbv zeta in B.
  destruct (bo_run order n (usage0 mutations) mutations mutations) as [[gs e] u].
  destruct B as (_ & _ & _ & F4).
  assert (forall (l' : loc) xs, σ !! l' = Some xs ->
    final_store (consume (FirstToLastHOMStrategy.next order) n
                   (FirstToLastHOMStrategy.generate l) σ) !! l' = Some xs
    /\ final_store (consume (EachChoiceHOMStrategy.next order) n
                      (EachChoiceHOMStrategy.generate l) σ) !! l' = Some xs
    /\ final_store (consume (BetweenOperatorsHOMStrategy.next order) n
                      (BetweenOperatorsHOMStrategy.generate l) σ) !! l' = Some xs
    /\ final_store (consume (RandomHOMStrategy.next order shuffler) n
                      (RandomHOMStrategy.generate l) σ) !! l' = Some xs) as Hall.
  { intros l' xs E'. pose proof (lookup_lt_Some _ _ _ E') as Hl.
    rewrite (F1 l' Hl), (F2 l' Hl), (F3 l' Hl), (F4 l' Hl). done. }
  split; [by apply Hall|exact Hall].
Qed.

End Strategies.

Section ControllerFacts.
Context `{MutationSig} `{ControllerSig}.
Implicit Types (self : MutationController) (s : cstate) (sc : MutationScore).

Lemma C_bind_ok {A B} (m : C A) (f : A -> C B) s a s' :
  m s = (inr a, s') -> (m ≫= f) s = f a s'.
Proof. intros E. unfold mbind, C_bind. by rewrite E. Qed.

Lemma C_bind_fail {A B} (m : C A) (f : A -> C B) s e s' :
  m s = (inl e, s') -> (m ≫= f) s = (inl e, s').
Proof. intros E. unfold mbind, C_bind. by rewrite E. Qed.

Lemma on_score_ok f s sc :
  score s = Some sc -> on_score f s = (inr tt, mkState (Some (f sc)) (events s)).
Proof. intros E. unfold on_score, get_score, mbind, C_bind. by rewrite E. Qed.

Lemma notify_then_on_score e f s sc :
  score s = Some sc ->
  (notify e;; on_score f) s = (inr tt, mkState (Some (f sc)) (events s ++ [e])).
Proof. intros E. unfold mbind, C_bind, notify. simpl. by rewrite (on_score_ok f _ sc). Qed.

Lemma update_score_and_notify_views_ok result duration s sc :
  score s = Some sc ->
  exists sc' e (i : nat) x,
    update_score_and_notify_views result duration s
    = (inr tt, mkState (Some sc') (events s ++ [e]))
    /\ is_classification e = true
    /\ counters sc !! i = Some x /\ counters sc' = <[i := x + 1]> (counters sc)
    /\ covered_nodes sc' = covered_nodes sc /\ all_nodes sc' = all_nodes sc
    /\ all_mutants sc' = all_mutants sc + 1.
Proof.
  intros E. unfold update_score_and_notify_views.
  destruct result as [r|].
  - destruct (is_incompetent r); [|destruct (is_survived r)].
    + exists (inc_incompetent sc), (notify_incompetent duration (exception r) (tests_run r)),
        2%nat, (incompetent_mutants sc).
      unfold update_incompetent_mutant. rewrite (notify_then_on_score _ _ _ sc E).
      repeat split. unfold all_mutants. simpl. lia.
    + exists (inc_survived sc), (notify_survived duration (tests_run r)),
        3%nat, (survived_mutants sc).
      unfold update_survived_mutant. rewrite (notify_then_on_score _ _ _ sc E).
      repeat split. unfold all_mutants. simpl. lia.
    + exists (inc_killed sc),
        (notify_killed duration (killer r) (exception_traceback r) (tests_run r)),
        0%nat, (killed_mutants sc).
      unfold update_killed_mutant. rewrite (notify_then_on_score _ _ _ sc E).
      repeat split. unfold all_mutants. simpl. lia.
  - exists (inc_timeout sc), (notify_timeout duration), 1%nat, (timeout_mutants sc).
    unfold update_timeout_mutant. rewrite (notify_then_on_score _ _ _ sc E).
    repeat split. unfold all_mutants. simpl. lia.
Qed.

(** C2.  Every call of [update_score_and_notify_views], the classification
    of a mutant, adds one to exactly one of the four counters, leaves the
    other three and the coverage totals as they were, and sends exactly one
    notification, which is the one of a classification.  After any sequence
    of such calls [all_mutants], the sum of the four counters, has grown by
    the number of calls, and as many notifications have been sent; it is [0]
    in the fresh score, so that at every point it is the number of
    classification calls made. *)
Theorem classification_counts_once :
  (forall result duration s sc, score s = Some sc ->
     exists sc' e (i : nat) x,
       update_score_and_notify_views result duration s
       = (inr tt, mkState (Some sc') (events s ++ [e]))
       /\ is_classification e = true
       /\ counters sc !! i = Some x /\ counters sc' = <[i := x + 1]> (counters sc)
       /\ covered_nodes sc' = covered_nodes sc /\ all_nodes sc' = all_nodes sc
       /\ all_mutants sc' = all_mutants sc + 1)
  /\ (forall (calls : list (option MutantResult * Q)) s sc, score s = Some sc ->
        exists sc' es,
          for_stream (list_stream calls)
            (fun '(result, duration) => update_score_and_notify_views result duration) s
          = (inr tt, mkState (Some sc') (events s ++ es))
          /\ all_mutants sc' = all_mutants sc + Z.of_nat (length calls)
          /\ length es = length calls
          /\ Forall (fun e => is_classification e = true) es)
  /\ all_mutants MutationScore_init = 0.
Proof.
  split; [|split; [|reflexivity]].
  - intros result duration s sc E.
    by apply update_score_and_notify_views_ok.
  - intros calls. induction calls as [|[result duration] calls IH]; intros s sc E.
    + exists sc, []. simpl. rewrite app_nil_r. destruct s; simpl in *; subst.
      repeat split; [lia|constructor].
    + destruct (update_score_and_notify_views_ok result duration s sc E)
        as (sc1 & e & i & x & E1 & Hc & _ & _ & _ & _ & Ha).
      destruct (IH (mkState (Some sc1) (events s ++ [e])) sc1 eq_refl)
        as (sc' & es & E2 & Ha' & Hl & Hf).
      exists sc', (e :: es). simpl.
      rewrite (C_bind_ok _ _ _ _ _ E1), E2. simpl.
      rewrite <- app_assoc. repeat split; [lia|lia|by constructor].
Qed.

(** C6.  When [mutation_number] is set (to a number other than [0], which
    the test of line 165 takes for unset) and the ordinal of the mutant at
    hand, the number of mutants counted so far plus one, differs from it,
    the body of the loop of [mutate_module] only adds one to the incompetent
    counter: it sends no notification, so the mutant is neither built nor
    tested, the loop goes on with the next mutant, and the ordinal of that
    one is the next number. *)
Theorem mutation_number_filter_skips self target_module total_duration coverage_result
    mutations mutant_ast rest s sc n :
  score s = Some sc -> mutation_number self = Some n -> n ≠ 0 -> n ≠ all_mutants sc + 1 ->
  let body := mutate_module_body self target_module total_duration coverage_result in
  let s' := mkState (Some (inc_incompetent sc)) (events s) in
  body (mutations, mutant_ast) s = (inr tt, s')
  /\ incompetent_mutants (inc_incompetent sc) = incompetent_mutants sc + 1
  /\ for_stream (Yield (mutations, mutant_ast) rest) body s = for_stream rest body s'
  /\ all_mutants (inc_incompetent sc) + 1 = (all_mutants sc + 1) + 1.
Proof.
  intros E Hn Hn0 Hne body s'.
  assert (body (mutations, mutant_ast) s = (inr tt, s')) as Hb.
  { unfold body, mutate_module_body, mutation_number_set.
    erewrite C_bind_ok by (unfold get_score; by rewrite E).
    rewrite Hn. rewrite !bool_decide_true by congruence. simpl.
    by apply on_score_ok. }
  repeat split; try done.
  - simpl. by rewrite (C_bind_ok _ _ _ _ _ Hb).
  - unfold all_mutants. simpl. lia.
Qed.

(** C7.  The deadline is [timeout_factor] times the larger of the baseline
    duration and [1]: [timeout_factor] times the baseline duration when that
    exceeds [1], [timeout_factor] itself when it is at most [1]; and it is
    the deadline [run_mutation_test_runner] hands to the runner. *)
Theorem live_time_scales self (suite : Suite) (total_duration : Q) :
  (live_time (timeout_factor self) total_duration
   == timeout_factor self * Qmax total_duration 1)%Q
  /\ ((1 < total_duration)%Q ->
      live_time (timeout_factor self) total_duration
      = (timeout_factor self * total_duration)%Q)
  /\ ((total_duration <= 1)%Q ->
      (live_time (timeout_factor self) total_duration == timeout_factor self)%Q)
  /\ run_mutation_test_runner self suite total_duration
     = get_result self suite (live_time (timeout_factor self) total_duration).
Proof.
  unfold live_time. repeat split.
  - destruct (Qlt_le_dec 1 total_duration) as [Hlt|Hle].
    + rewrite Q.max_l; [reflexivity|]. by apply Qlt_le_weak.
    + rewrite Q.max_r; [reflexivity|done].
  - intros Hlt. destruct (Qlt_le_dec 1 total_duration) as [_|Hle]; [done|].
    exfalso. eapply Qlt_irrefl, Qlt_le_trans; eauto.
  - intros Hle. destruct (Qlt_le_dec 1 total_duration) as [Hlt|_].
    + exfalso. eapply Qlt_irrefl, Qlt_le_trans; eauto.
    + apply Qmult_1_r.
Qed.

Lemma sound_init : sound MutationScore_init.
Proof. by repeat split. Qed.

Lemma sound_inc_incompetent sc : sound sc -> sound (inc_incompetent sc).
Proof. intros (?&?&?&?). repeat split; simpl; lia. Qed.

Lemma sound_inc_survived sc : sound sc -> sound (inc_survived sc).
Proof. intros (?&?&?&?). repeat split; simpl; lia. Qed.

Lemma sound_inc_killed sc : sound sc -> sound (inc_killed sc).
Proof. intros (?&?&?&?). repeat split; simpl; lia. Qed.

Lemma sound_inc_timeout sc : sound sc -> sound (inc_timeout sc).
Proof. intros (?&?&?&?). repeat split; simpl; lia. Qed.

Lemma sound_update_coverage covered all sc : sound sc -> sound (update_coverage covered all sc).
Proof. by intros (?&?&?&?). Qed.

Lemma mutation_numbers_app (es es' : list event) :
  mutation_numbers (es ++ es') = mutation_numbers es ++ mutation_numbers es'.
Proof. apply omap_app. Qed.

Lemma filter_classification_app (es es' : list event) :
  List.filter is_classification (es ++ es')
  = List.filter is_classification es ++ List.filter is_classification es'.
Proof. apply List.filter_app. Qed.

Lemma update_score_and_notify_views_step result duration s sc :
  score s = Some sc ->
  exists sc' e,
    update_score_and_notify_views result duration s
    = (inr tt, mkState (Some sc') (events s ++ [e]))
    /\ is_classification e = true
    /\ mutation_numbers [e] = []
    /\ all_mutants sc' = all_mutants sc + 1
    /\ covered_nodes sc' = covered_nodes sc /\ all_nodes sc' = all_nodes sc
    /\ (sound sc -> sound sc').
Proof.
  intros E. unfold update_score_and_notify_views.
  destruct result as [r|]; [destruct (is_incompetent r); [|destruct (is_survived r)]|].
  - exists (inc_incompetent sc), (notify_incompetent duration (exception r) (tests_run r)).
    unfold update_incompetent_mutant. rewrite (notify_then_on_score _ _ _ sc E).
    split_and!; try done; [unfold all_mutants; simpl; lia|apply sound_inc_incompetent].
  - exists (inc_survived sc), (notify_survived duration (tests_run r)).
    unfold update_survived_mutant. rewrite (notify_then_on_score _ _ _ sc E).
    split_and!; try done; [unfold all_mutants; simpl; lia|apply sound_inc_survived].
  - exists (inc_killed sc),
      (notify_killed duration (killer r) (exception_traceback r) (tests_run r)).
    unfold update_killed_mutant. rewrite (notify_then_on_score _ _ _ sc E).
    split_and!; try done; [unfold all_mutants; simpl; lia|apply sound_inc_killed].
  - exists (inc_timeout sc), (notify_timeout duration).
    unfold update_timeout_mutant. rewrite (notify_then_on_score _ _ _ sc E).
    split_and!; try done; [unfold all_mutants; simpl; lia|apply sound_inc_timeout].
Qed.

(** [run_tests_with_mutant] tests the mutant with the suite it has made, or
    lets through the exception raised while making it. *)
Lemma run_tests_with_mutant_unfold self total_duration mutant_module mutations
    coverage_result s :
  run_tests_with_mutant self total_duration mutant_module mutations coverage_result s
  = match test_suite_for self mutations coverage_result mutant_module with
    | inr suite =>
      update_score_and_notify_views
        (run_mutation_test_runner self suite total_duration) (mutant_duration self suite) s
    | inl e => (inl e, s)
    end.
Proof.
  unfold run_tests_with_mutant, test_suite_for, mbind, C_bind, lift.
  destruct (create_test_suite self mutant_module) as [e|suite]; [done|].
  destruct coverage_result as [cov|]; [|done].
  by destruct (mark_not_covered_tests_as_skip self mutations cov suite).
Qed.

(** One turn of the loop of [mutate_module]. *)
Lemma mutate_module_body_step self target_module total_duration coverage_result
    (item : list Mutation * Ast) s sc :
  score s = Some sc ->
  exists r sc' es,
    mutate_module_body self target_module total_duration coverage_result item s
    = (r, mkState (Some sc') (events s ++ es))
    /\ covered_nodes sc' = covered_nodes sc /\ all_nodes sc' = all_nodes sc
    /\ (sound sc -> sound sc')
    /\ match r with
       | inr _ =>
         all_mutants sc' = all_mutants sc + 1
         /\ mutation_numbers es
            = (if selected self (all_mutants sc + 1) then [all_mutants sc + 1] else [])
         /\ length (List.filter is_classification es)
            = (if selected self (all_mutants sc + 1) then 1%nat else 0%nat)
       | inl e =>
         sc' = sc
         /\ selected self (all_mutants sc + 1) = true
         /\ mutation_numbers es = [all_mutants sc + 1]
         /\ List.filter is_classification es = []
         /\ exists mutant_module,
              create_module self (snd item) (module_name self target_module)
              = inr mutant_module
              /\ test_suite_for self (fst item) coverage_result mutant_module = inl e
       end.
Proof.
  intros E. destruct item as [mutations mutant_ast].
  unfold mutate_module_body, selected.
  erewrite C_bind_ok by (unfold get_score; by rewrite E).
  destruct (mutation_number_set self
            && bool_decide (mutation_number self ≠ Some (all_mutants sc + 1))); simpl negb;
    cbv iota.
  - exists (inr tt), (inc_incompetent sc), [].
    rewrite app_nil_r, (on_score_ok _ _ sc E).
    split_and!; try done; [apply sound_inc_incompetent|unfold all_mutants; simpl; lia].
  - set (e0 := notify_mutation (all_mutants sc + 1) mutations
                 (module_name self target_module) mutant_ast).
    set (s0 := mkState (score s) (events s ++ [e0])).
    assert (notify e0 s = (inr tt, s0)) as N0 by reflexivity.
    rewrite (C_bind_ok _ _ _ _ _ N0).
    unfold create_mutant_module. simpl snd. simpl fst.
    destruct (create_module self mutant_ast (module_name self target_module))
      as [exc|m].
    + exists (inr tt), (inc_incompetent sc), [e0; notify_incompetent 0 exc 0].
      erewrite C_bind_ok by reflexivity. cbv beta iota.
      erewrite on_score_ok by exact E. simpl events. rewrite <- app_assoc.
      split_and!; try done; [apply sound_inc_incompetent|unfold all_mutants; simpl; lia].
    + erewrite C_bind_ok by reflexivity. cbv beta iota.
      rewrite run_tests_with_mutant_unfold.
      destruct (test_suite_for self mutations coverage_result m) as [e|suite] eqn:Es.
      * exists (inl e), sc, [e0]. unfold s0. rewrite E.
        split_and!; try done. by exists m.
      * destruct (update_score_and_notify_views_step
                    (run_mutation_test_runner self suite total_duration)
                    (mutant_duration self suite) s0 sc E)
          as (sc' & e & E1 & Hc & Hm & Ha & Hcov & Hall & Hsound).
        exists (inr tt), sc', [e0; e]. rewrite E1. simpl events. rewrite <- app_assoc.
        split_and!; try done.
        -- change [e0; e] with ([e0] ++ [e]). by rewrite mutation_numbers_app, Hm.
        -- simpl. by rewrite Hc.
Qed.


End ControllerFacts.

Section RunFacts.
Context `{MutationSig} `{ControllerSig}.
Implicit Types (self : MutationController) (s : cstate) (sc : MutationScore).



Lemma check_tests_passes self tests : forall test_modules number total s,
  Forall (fun item => wasSuccessful (fst (run_test self (fst item) (snd item))) = true)
         (stream_items tests) ->
  stream_end tests = None ->
  check_tests self tests test_modules number total s
  = (inr (test_modules ++ (baseline_entry self <$> stream_items tests),
          foldl Qplus total ((fun item => snd (run_test self (fst item) (snd item)))
                             <$> stream_items tests),
          number + sum_tests_run self (stream_items tests)), s).
Proof.
  induction tests as [|[test_module target_test] rest IH|e];
    intros test_modules number total s Hall Hend; simpl in *.
  - by rewrite app_nil_r, Z.add_0_r.
  - apply Forall_cons in Hall as [Hok Hall]. simpl in Hok.
    unfold baseline_entry at 1. simpl.
    destruct (run_test self test_module target_test) as [result duration].
    simpl in *. rewrite Hok, (IH _ _ _ _ Hall Hend).
    rewrite <- app_assoc. simpl. do 3 f_equal. lia.
  - done.
Qed.

Lemma run_unfold self :
  run self =
  match (run_mutation_process self;;
         sc ← get_score;
         notify (notify_end sc (run_duration self))) (initialized self) with
  | (inr _, s) => mkRun Completed s
  | (inl (TestsFailAtOriginal result), s) =>
    mkRun (SysExit (-1)) (mkState (score s) (events s ++ [notify_original_tests_fail result]))
  | (inl (ModulesLoaderException name exc), s) =>
    mkRun (SysExit (-2)) (mkState (score s) (events s ++ [notify_cant_load name exc]))
  | (inl e, s) => mkRun (Uncaught e) s
  end.
Proof.
  unfold run, initialized. unfold mbind at 1, C_bind at 1. simpl.
  unfold mbind at 1, C_bind at 1, attempt.
  destruct ((run_mutation_process self;; _) _) as [[e|[]] s]; [|done].
  destruct e; done.
Qed.

Lemma run_mutation_process_unfold self s :
  run_mutation_process self s
  = match mutation_process self s with
    | (inr _, s') => (inr tt, s')
    | (inl KeyboardInterrupt, s') => (inr tt, s')
    | (inl e, s') => (inl e, s')
    end.
Proof.
  unfold run_mutation_process, mbind, C_bind, attempt.
  destruct (mutation_process self s) as [[e|[]] s']; [|done]. by destruct e.
Qed.

(** What [run] does with the outcome of the mutation process. *)
Lemma run_of_mutation_process self :
  run self =
  match mutation_process self (initialized self) with
  | (inl (TestsFailAtOriginal result), s) =>
    mkRun (SysExit (-1)) (mkState (score s) (events s ++ [notify_original_tests_fail result]))
  | (inl (ModulesLoaderException name exc), s) =>
    mkRun (SysExit (-2)) (mkState (score s) (events s ++ [notify_cant_load name exc]))
  | (inl KeyboardInterrupt, s) | (inr _, s) =>
    match score s with
    | Some sc =>
      mkRun Completed (mkState (Some sc) (events s ++ [notify_end sc (run_duration self)]))
    | None => mkRun (Uncaught (AttributeError "score")) s
    end
  | (inl e, s) => mkRun (Uncaught e) s
  end.
Proof.
  rewrite run_unfold. unfold mbind at 1, C_bind at 1.
  rewrite run_mutation_process_unfold.
  destruct (mutation_process self (initialized self)) as [[e|[]] s].
  - destruct e; try done;
      unfold mbind, C_bind, get_score, notify;
      destruct (score s) as [sc|] eqn:Esc; by rewrite ?Esc.
  - unfold mbind, C_bind, get_score, notify.
    destruct (score s) as [sc|] eqn:Esc; by rewrite ?Esc.
Qed.

(** When the baseline passes, the mutation process is the loop over the
    target modules. *)
Lemma mutation_process_started self :
  baseline_passes self ->
  mutation_process self (initialized self)
  = for_stream (target_modules self) (module_loop self) (started self).
Proof.
  intros [Hall Hend].
  assert (foldl Qplus 0%Q ((fun item => snd (run_test self (fst item) (snd item)))
                           <$> stream_items (test_loader_load self))
          = baseline_duration self) as Ed.
  { unfold baseline_duration, baseline_modules, sum_durations.
    by rewrite <- list_fmap_compose. }
  unfold mutation_process, load_and_check_tests.
  erewrite C_bind_ok by (by apply check_tests_passes).
  rewrite Ed. reflexivity.
Qed.

Lemma stream_items_list_stream {A} (l : list A) : stream_items (list_stream l) = l.
Proof. induction l as [|a l IH]; [done|]. simpl. by rewrite IH. Qed.


Lemma for_stream_app {A} (items : list A) (tail : stream error A) (body : A -> C unit) s :
  for_stream (stream_app items tail) body s
  = match for_stream (list_stream items) body s with
    | (inr _, s') => for_stream tail body s'
    | (inl e, s') => (inl e, s')
    end.
Proof.
  revert s. induction items as [|a items IH]; intros s; simpl; [done|].
  unfold mbind, C_bind. destruct (body a s) as [[e|[]] s1]; [done|]. apply IH.
Qed.

(** ** The loop of [mutate_module] *)




Lemma mutate_module_loop self target_module total_duration coverage_result
    (st : stream error (list Mutation * Ast)) : forall s sc,
  score s = Some sc ->
  exists r sc' es (k j : nat),
    for_stream st (mutate_module_body self target_module total_duration coverage_result) s
    = (r, mkState (Some sc') (events s ++ es))
    /\ (k + j <= length (stream_items st))%nat
    /\ all_mutants sc' = all_mutants sc + Z.of_nat k
    /\ covered_nodes sc' = covered_nodes sc /\ all_nodes sc' = all_nodes sc
    /\ (sound sc -> sound sc')
    /\ mutation_numbers es
       = List.filter (selected self) (seqZ (all_mutants sc + 1) (Z.of_nat (k + j)))
    /\ (length (List.filter is_classification es) + j)%nat = length (mutation_numbers es)
    /\ match j with
       | 0%nat => r = loop_result (stream_end st) /\ k = length (stream_items st)
       | _ =>
         j = 1%nat
         /\ exists e item mutant_module,
              r = inl e
              /\ stream_items st !! k = Some item
              /\ create_module self (snd item) (module_name self target_module)
                 = inr mutant_module
              /\ test_suite_for self (fst item) coverage_result mutant_module = inl e
       end.
Proof.
  induction st as [|item rest IH|e]; intros s sc E.
  - exists (inr tt), sc, [], 0%nat, 0%nat. simpl. rewrite app_nil_r.
    destruct s; simpl in *; subst. split_and!; try done; lia.
  - destruct (mutate_module_body_step self target_module total_duration coverage_result
                item s sc E) as (r1 & sc1 & es1 & E1 & Hc1 & Hn1 & Hs1 & Hr1).
    simpl for_stream. unfold mbind, C_bind. rewrite E1.
    destruct r1 as [e|[]].
    + destruct Hr1 as (-> & Hsel & Hm1 & Hk1 & m & Hcm & Hts).
      exists (inl e), sc, es1, 0%nat, 1%nat. simpl stream_items. simpl length.
      split_and!; try done; [lia|lia| | |].
      * rewrite Hm1. change (Z.of_nat (0 + 1)) with 1.
        rewrite seqZ_cons by lia. cbn [List.filter]. by rewrite Hsel.
      * by rewrite Hk1, Hm1.
      * by exists e, item, m.
    + destruct Hr1 as (Ha1 & Hm1 & Hk1).
      destruct (IH (mkState (Some sc1) (events s ++ es1)) sc1 eq_refl)
        as (r & sc' & es & k & j & E2 & Hk & Ha & Hc & Hn & Hs & Hm & Hcl & Hj).
      exists r, sc', (es1 ++ es), (S k), j. rewrite E2. simpl events. rewrite <- app_assoc.
      simpl stream_items. simpl stream_end. simpl length.
      split_and!; try done; [lia|lia|congruence|congruence|tauto| | |].
      * rewrite mutation_numbers_app, Hm, Hm1.
        replace (Z.of_nat (S k + j)) with (Z.succ (Z.of_nat (k + j))) by lia.
        rewrite (seqZ_cons (all_mutants sc + 1)) by lia.
        simpl List.filter.
        replace (Z.succ (all_mutants sc + 1)) with (all_mutants sc1 + 1) by lia.
        replace (Z.pred (Z.succ (Z.of_nat (k + j)))) with (Z.of_nat (k + j)) by lia.
        destruct (selected self (all_mutants sc + 1)); done.
      * rewrite mutation_numbers_app, filter_classification_app, !length_app, Hk1, Hm1.
        destruct (selected self (all_mutants sc + 1)); simpl; lia.
      * destruct j as [|j']; [by destruct Hj as [-> ->]|].
        destruct Hj as (Hj1 & e & item' & m & -> & Hl & Hcm & Hts).
        split; [done|]. by exists e, item', m.
  - exists (inl e), sc, [], 0%nat, 0%nat. simpl. rewrite app_nil_r.
    destruct s; simpl in *; subst. split_and!; try done; lia.
Qed.

Lemma sound_score_coverage self coverage sc : sound sc -> sound (score_coverage self coverage sc).
Proof. unfold score_coverage. destruct coverage; [apply sound_update_coverage|done]. Qed.

Lemma all_mutants_score_coverage self coverage sc :
  all_mutants (score_coverage self coverage sc) = all_mutants sc.
Proof. unfold score_coverage. by destruct coverage. Qed.

(** [mutate_module] is its loop, started after the coverage update, or the
    exception raised while the coverage was injected. *)
Lemma mutate_module_unfold self target_module to_mutate total_duration s sc :
  score s = Some sc ->
  mutate_module self target_module to_mutate total_duration s
  = match inject_coverage self (create_ast self target_module) target_module with
    | inr coverage =>
      for_stream
        (mutant_generator self (create_ast self target_module) to_mutate coverage
                          target_module)
        (mutate_module_body self target_module total_duration coverage)
        (mkState (Some (score_coverage self coverage sc)) (events s))
    | inl e => (inl e, s)
    end.
Proof.
  intros E. unfold mutate_module, mbind at 1, C_bind at 1, lift.
  destruct (inject_coverage self (create_ast self target_module) target_module)
    as [e|coverage]; [done|].
  assert ((match coverage with
           | Some cov => let '(covered, all) := coverage_get_result self cov in
                         on_score (update_coverage covered all)
           | None => mret tt
           end) s = (inr tt, mkState (Some (score_coverage self coverage sc)) (events s)))
    as E0.
  { unfold score_coverage. destruct coverage as [cov|].
    - destruct (coverage_get_result self cov) as [covered all].
      by rewrite (on_score_ok _ _ sc E).
    - destruct s; simpl in *; by subst. }
  by rewrite (C_bind_ok _ _ _ _ _ E0).
Qed.

Lemma mutate_module_ok self target_module to_mutate total_duration s sc coverage :
  score s = Some sc ->
  inject_coverage self (create_ast self target_module) target_module = inr coverage ->
  let st := mutant_generator self (create_ast self target_module) to_mutate coverage
              target_module in
  exists r sc' es (k j : nat),
    mutate_module self target_module to_mutate total_duration s
    = (r, mkState (Some sc') (events s ++ es))
    /\ (k + j <= length (stream_items st))%nat
    /\ all_mutants sc' = all_mutants sc + Z.of_nat k
    /\ covered_nodes sc' = covered_nodes (score_coverage self coverage sc)
    /\ all_nodes sc' = all_nodes (score_coverage self coverage sc)
    /\ (sound sc -> sound sc')
    /\ mutation_numbers es
       = List.filter (selected self) (seqZ (all_mutants sc + 1) (Z.of_nat (k + j)))
    /\ (length (List.filter is_classification es) + j)%nat = length (mutation_numbers es)
    /\ match j with
       | 0%nat => r = loop_result (stream_end st) /\ k = length (stream_items st)
       | _ =>
         j = 1%nat
         /\ exists e item mutant_module,
              r = inl e
              /\ stream_items st !! k = Some item
              /\ create_module self (snd item) (module_name self target_module)
                 = inr mutant_module
              /\ test_suite_for self (fst item) coverage mutant_module = inl e
       end.
Proof.
  intros E Ei st. rewrite (mutate_module_unfold _ _ _ _ _ sc E), Ei. fold st.
  destruct (mutate_module_loop self target_module total_duration coverage st
              (mkState (Some (score_coverage self coverage sc)) (events s))
              (score_coverage self coverage sc) eq_refl)
    as (r & sc' & es & k & j & E1 & Hk & Ha & Hc & Hn & Hs & Hm & Hcl & Hj).
  rewrite all_mutants_score_coverage in Ha, Hm.
  exists r, sc', es, k, j. split_and!; try done.
  intros Hsd. by apply Hs, sound_score_coverage.
Qed.


Lemma mutate_module_sound self target_module to_mutate total_duration s sc r s' :
  score s = Some sc -> sound sc ->
  mutate_module self target_module to_mutate total_duration s = (r, s') ->
  exists sc', score s' = Some sc' /\ sound sc'.
Proof.
  intros E Hs.
  destruct (inject_coverage self (create_ast self target_module) target_module)
    as [e|coverage] eqn:Ei.
  - rewrite (mutate_module_unfold _ _ _ _ _ sc E), Ei. intros [= _ <-]. eauto.
  - destruct (mutate_module_ok self target_module to_mutate total_duration s sc coverage
                E Ei) as (r1 & sc' & es & k & j & E1 & _ & _ & _ & _ & Hs' & _).
    rewrite E1. intros [= _ <-]. simpl. eauto.
Qed.

(** ** The loop over the target modules *)

Lemma modules_loop_sound self total_duration (targets : stream error (Mod * option string)) :
  forall s sc r s',
  score s = Some sc -> sound sc ->
  for_stream targets
    (fun '(target_module, to_mutate) =>
       mutate_module self target_module to_mutate total_duration) s = (r, s') ->
  exists sc', score s' = Some sc' /\ sound sc'.
Proof.
  induction targets as [|[target_module to_mutate] rest IH|e]; intros s sc r s' E Hs; simpl.
  - intros [= _ <-]. eauto.
  - unfold mbind, C_bind.
    destruct (mutate_module self target_module to_mutate total_duration s)
      as [[e|[]] s1] eqn:E1;
      destruct (mutate_module_sound _ _ _ _ _ _ _ _ E Hs E1) as (sc1 & Esc1 & Hs1).
    + intros [= _ <-]. eauto.
    + by apply (IH _ sc1).
  - intros [= _ <-]. eauto.
Qed.


Lemma check_tests_state self tests : forall test_modules number total s r s',
  check_tests self tests test_modules number total s = (r, s') -> s' = s.
Proof.
  induction tests as [|[test_module target_test] rest IH|e];
    intros test_modules number total s r s'; simpl.
  - by intros [= _ <-].
  - destruct (run_test self test_module target_test) as [result duration].
    destruct (wasSuccessful result); [apply IH|by intros [= _ <-]].
  - by intros [= _ <-].
Qed.

(** A score left by the mutation process counts mutants. *)
Lemma mutation_process_sound self r s' sc :
  mutation_process self (initialized self) = (r, s') -> score s' = Some sc -> sound sc.
Proof.
  unfold mutation_process, load_and_check_tests.
  unfold mbind at 1, C_bind at 1.
  destruct (check_tests _ _ _ _ _ (initialized self))
    as [[e|[[test_modules total] number]] s1] eqn:E;
    apply check_tests_state in E as ->.
  - by intros [= _ <-].
  - unfold mbind at 1, C_bind at 1, notify at 1.
    unfold mbind at 1, C_bind at 1, notify at 1.
    unfold mbind at 1, C_bind at 1, set_score at 1.
    intros E' Esc.
    eapply (modules_loop_sound self total) in E' as (sc' & Esc' & Hs);
      [|reflexivity|apply sound_init]. congruence.
Qed.


End RunFacts.

Section HighOrderFacts.
Context `{MutationSig} `{ControllerSig}.
Implicit Types (self : MutationController) (mutator : Mutator) (s : cstate).

Lemma apply_mutations_app mutator to_mutate cov module pre : forall post mutant applied gens,
  apply_mutations mutator to_mutate cov module (pre ++ post) mutant applied gens
  = match apply_mutations mutator to_mutate cov module pre mutant applied gens with
    | inr (applied', mutant', gens') =>
      apply_mutations mutator to_mutate cov module post mutant' applied' gens'
    | inl e => inl e
    end.
Proof.
  induction pre as [|m pre IH]; intros post mutant applied gens; simpl; [done|].
  destruct (operator_mutate _ _ _ _ _ _ _ _) as [|[new_mutation mutant'] generator]; [done|].
  apply IH.
Qed.

Lemma mutate_groups_no_mutations mutator to_mutate cov module target_ast pre mutation post
    rest applied mutant gens :
  apply_mutations mutator to_mutate cov module pre target_ast [] []
  = inr (applied, mutant, gens) ->
  operator_mutate mutator (operator mutation) mutant to_mutate true cov module
                  (Some mutation) = [] ->
  mutate_groups mutator to_mutate cov module target_ast
                (Yield (pre ++ mutation :: post) rest)
  = Throw (AssertionError "no mutations!").
Proof.
  intros Hpre Hop. simpl. rewrite apply_mutations_app, Hpre. simpl. by rewrite Hop.
Qed.

(** An exception of the mutant generator, raised after mutants that were
    handled normally, leaves [mutate_module]. *)
Lemma mutate_module_generator_raises self target_module to_mutate total_duration coverage
    done_ e s sc s' :
  score s = Some sc ->
  inject_coverage self (create_ast self target_module) target_module = inr coverage ->
  mutant_generator self (create_ast self target_module) to_mutate coverage target_module
  = stream_app done_ (Throw e) ->
  for_stream (list_stream done_)
    (mutate_module_body self target_module total_duration coverage)
    (mkState (Some (score_coverage self coverage sc)) (events s)) = (inr tt, s') ->
  mutate_module self target_module to_mutate total_duration s = (inl e, s').
Proof.
  intros E Ei Eg Ed.
  by rewrite (mutate_module_unfold _ _ _ _ _ sc E), Ei, Eg, for_stream_app, Ed.
Qed.

(** An exception that [run] has no handler for, raised by [mutate_module]
    after target modules that were handled normally, leaves [run]. *)
Lemma run_module_raises self done_ target_module to_mutate rest e s1 s2 :
  baseline_passes self ->
  target_modules self = stream_app done_ (Yield (target_module, to_mutate) rest) ->
  for_stream (list_stream done_) (module_loop self) (started self) = (inr tt, s1) ->
  mutate_module self target_module to_mutate (baseline_duration self) s1 = (inl e, s2) ->
  run self
  = match e with
    | TestsFailAtOriginal result =>
      mkRun (SysExit (-1))
        (mkState (score s2) (events s2 ++ [notify_original_tests_fail result]))
    | ModulesLoaderException name exc =>
      mkRun (SysExit (-2)) (mkState (score s2) (events s2 ++ [notify_cant_load name exc]))
    | KeyboardInterrupt =>
      match score s2 with
      | Some sc =>
        mkRun Completed
          (mkState (Some sc) (events s2 ++ [notify_end sc (run_duration self)]))
      | None => mkRun (Uncaught (AttributeError "score")) s2
      end
    | _ => mkRun (Uncaught e) s2
    end.
Proof.
  intros Hb Et Ed Em.
  rewrite run_of_mutation_process, (mutation_process_started self Hb), Et.
  rewrite for_stream_app, Ed. simpl for_stream. unfold module_loop at 1.
  unfold mbind, C_bind. rewrite Em. by destruct e.
Qed.

(** C5, as amended.  When, in a group, the operator of a mutation yields
    nothing on the representation the mutations before it have produced,
    [HighOrderMutator.mutate] raises the assertion error [no mutations!] in
    place of that mutant.  The loop of [mutate_module] and [mutate_module]
    itself let an assertion error of the mutant generator through, with the
    score and the notifications as the mutants before left them: the mutant
    is neither classified nor counted, and no later mutant is handled.
    [run_mutation_process] and [run] let it through too: [run] ends with
    the assertion error uncaught, in the state [mutate_module] left, without
    the notification of the end.  In particular, with the high order
    mutator as the generator of the controller, a baseline that passes and
    a first group of the first target module whose mutation finds nothing,
    [run] ends with [no mutations!] uncaught and a score that counts no
    mutant. *)
Theorem no_mutation_assertion_escapes mutator self :
  (forall to_mutate cov module target_ast pre mutation post rest applied mutant gens,
     apply_mutations mutator to_mutate cov module pre target_ast [] []
     = inr (applied, mutant, gens) ->
     operator_mutate mutator (operator mutation) mutant to_mutate true cov module
                     (Some mutation) = [] ->
     mutate_groups mutator to_mutate cov module target_ast
                   (Yield (pre ++ mutation :: post) rest)
     = Throw (AssertionError "no mutations!"))
  /\ (forall target_module total_duration coverage done_ message s s',
        let body := mutate_module_body self target_module total_duration coverage in
        for_stream (list_stream done_) body s = (inr tt, s') ->
        for_stream (stream_app done_ (Throw (AssertionError message))) body s
        = (inl (AssertionError message), s'))
  /\ (forall target_module to_mutate total_duration coverage done_ message s sc s',
        score s = Some sc ->
        inject_coverage self (create_ast self target_module) target_module = inr coverage ->
        mutant_generator self (create_ast self target_module) to_mutate coverage
                         target_module
        = stream_app done_ (Throw (AssertionError message)) ->
        for_stream (list_stream done_)
          (mutate_module_body self target_module total_duration coverage)
          (mkState (Some (score_coverage self coverage sc)) (events s)) = (inr tt, s') ->
        mutate_module self target_module to_mutate total_duration s
        = (inl (AssertionError message), s'))
  /\ (baseline_passes self ->
      forall done_ target_module to_mutate rest message s1 s2,
        target_modules self = stream_app done_ (Yield (target_module, to_mutate) rest) ->
        for_stream (list_stream done_) (module_loop self) (started self) = (inr tt, s1) ->
        mutate_module self target_module to_mutate (baseline_duration self) s1
        = (inl (AssertionError message), s2) ->
        run self = mkRun (Uncaught (AssertionError message)) s2)
  /\ (baseline_passes self ->
      forall target_module to_mutate others coverage pre mutation post rest applied mutant
             gens,
        let target_ast := create_ast self target_module in
        (forall ast name cov module,
           mutant_generator self ast name cov module
           = HighOrderMutator_mutate mutator ast name cov module) ->
        target_modules self = Yield (target_module, to_mutate) others ->
        inject_coverage self target_ast target_module = inr coverage ->
        hom_strategy mutator
          (generate_all_mutations mutator coverage target_module target_ast to_mutate)
        = Yield (pre ++ mutation :: post) rest ->
        apply_mutations mutator to_mutate coverage target_module pre target_ast [] []
        = inr (applied, mutant, gens) ->
        operator_mutate mutator (operator mutation) mutant to_mutate true coverage
                        target_module (Some mutation) = [] ->
        run self
        = mkRun (Uncaught (AssertionError "no mutations!"))
            (mkState (Some (score_coverage self coverage MutationScore_init))
                     (events (started self)))
        /\ all_mutants (score_coverage self coverage MutationScore_init) = 0
        /\ incompetent_mutants (score_coverage self coverage MutationScore_init) = 0).
Proof.
  split_and!.
  - intros to_mutate cov module target_ast pre mutation post rest applied mutant gens Hpre Hop.
    by eapply mutate_groups_no_mutations.
  - intros target_module total_duration coverage done_ message s s' body E.
    by rewrite for_stream_app, E.
  - intros target_module to_mutate total_duration coverage done_ message s sc s' E Ei Eg Ed.
    by eapply mutate_module_generator_raises.
  - intros Hb done_ target_module to_mutate rest message s1 s2 Et Ed Em.
    by rewrite (run_module_raises self done_ target_module to_mutate rest _ s1 s2 Hb Et Ed Em).
  - intros Hb target_module to_mutate others coverage pre mutation post rest applied mutant
      gens target_ast Hgen Et Ei Eh Hpre Hop.
    split; [|by unfold score_coverage; destruct coverage as [cov|];
              [destruct (coverage_get_result self cov)|]].
    rewrite (run_module_raises self [] target_module to_mutate others
               (AssertionError "no mutations!") (started self)
               (mkState (Some (score_coverage self coverage MutationScore_init))
                        (events (started self))) Hb Et eq_refl); [done|].
    apply (mutate_module_generator_raises self target_module to_mutate
             (baseline_duration self) coverage [] _ (started self) MutationScore_init);
      [done|done| |done].
    rewrite Hgen. unfold HighOrderMutator_mutate. fold target_ast. rewrite Eh.
    by eapply mutate_groups_no_mutations.
Qed.

End HighOrderFacts.

Section Examples.
#[local] Existing Instance example_sig.
#[local] Existing Instance example_controller_sig.

Example forgetful_run :
  run (example_controller (HighOrderMutator_mutate forgetful_mutator) None true)
  = mkRun (Uncaught (AssertionError "no mutations!"))
      (mkState (Some MutationScore_init)
         [notify_initialize ["target"%string] ["test_target"%string];
          notify_passed [("test_target"%string, EmptyString, 1 # 2)] 3;
          notify_start]).
Proof. vm_compute. reflexivity. Qed.

Example example_high_order_run :
  let r := run (example_controller (HighOrderMutator_mutate example_mutator) None true) in
  run_exit r = Completed
  /\ (score (run_state r)) = Some (mkScore 3 0 0 0 0 0).
Proof. vm_compute. split; reflexivity. Qed.

End Examples.

Section Witnesses.
#[local] Existing Instance example_sig.
#[local] Existing Instance example_controller_sig.

Lemma count_formula_witness :
  all_mutants (mkScore 3 1 2 4 0 0) - incompetent_mutants (mkScore 3 1 2 4 0 0) <> 0
  /\ count (mkScore 3 1 2 4 0 0) = ((inject_Z 4 / inject_Z 8) * 100)%Q
  /\ all_mutants (mkScore 0 0 5 0 0 0) = incompetent_mutants (mkScore 0 0 5 0 0 0)
  /\ count (mkScore 0 0 5 0 0 0) = 0%Q.
Proof.
  split; [vm_compute; discriminate|]. split.
  - apply (proj1 (count_formula (mkScore 3 1 2 4 0 0))). vm_compute; discriminate.
  - split; [reflexivity|].
    apply (proj1 (proj2 (count_formula (mkScore 0 0 5 0 0 0)))). reflexivity.
Defined.

Lemma classification_counts_once_witness :
  score (mkState (Some MutationScore_init) []) = Some MutationScore_init
  /\ exists sc' e (i : nat) x,
       update_score_and_notify_views None (1 # 4) (mkState (Some MutationScore_init) [])
       = (inr tt, mkState (Some sc') ([] ++ [e]))
       /\ is_classification e = true
       /\ counters MutationScore_init !! i = Some x
       /\ counters sc' = <[i := x + 1]> (counters MutationScore_init)
       /\ covered_nodes sc' = covered_nodes MutationScore_init
       /\ all_nodes sc' = all_nodes MutationScore_init
       /\ all_mutants sc' = all_mutants MutationScore_init + 1.
Proof.
  split; [reflexivity|].
  apply (proj1 (classification_counts_once (H := example_sig) (H0 := example_controller_sig))
           None (1 # 4) (mkState (Some MutationScore_init) []) MutationScore_init).
  reflexivity.
Defined.

Lemma groups_non_conflicting_witness :
  [example_mutations] !! 0%nat = Some example_mutations
  /\ [(0, 0, 1); (5, 2, 4)]%nat
     ∈ groups (consume (FirstToLastHOMStrategy.next 2) 4
                 (FirstToLastHOMStrategy.generate 0%nat) [example_mutations])
  /\ non_conflicting [(0, 0, 1); (5, 2, 4)]%nat.
Proof.
  assert ([(0, 0, 1); (5, 2, 4)]%nat
          ∈ groups (consume (FirstToLastHOMStrategy.next 2) 4
                      (FirstToLastHOMStrategy.generate 0%nat) [example_mutations])) as Hin.
  { apply list_elem_of_In. vm_compute. left. reflexivity. }
  split; [reflexivity|]. split; [exact Hin|].
  exact (proj1 (groups_non_conflicting (H := example_sig) 2 reverse [example_mutations] 0%nat
                  example_mutations 4 _ eq_refl) Hin).
Defined.

Lemma example_mutations_NoDup : NoDup example_mutations.
Proof. refine (bool_decide_unpack _ _). vm_compute. exact I. Qed.

Lemma groups_cover_input_witness :
  0 < 2
  /\ [example_mutations] !! 0%nat = Some example_mutations
  /\ reverse example_mutations ≡ₚ example_mutations
  /\ NoDup example_mutations
  /\ concat (groups (consume (EachChoiceHOMStrategy.next 2) 7
                       (EachChoiceHOMStrategy.generate 0%nat) [example_mutations]))
     ≡ₚ example_mutations
  /\ concat (groups (consume (RandomHOMStrategy.next 2 reverse) 7
                       (RandomHOMStrategy.generate 0%nat) [example_mutations]))
     ≡ₚ example_mutations
  /\ ended (consume (BetweenOperatorsHOMStrategy.next 2) 7
              (BetweenOperatorsHOMStrategy.generate 0%nat) [example_mutations])
     = Exhausted.
Proof.
  pose proof (groups_cover_input (H := example_sig) 2 reverse [example_mutations] 0%nat
                example_mutations ltac:(lia) eq_refl) as (_ & HEC & HR & HBO).
  split; [lia|]. split; [reflexivity|].
  split; [apply reverse_Permutation|]. split; [apply example_mutations_NoDup|].
  split; [apply HEC|]. split; [apply HR, reverse_Permutation|].
  apply HBO, example_mutations_NoDup.
Defined.

Lemma mutation_number_filter_skips_witness :
  let self := example_controller (FirstOrderMutator_mutate example_mutator) (Some 2) true in
  let s := mkState (Some MutationScore_init) [] in
  score s = Some MutationScore_init
  /\ mutation_number self = Some 2
  /\ 2 <> 0
  /\ 2 <> all_mutants MutationScore_init + 1
  /\ mutate_module_body self "target"%string (1 # 2) None ([(0, 0, 1)%nat], [1%nat]) s
     = (inr tt, mkState (Some (mkScore 0 0 1 0 0 0)) []).
Proof.
  cbv zeta.
  split; [reflexivity|]. split; [reflexivity|]. split; [discriminate|].
  split; [vm_compute; discriminate|].
  apply (mutation_number_filter_skips
           (example_controller (FirstOrderMutator_mutate example_mutator) (Some 2) true)
           "target"%string (1 # 2) None [(0, 0, 1)%nat] [1%nat] Stop
           (mkState (Some MutationScore_init) []) MutationScore_init 2);
    [reflexivity|reflexivity|discriminate|vm_compute; discriminate].
Defined.


Lemma live_time_scales_witness :
  (1 < 3)%Q
  /\ live_time 5 3 = (5 * 3)%Q
  /\ (1 # 2 <= 1)%Q
  /\ (live_time 5 (1 # 2) == 5)%Q.
Proof.
  split; [reflexivity|]. split.
  - apply (proj1 (proj2 (live_time_scales
             (example_controller (FirstOrderMutator_mutate example_mutator) None true)
             "suite"%string 3))). reflexivity.
  - split; [discriminate|].
    apply (proj1 (proj2 (proj2 (live_time_scales
             (example_controller (FirstOrderMutator_mutate example_mutator) None true)
             "suite"%string (1 # 2))))). discriminate.
Defined.

Lemma example_baseline_passes mutant_generator mutation_number :
  baseline_passes (example_controller mutant_generator mutation_number true).
Proof. split; [repeat constructor|reflexivity]. Qed.





Lemma generate_deterministic_witness :
  [example_mutations] !! 0%nat = Some example_mutations
  /\ [[]; example_mutations; []] !! 1%nat = Some example_mutations
  /\ groups (consume (EachChoiceHOMStrategy.next 2) 7
               (EachChoiceHOMStrategy.generate 0%nat) [example_mutations])
     = groups (consume (EachChoiceHOMStrategy.next 2) 7
                 (EachChoiceHOMStrategy.generate 1%nat) [[]; example_mutations; []]).
Proof.
  split; [reflexivity|]. split; [reflexivity|].
  apply (proj1 (generate_deterministic (H := example_sig) 2 reverse reverse
                  [example_mutations] [[]; example_mutations; []] 0%nat 1%nat
                  example_mutations 7 eq_refl eq_refl)).
Defined.

Lemma generate_keeps_input_witness :
  [example_mutations] !! 0%nat = Some example_mutations
  /\ final_store (consume (BetweenOperatorsHOMStrategy.next 2) 7
                    (BetweenOperatorsHOMStrategy.generate 0%nat) [example_mutations])
       !! 0%nat = Some example_mutations.
Proof.
  split; [reflexivity|].
  apply (proj1 (proj2 (proj2 (proj1 (generate_keeps_input (H := example_sig) 2 reverse
                  [example_mutations] 0%nat example_mutations 7 eq_refl))))).
Defined.

Lemma no_mutation_assertion_escapes_witness :
  let self := example_controller (HighOrderMutator_mutate forgetful_mutator) None true in
  operator_mutate forgetful_mutator 0%nat [] None true None "target"%string
                  (Some (0, 0, 1)%nat) = []
  /\ mutate_groups forgetful_mutator None None "target"%string []
       (Yield ([] ++ (0, 0, 1)%nat :: [(5, 2, 4)%nat]) Stop)
     = Throw (AssertionError "no mutations!")
  /\ baseline_passes self
  /\ target_modules self = Yield ("target"%string, None) Stop
  /\ inject_coverage self (create_ast self "target"%string) "target"%string = inr None
  /\ run self
     = mkRun (Uncaught (AssertionError "no mutations!"))
         (mkState (Some (score_coverage self None MutationScore_init))
                  (events (started self)))
  /\ all_mutants (score_coverage self None MutationScore_init) = 0
  /\ incompetent_mutants (score_coverage self None MutationScore_init) = 0.
Proof.
  cbv zeta. split; [reflexivity|]. split.
  { apply (proj1 (no_mutation_assertion_escapes forgetful_mutator
             (example_controller (HighOrderMutator_mutate forgetful_mutator) None true))
             None None "target"%string [] [] (0, 0, 1)%nat [(5, 2, 4)%nat] Stop [] [] []);
      reflexivity. }
  split; [apply example_baseline_passes|]. split; [reflexivity|]. split; [reflexivity|].
  apply (proj2 (proj2 (proj2 (proj2
           (no_mutation_assertion_escapes forgetful_mutator
              (example_controller (HighOrderMutator_mutate forgetful_mutator) None true)))))
           (example_baseline_passes _ _)
           "target"%string None Stop None [] (0, 0, 1)%nat [(5, 2, 4)%nat]
           (match hom_strategy forgetful_mutator
                    (generate_all_mutations forgetful_mutator None "target"%string [] None)
            with
            | Yield _ rest => rest
            | _ => Stop
            end)
           [] [] []); reflexivity.
Defined.

(** The counterexample to C5. *)
Lemma reapplication_failure_crashes_run :
  let self := example_controller (HighOrderMutator_mutate forgetful_mutator) None true in
  operator_mutate forgetful_mutator 0%nat [] None true None "target"%string
                  (Some (0, 0, 1)%nat) = []
  /\ run self
     = mkRun (Uncaught (AssertionError "no mutations!"))
         (mkState (Some MutationScore_init)
            [notify_initialize ["target"%string] ["test_target"%string];
             notify_passed [("test_target"%string, EmptyString, 1 # 2)] 3;
             notify_start])
  /\ incompetent_mutants MutationScore_init = 0
  /\ all_mutants MutationScore_init = 0.
Proof. cbv zeta. split; [reflexivity|]. split; [vm_compute; reflexivity|]. split; reflexivity. Qed.


End Witnesses.

(* ===================================================================== *)
(** * Part IV.  Further properties                                        *)
(* ===================================================================== *)

(** ** Further properties of the score *)

Section ScoreFacts.

Lemma count_positive_bottom (s : MutationScore) :
  0 < all_mutants s - incompetent_mutants s ->
  count s = ((inject_Z (killed_mutants s + timeout_mutants s)
              / inject_Z (all_mutants s - incompetent_mutants s)) * 100)%Q.
Proof.
  intros Hb. unfold count.
  destruct (Z.eqb_spec (all_mutants s - incompetent_mutants s) 0); [lia|reflexivity].
Qed.

Lemma ratio_bounds (a b : Z) :
  0 <= a <= b -> 0 < b ->
  (0 <= inject_Z a / inject_Z b * 100)%Q /\ (inject_Z a / inject_Z b * 100 <= 100)%Q.
Proof.
  intros [Ha Hab] Hb.
  assert (0 < inject_Z b)%Q as Hb' by (unfold Qlt; simpl; lia).
  assert (0 <= inject_Z a)%Q as Ha' by (unfold Qle; simpl; lia).
  assert (inject_Z a <= inject_Z b)%Q as Hab' by (unfold Qle; simpl; lia).
  assert (0 <= inject_Z a / inject_Z b)%Q as H0.
  { apply Qle_shift_div_l; [exact Hb'|]. rewrite Qmult_0_l. exact Ha'. }
  assert (inject_Z a / inject_Z b <= 1)%Q as H1.
  { apply Qle_shift_div_r; [exact Hb'|]. rewrite Qmult_1_l. exact Hab'. }
  split.
  - apply Qmult_le_0_compat; [exact H0|discriminate].
  - apply (Qle_trans _ (1 * 100)%Q); [|discriminate].
    apply Qmult_le_compat_r; [exact H1|discriminate].
Qed.

(** X2.  The score is a percentage: whatever the number of incompetent mutants,
    as long as the three other counters are not negative, [count] is
    between [0] and [100]. *)
Theorem count_is_percentage (s : MutationScore) :
  0 <= killed_mutants s -> 0 <= timeout_mutants s -> 0 <= survived_mutants s ->
  (0 <= count s)%Q /\ (count s <= 100)%Q.
Proof.
  intros Hk Ht Hs.
  destruct (Z.eq_dec (all_mutants s - incompetent_mutants s) 0) as [E|E].
  - unfold count. rewrite (proj2 (Z.eqb_eq _ _) E). split; discriminate.
  - assert (0 < all_mutants s - incompetent_mutants s) as Hb
      by (unfold all_mutants in *; lia).
    rewrite (count_positive_bottom s Hb).
    apply ratio_bounds; [unfold all_mutants; lia|exact Hb].
Qed.

Lemma ratio_le (a b c d : Z) :
  0 < b -> 0 < d -> a * d <= c * b ->
  (inject_Z a / inject_Z b * 100 <= inject_Z c / inject_Z d * 100)%Q.
Proof.
  intros Hb Hd H. apply Qmult_le_compat_r; [|discriminate].
  destruct b as [|p|p]; try lia. destruct d as [|q|q]; try lia.
  unfold Qle, Qdiv, Qmult, Qinv, inject_Z. simpl.
  rewrite !Z.mul_1_r. exact H.
Qed.

Lemma ratio_eq_100 (a b : Z) :
  0 < b -> (inject_Z a / inject_Z b * 100 == 100)%Q <-> a = b.
Proof.
  intros Hb. destruct b as [|p|p]; try lia.
  unfold Qeq, Qdiv, Qmult, Qinv, inject_Z. simpl. lia.
Qed.

Lemma ratio_eq_0 (a b : Z) :
  0 < b -> (inject_Z a / inject_Z b * 100 == 0)%Q <-> a = 0.
Proof.
  intros Hb. destruct b as [|p|p]; try lia.
  unfold Qeq, Qdiv, Qmult, Qinv, inject_Z. simpl. lia.
Qed.

(** X3.  Incompetent mutants and coverage are outside the score: counting one
    more incompetent mutant, or adding to the coverage totals, leaves
    [count] as it is.  With counters that are not negative, one more killed
    or timed out mutant does not lower it and one more survivor does not
    raise it. *)
Theorem count_moves (s : MutationScore) (covered all : Z) :
  count (inc_incompetent s) = count s
  /\ count (update_coverage covered all s) = count s
  /\ (0 <= killed_mutants s -> 0 <= timeout_mutants s -> 0 <= survived_mutants s ->
      (count s <= count (inc_killed s))%Q
      /\ (count s <= count (inc_timeout s))%Q
      /\ (count (inc_survived s) <= count s)%Q).
Proof.
  split; [|split].
  - unfold count.
    replace (all_mutants (inc_incompetent s) - incompetent_mutants (inc_incompetent s))
      with (all_mutants s - incompetent_mutants s) by (unfold all_mutants; simpl; lia).
    reflexivity.
  - reflexivity.
  - intros Hk Ht Hs.
    assert (0 < all_mutants (inc_killed s) - incompetent_mutants (inc_killed s)) as Bk
      by (unfold all_mutants; simpl; lia).
    assert (0 < all_mutants (inc_timeout s) - incompetent_mutants (inc_timeout s)) as Bt
      by (unfold all_mutants; simpl; lia).
    assert (0 < all_mutants (inc_survived s) - incompetent_mutants (inc_survived s)) as Bs
      by (unfold all_mutants; simpl; lia).
    rewrite (count_positive_bottom _ Bk), (count_positive_bottom _ Bt),
      (count_positive_bottom _ Bs).
    destruct (Z.eq_dec (all_mutants s - incompetent_mutants s) 0) as [E|E].
    + unfold count. rewrite (proj2 (Z.eqb_eq _ _) E).
      repeat split.
      * apply ratio_bounds; [unfold all_mutants in *; simpl; lia|exact Bk].
      * apply ratio_bounds; [unfold all_mutants in *; simpl; lia|exact Bt].
      * apply Qle_lteq. right. apply ratio_eq_0; [exact Bs|].
        unfold all_mutants in *. simpl. lia.
    + assert (0 < all_mutants s - incompetent_mutants s) as Hb
        by (unfold all_mutants in *; lia).
      rewrite (count_positive_bottom s Hb).
      repeat split; (apply ratio_le; [assumption|assumption|]);
        unfold all_mutants in *; simpl; nia.
Qed.

(** X4.  When no mutant survived and at least one was killed or timed out, the
    score is [100]; when none was killed or timed out, it is [0], whatever
    the other counters are. *)
Theorem count_extremes (s : MutationScore) :
  (0 < killed_mutants s + timeout_mutants s -> survived_mutants s = 0 ->
   (count s == 100)%Q)
  /\ (killed_mutants s + timeout_mutants s = 0 -> (count s == 0)%Q).
Proof.
  split.
  - intros Hpos Hs.
    assert (0 < all_mutants s - incompetent_mutants s) as Hb
      by (unfold all_mutants; lia).
    rewrite (count_positive_bottom s Hb). apply (ratio_eq_100 _ _ Hb).
    unfold all_mutants. lia.
  - intros Hz. unfold count.
    destruct (all_mutants s - incompetent_mutants s =? 0); [reflexivity|].
    rewrite Hz. unfold Qdiv. by rewrite !Qmult_0_l.
Qed.

End ScoreFacts.

(** ** Further properties of the strategies *)

Section GroupShape.
Context `{MutationSig}.
Variable order : Z.
Implicit Types (σ : list (list Mutation)) (ms ts avail nu muts g : list Mutation)
  (x y : Mutation) (usage : gmap Mutation Z).

(** ** What every group of a sequence satisfies *)

Lemma run_groups_all (P : list Mutation -> Prop) toggle :
  (forall ms, ms ≠ [] -> P (snd (group_step order toggle ms))) ->
  forall n ms g, g ∈ fst (run_groups order toggle n ms) -> P g.
Proof.
  intros HP. induction n as [|n IH]; intros ms g; simpl; [by intros ?%elem_of_nil|].
  destruct ms as [|x ms]; [by intros ?%elem_of_nil|].
  pose proof (HP (x :: ms) ltac:(done)) as Hg.
  destruct (group_step order toggle (x :: ms)) as [ms' g'].
  specialize (IH ms' g).
  destruct (run_groups order toggle n ms') as [gs e]. simpl in *.
  intros [-> | Hin]%elem_of_cons; auto.
Qed.

Lemma grouping_stop toggle fuel ms ts avail index :
  bool_decide (Z.of_nat (length ts) < order) && bool_decide (length avail ≠ 0%nat) = false ->
  grouping order toggle fuel ms ts avail index = (ms, ts, avail).
Proof. intros E. destruct fuel; simpl; by rewrite E. Qed.

Lemma grouping_at_most toggle fuel : forall ms ts avail index,
  Z.of_nat (length (snd (fst (grouping order toggle fuel ms ts avail index))))
  <= Z.max order (Z.of_nat (length ts)).
Proof.
  induction fuel as [|fuel IH]; intros ms ts avail index; simpl.
  - destruct (_ && _); simpl; lia.
  - destruct (bool_decide (Z.of_nat (length ts) < order) && _) eqn:E; [|simpl; lia].
    apply andb_true_iff in E as [E _]. apply bool_decide_eq_true in E.
    destruct (py_pop index avail) as [[x avail']|]; [|simpl; lia].
    destruct (py_remove x ms) as [ms'|]; [|simpl; lia].
    etransitivity; [apply IH|]. rewrite length_app. simpl. lia.
Qed.

Lemma group_step_at_most toggle ms :
  Z.of_nat (length (snd (group_step order toggle ms))) <= Z.max order 0.
Proof.
  unfold group_step.
  pose proof (grouping_at_most toggle (length ms) ms [] ms 0) as Hl.
  destruct (grouping order toggle (length ms) ms [] ms 0) as [[ms' ts'] a]. done.
Qed.

Lemma group_step_nonpositive toggle ms : order <= 0 -> group_step order toggle ms = (ms, []).
Proof.
  intros Ho. unfold group_step. rewrite grouping_stop; [done|].
  apply andb_false_iff. left. apply bool_decide_eq_false. simpl. lia.
Qed.

Lemma run_groups_nonpositive toggle n : forall ms,
  order <= 0 -> ms ≠ [] -> run_groups order toggle n ms = (replicate n [], Unfinished).
Proof.
  induction n as [|n IH]; intros ms Ho Hms; simpl; [done|].
  destruct ms as [|x ms]; [done|].
  rewrite (group_step_nonpositive _ _ Ho), (IH _ Ho Hms). done.
Qed.

(** ** The same for [BetweenOperators] *)

Lemma bo_grouping_stop fuel usage nu ts avail :
  bool_decide (Z.of_nat (length ts) < order) && bool_decide (length avail ≠ 0%nat) = false ->
  bo_grouping order fuel usage nu ts avail = (usage, nu, ts, avail).
Proof. intros E. destruct fuel; simpl; by rewrite E. Qed.

Lemma bo_grouping_at_most fuel : forall usage nu ts avail,
  Z.of_nat (length (snd (fst (bo_grouping order fuel usage nu ts avail))))
  <= Z.max order (Z.of_nat (length ts)).
Proof.
  induction fuel as [|fuel IH]; intros usage nu ts avail; simpl.
  - destruct (_ && _); simpl; lia.
  - destruct (bool_decide (Z.of_nat (length ts) < order) && _) eqn:E; [|simpl; lia].
    apply andb_true_iff in E as [E _]. apply bool_decide_eq_true in E.
    destruct avail as [|x avail']; [simpl; lia|].
    destruct (usage !! x) as [u|]; [|simpl; lia].
    destruct (if bool_decide (u = 0) then py_remove x nu else Some nu) as [nu'|];
      [|simpl; lia].
    etransitivity; [apply IH|]. rewrite length_app. simpl. lia.
Qed.

Lemma bo_grouping_grows fuel : forall usage nu ts avail,
  (length ts <= length (snd (fst (bo_grouping order fuel usage nu ts avail))))%nat.
Proof.
  induction fuel as [|fuel IH]; intros usage nu ts avail; simpl.
  - by destruct (_ && _).
  - destruct (_ && _); [|done].
    destruct avail as [|x avail']; [done|].
    destruct (usage !! x) as [u|]; [|done].
    destruct (if bool_decide (u = 0) then py_remove x nu else Some nu) as [nu'|]; [|done].
    etransitivity; [|apply IH]. rewrite length_app. simpl. lia.
Qed.

Lemma bo_grouping_not_used_from fuel : forall usage nu ts avail y,
  y ∈ snd (fst (fst (bo_grouping order fuel usage nu ts avail))) -> y ∈ nu.
Proof.
  induction fuel as [|fuel IH]; intros usage nu ts avail y; simpl.
  - by destruct (_ && _).
  - destruct (_ && _); [|done].
    destruct avail as [|x avail']; [done|].
    destruct (usage !! x) as [u|]; [|done].
    destruct (bool_decide (u = 0)).
    + destruct (py_remove x nu) as [nu'|] eqn:R; [|done].
      intros Hy%IH. rewrite (py_remove_Permutation _ _ _ R). by right.
    + apply IH.
Qed.

Lemma tracked_usage0 muts : tracked muts (usage0 muts) muts.
Proof. split; [apply counted_usage0|done]. Qed.

Lemma bo_step_tracked muts usage nu :
  tracked muts usage nu ->
  match bo_step order usage nu muts with (usage', nu', _) => tracked muts usage' nu' end.
Proof.
  intros [Hc Hs].
  pose proof (bo_step_counted order muts usage nu Hc) as Hc'.
  unfold bo_step in *.
  pose proof (bo_grouping_not_used_from
                (length (py_sort_by (usage_key usage) muts)) usage nu []
                (py_sort_by (usage_key usage) muts)) as Hn.
  destruct (bo_grouping order _ usage nu [] _) as [[[usage' nu'] ts'] a].
  simpl in Hn. split; [done|]. intros y Hy. apply Hs, Hn, Hy.
Qed.

Lemma bo_step_at_most usage nu muts :
  Z.of_nat (length (snd (bo_step order usage nu muts))) <= Z.max order 0.
Proof.
  unfold bo_step.
  pose proof (bo_grouping_at_most (length (py_sort_by (usage_key usage) muts)) usage nu []
                (py_sort_by (usage_key usage) muts)) as Hl.
  destruct (bo_grouping order _ usage nu [] _) as [[[usage' nu'] ts'] a]. done.
Qed.

Lemma bo_step_nonempty muts usage nu :
  tracked muts usage nu -> nu ≠ [] -> 0 < order ->
  snd (bo_step order usage nu muts) ≠ [].
Proof.
  intros [Hc Hs] Hnu Ho. unfold bo_step.
  pose proof (py_sort_by_Permutation (usage_key usage) muts) as Hp.
  destruct (py_sort_by (usage_key usage) muts) as [|x avail'] eqn:Es.
  { destruct nu as [|y nu]; [done|]. exfalso.
    assert (y ∈ muts) as Hy by (apply Hs; left).
    rewrite <- Hp in Hy. by apply elem_of_nil in Hy. }
  assert (x ∈ muts) as Hx by (rewrite <- Hp; left).
  destruct (Hc x Hx) as (u & Eu & Hu0 & Hin).
  simpl length. rewrite bo_grouping_S.
  rewrite andb_true_intro;
    [|split; apply bool_decide_eq_true; simpl; [lia|done]].
  rewrite Eu.
  assert (exists nu', (if bool_decide (u = 0) then py_remove x nu else Some nu) = Some nu')
    as [nu' ->].
  { case_bool_decide as Hz; [|eauto].
    destruct (py_remove_Some x nu (Hin Hz)) as (nu' & -> & _). eauto. }
  pose proof (bo_grouping_grows (length avail') (<[x:=u + 1]> usage) nu' ([] ++ [x])
                (filter (compatible false ([] ++ [x])) avail')) as Hl.
  destruct (bo_grouping order _ _ nu' _ _) as [[[usage' nu''] ts'] a].
  simpl in *. intros ->. simpl in Hl. lia.
Qed.

Lemma bo_run_all (P : list Mutation -> Prop) muts :
  (forall usage nu, tracked muts usage nu -> nu ≠ [] ->
     P (snd (bo_step order usage nu muts))) ->
  forall n usage nu g, tracked muts usage nu ->
    g ∈ fst (fst (bo_run order n usage nu muts)) -> P g.
Proof.
  intros HP. induction n as [|n IH]; intros usage nu g Ht; simpl;
    [by intros ?%elem_of_nil|].
  destruct nu as [|y0 nu0]; [by intros ?%elem_of_nil|].
  pose proof (HP usage (y0 :: nu0) Ht ltac:(done)) as Hg.
  pose proof (bo_step_tracked muts usage (y0 :: nu0) Ht) as Ht'.
  destruct (bo_step order usage (y0 :: nu0) muts) as [[usage' nu'] g'].
  specialize (IH usage' nu' g Ht').
  destruct (bo_run order n usage' nu' muts) as [[gs e] u]. simpl in *.
  intros [-> | Hin]%elem_of_cons; auto.
Qed.

Lemma bo_step_nonpositive usage nu muts :
  order <= 0 -> bo_step order usage nu muts = (usage, nu, []).
Proof.
  intros Ho. unfold bo_step. rewrite bo_grouping_stop; [done|].
  apply andb_false_iff. left. apply bool_decide_eq_false. simpl. lia.
Qed.

Lemma bo_run_nonpositive muts n : forall usage nu,
  order <= 0 -> nu ≠ [] ->
  fst (bo_run order n usage nu muts) = (replicate n [], Unfinished).
Proof.
  induction n as [|n IH]; intros usage nu Ho Hnu; simpl; [done|].
  destruct nu as [|x nu]; [done|].
  rewrite (bo_step_nonpositive _ _ _ Ho).
  specialize (IH usage (x :: nu) Ho Hnu).
  destruct (bo_run order n usage (x :: nu) muts) as [[gs e] u].
  simpl in *. by inversion IH.
Qed.

Lemma group_step_well_sized toggle ms :
  ms ≠ [] -> well_sized order (snd (group_step order toggle ms)).
Proof.
  intros Hms. split; [apply group_step_at_most|].
  intros Ho. by apply group_step_progress.
Qed.

Lemma bo_step_well_sized muts usage nu :
  tracked muts usage nu -> nu ≠ [] -> well_sized order (snd (bo_step order usage nu muts)).
Proof.
  intros Ht Hnu. split; [apply bo_step_at_most|].
  intros Ho. by apply (bo_step_nonempty muts).
Qed.

(** ** Groups of one *)

Lemma group_step_one toggle x ms :
  order = 1 -> group_step order toggle (x :: ms) = (ms, [x]).
Proof.
  intros Ho. unfold group_step. simpl length. rewrite grouping_S.
  rewrite andb_true_intro;
    [|split; apply bool_decide_eq_true; simpl; [lia|done]].
  rewrite py_pop_front. simpl py_remove. rewrite decide_True by done.
  rewrite grouping_stop; [done|].
  apply andb_false_iff. left. apply bool_decide_eq_false. simpl. lia.
Qed.

Lemma run_groups_one toggle : forall ms,
  order = 1 ->
  run_groups order toggle (S (length ms)) ms = ((fun x => [x]) <$> ms, Exhausted).
Proof.
  induction ms as [|x ms IH]; intros Ho; [done|].
  change (run_groups order toggle (S (length (x :: ms))) (x :: ms))
    with (let '(ms', g) := group_step order toggle (x :: ms) in
          let '(gs, e) := run_groups order toggle (S (length ms)) ms' in (g :: gs, e)).
  rewrite (group_step_one _ _ _ Ho), (IH Ho). done.
Qed.

(** ** Different operators in the groups of [BetweenOperators] *)

Lemma bad_false_operator x y : bad false x y = false -> operator x ≠ operator y.
Proof.
  unfold bad. rewrite !orb_false_iff. simpl. intros [_ Ho].
  by apply bool_decide_eq_false in Ho.
Qed.

Lemma distinct_operators_nil : distinct_operators [].
Proof. intros i j x y _ Hi. by rewrite lookup_nil in Hi. Qed.

Lemma distinct_operators_snoc ts x :
  distinct_operators ts -> (forall u, u ∈ ts -> operator u ≠ operator x) ->
  distinct_operators (ts ++ [x]).
Proof.
  intros Hts Hx i j a b Hij Hi Hj.
  apply lookup_snoc_Some in Hi as [[Hil Hi] | [-> ->]];
    apply lookup_snoc_Some in Hj as [[Hjl Hj] | [-> ->]].
  - by eapply Hts.
  - apply Hx. by eapply list_elem_of_lookup_2.
  - intros Hc. symmetry in Hc. revert Hc. apply Hx. by eapply list_elem_of_lookup_2.
  - done.
Qed.

Lemma bo_grouping_distinct_operators fuel : forall usage nu ts avail,
  distinct_operators ts -> (forall y, y ∈ avail -> compatible false ts y) ->
  distinct_operators (snd (fst (bo_grouping order fuel usage nu ts avail))).
Proof.
  induction fuel as [|fuel IH]; intros usage nu ts avail Hts Hav; simpl.
  - by destruct (_ && _).
  - destruct (_ && _); [|done].
    destruct avail as [|x avail']; [done|].
    destruct (usage !! x) as [u|]; [|done].
    destruct (if bool_decide (u = 0) then py_remove x nu else Some nu) as [nu'|]; [|done].
    apply IH.
    + apply distinct_operators_snoc; [done|].
      intros v Hv. apply bad_false_operator.
      assert (compatible false ts x) as Hx by (apply Hav; left).
      unfold compatible in Hx. rewrite Forall_forall in Hx. by apply Hx.
    + by intros y [Hc _]%list_elem_of_filter.
Qed.

Lemma bo_step_distinct_operators usage nu muts :
  distinct_operators (snd (bo_step order usage nu muts)).
Proof.
  unfold bo_step.
  pose proof (bo_grouping_distinct_operators
                (length (py_sort_by (usage_key usage) muts)) usage nu []
                (py_sort_by (usage_key usage) muts) distinct_operators_nil) as Hd.
  destruct (bo_grouping order _ usage nu [] _) as [[[usage' nu'] ts'] a].
  apply Hd. intros y _. apply Forall_nil_2.
Qed.

End GroupShape.

Section StrategyShape.
Context `{MutationSig}.

(** X5.  Every group of every strategy has at most [order] mutations, and at
    least one when [order] is positive: a strategy never hands over more
    mutations than the order asks for, nor an empty group. *)
Theorem groups_well_sized order shuffler σ l mutations (n : nat) g :
  σ !! l = Some mutations ->
  (g ∈ groups (consume (FirstToLastHOMStrategy.next order) n
                 (FirstToLastHOMStrategy.generate l) σ) -> well_sized order g)
  /\ (g ∈ groups (consume (EachChoiceHOMStrategy.next order) n
                    (EachChoiceHOMStrategy.generate l) σ) -> well_sized order g)
  /\ (g ∈ groups (consume (BetweenOperatorsHOMStrategy.next order) n
                    (BetweenOperatorsHOMStrategy.generate l) σ) -> well_sized order g)
  /\ (g ∈ groups (consume (RandomHOMStrategy.next order shuffler) n
                    (RandomHOMStrategy.generate l) σ) -> well_sized order g).
Proof.
  intros E.
  destruct (FirstToLast_sees order n σ l mutations E) as (-> & _).
  destruct (EachChoice_sees order n σ l mutations E) as (-> & _).
  destruct (Random_sees order shuffler n σ l mutations E) as (-> & _).
  pose proof (BetweenOperators_sees order n σ l mutations E) as B. cbv zeta in B.
  pose proof (bo_run_all order (well_sized order) mutations
                (bo_step_well_sized order mutations) n (usage0 mutations) mutations g
                (tracked_usage0 mutations)) as Hbo.
  destruct (bo_run order n (usage0 mutations) mutations mutations) as [[gs e] u].
  destruct B as (-> & _). simpl in Hbo.
  split; [|split; [|split]]; [| |exact Hbo|];
    apply run_groups_all; apply group_step_well_sized.
Qed.

(** X6.  With an order of [0] or less no strategy ever takes a mutation: on an
    input that is not empty its generator hands over an empty group at every
    request and is never exhausted, however many items are asked for. *)
Theorem nonpositive_order_never_ends order shuffler σ l mutations (n : nat) :
  order <= 0 -> σ !! l = Some mutations -> mutations ≠ [] ->
  (let c := consume (FirstToLastHOMStrategy.next order) n
              (FirstToLastHOMStrategy.generate l) σ in
   groups c = replicate n [] /\ ended c = Unfinished)
  /\ (let c := consume (EachChoiceHOMStrategy.next order) n
                 (EachChoiceHOMStrategy.generate l) σ in
      groups c = replicate n [] /\ ended c = Unfinished)
  /\ (let c := consume (BetweenOperatorsHOMStrategy.next order) n
                 (BetweenOperatorsHOMStrategy.generate l) σ in
      groups c = replicate n [] /\ ended c = Unfinished)
  /\ (shuffler mutations ≠ [] ->
      let c := consume (RandomHOMStrategy.next order shuffler) n
                 (RandomHOMStrategy.generate l) σ in
      groups c = replicate n [] /\ ended c = Unfinished).
Proof.
  intros Ho E Hne.
  destruct (FirstToLast_sees order n σ l mutations E) as (Fg & Fe & _).
  destruct (EachChoice_sees order n σ l mutations E) as (Eg & Ee & _).
  destruct (Random_sees order shuffler n σ l mutations E) as (Rg & Re & _).
  pose proof (BetweenOperators_sees order n σ l mutations E) as B.
  pose proof (bo_run_nonpositive order mutations n (usage0 mutations) mutations Ho Hne)
    as Hbo.
  cbv zeta in B |- *.
  destruct (bo_run order n (usage0 mutations) mutations mutations) as [[gs e] u].
  destruct B as (Bg & Be & _). simpl in Hbo. inversion Hbo; subst gs e.
  split; [|split; [|split]].
  - by rewrite Fg, Fe, (run_groups_nonpositive order alternate n mutations Ho Hne).
  - by rewrite Eg, Ee, (run_groups_nonpositive order front n mutations Ho Hne).
  - done.
  - intros Hs.
    by rewrite Rg, Re, (run_groups_nonpositive order front n (shuffler mutations) Ho Hs).
Qed.

(** X7.  With order [1] the groups of FirstToLast and of EachChoice are the
    mutations of the input one by one, in the order of the input, and the
    generator is exhausted after them; those of Random are the mutations one
    by one in the order the shuffler left. *)
Theorem order_one_gives_singletons shuffler σ l mutations :
  σ !! l = Some mutations ->
  (let c := consume (FirstToLastHOMStrategy.next 1) (S (length mutations))
              (FirstToLastHOMStrategy.generate l) σ in
   groups c = (fun x => [x]) <$> mutations /\ ended c = Exhausted)
  /\ (let c := consume (EachChoiceHOMStrategy.next 1) (S (length mutations))
                 (EachChoiceHOMStrategy.generate l) σ in
      groups c = (fun x => [x]) <$> mutations /\ ended c = Exhausted)
  /\ (let c := consume (RandomHOMStrategy.next 1 shuffler) (S (length (shuffler mutations)))
                 (RandomHOMStrategy.generate l) σ in
      groups c = (fun x => [x]) <$> shuffler mutations /\ ended c = Exhausted).
Proof.
  intros E. cbv zeta.
  destruct (FirstToLast_sees 1 (S (length mutations)) σ l mutations E) as (-> & -> & _).
  destruct (EachChoice_sees 1 (S (length mutations)) σ l mutations E) as (-> & -> & _).
  destruct (Random_sees 1 shuffler (S (length (shuffler mutations))) σ l mutations E)
    as (-> & -> & _).
  rewrite !run_groups_one by done. done.
Qed.

(** X8.  Random is EachChoice after the shuffle: what a consumer of Random sees
    on a list is what a consumer of EachChoice sees on a list that holds
    what the shuffler leaves of it. *)
Theorem Random_is_EachChoice_shuffled order shuffler σ σ' l l' mutations (n : nat) :
  σ !! l = Some mutations -> σ' !! l' = Some (shuffler mutations) ->
  let c := consume (RandomHOMStrategy.next order shuffler) n
             (RandomHOMStrategy.generate l) σ in
  let c' := consume (EachChoiceHOMStrategy.next order) n
              (EachChoiceHOMStrategy.generate l') σ' in
  groups c = groups c' /\ ended c = ended c'.
Proof.
  intros E E'. cbv zeta.
  destruct (Random_sees order shuffler n σ l mutations E) as (-> & -> & _).
  destruct (EachChoice_sees order n σ' l' (shuffler mutations) E') as (-> & -> & _).
  done.
Qed.

(** X9.  No two mutations of a group of BetweenOperators have the same
    operator. *)
Theorem BetweenOperators_groups_distinct_operators order σ l mutations (n : nat) g :
  σ !! l = Some mutations ->
  g ∈ groups (consume (BetweenOperatorsHOMStrategy.next order) n
                (BetweenOperatorsHOMStrategy.generate l) σ) ->
  distinct_operators g.
Proof.
  intros E.
  pose proof (BetweenOperators_sees order n σ l mutations E) as B. cbv zeta in B.
  pose proof (bo_run_all order distinct_operators mutations
                (fun usage nu _ _ => bo_step_distinct_operators order usage nu mutations)
                n (usage0 mutations) mutations g (tracked_usage0 mutations)) as Hbo.
  destruct (bo_run order n (usage0 mutations) mutations mutations) as [[gs e] u].
  by destruct B as (-> & _).
Qed.

End StrategyShape.

Section RepeatedMutation.
Context `{MutationSig}.
Variable order : Z.
Implicit Types (σ : list (list Mutation)) (ms ts avail nu muts g : list Mutation)
  (x y m : Mutation) (usage : gmap Mutation Z).

Lemma Permutation_rotate3 (x m : Mutation) rest : x :: m :: m :: rest ≡ₚ m :: m :: x :: rest.
Proof. etransitivity; [apply Permutation_swap|]. apply perm_skip, Permutation_swap. Qed.

Lemma repeated_element muts : ¬ NoDup muts -> exists m rest, muts ≡ₚ m :: m :: rest.
Proof.
  induction muts as [|x muts IH]; intros Hd; [destruct Hd; constructor|].
  destruct (decide (x ∈ muts)) as [Hx|Hx].
  - apply elem_of_Permutation in Hx as [rest Hr]. exists x, rest. by rewrite Hr.
  - destruct IH as (m & rest & Hr).
    { intros Hn. apply Hd. by constructor. }
    exists m, (x :: rest). rewrite Hr. apply Permutation_rotate3.
Qed.

Lemma lingers_in usage nu m : lingers usage nu m -> m ∈ nu.
Proof.
  intros (u & _ & _ & [[_ Hin] | [_ [rest Hr]]]); [done|]. rewrite Hr. left.
Qed.

Lemma lingers_step usage nu m x u nu' :
  lingers usage nu m -> usage !! x = Some u ->
  (if bool_decide (u = 0) then py_remove x nu else Some nu) = Some nu' ->
  lingers (<[x := u + 1]> usage) nu' m.
Proof.
  intros (v & Ev & Hv & Hcase) Eu Hnu. destruct (decide (x = m)) as [->|Hne].
  - rewrite Ev in Eu. injection Eu as ->.
    exists (u + 1). rewrite lookup_insert_eq. split; [done|]. split; [lia|].
    left. split; [lia|].
    destruct Hcase as [[Hu Hin] | [-> [rest Hr]]].
    + rewrite bool_decide_false in Hnu by lia. by injection Hnu as <-.
    + rewrite bool_decide_true in Hnu by done.
      apply py_remove_Permutation in Hnu. rewrite Hnu in Hr.
      apply Permutation_cons_inv in Hr. rewrite Hr. left.
  - exists v. rewrite lookup_insert_ne by done. split; [done|]. split; [done|].
    case_bool_decide as Hz; [|injection Hnu as <-; done].
    pose proof (py_remove_Permutation _ _ _ Hnu) as Hp.
    destruct Hcase as [[Hu Hin] | [-> [rest Hr]]].
    + left. split; [done|]. rewrite Hp in Hin.
      apply elem_of_cons in Hin as [->|Hin]; [done|exact Hin].
    + right. split; [done|].
      assert (x ∈ rest) as Hx.
      { assert (x ∈ m :: m :: rest) as Hx by (rewrite <- Hr, Hp; left).
        apply elem_of_cons in Hx as [->|Hx]; [done|].
        apply elem_of_cons in Hx as [->|Hx]; [done|exact Hx]. }
      apply elem_of_Permutation in Hx as [rest' Hr'].
      exists rest'. apply (Permutation_cons_inv (a := x)).
      rewrite <- Hp, Hr, Hr'. symmetry. apply Permutation_rotate3.
Qed.

Lemma bo_grouping_lingers m fuel : forall usage nu ts avail,
  lingers usage nu m ->
  match bo_grouping order fuel usage nu ts avail with
  | (usage', nu', _, _) => lingers usage' nu' m
  end.
Proof.
  induction fuel as [|fuel IH]; intros usage nu ts avail Hl; simpl.
  - by destruct (_ && _).
  - destruct (_ && _); [|done].
    destruct avail as [|x avail']; [done|].
    destruct (usage !! x) as [u|] eqn:Eu; [|done].
    destruct (if bool_decide (u = 0) then py_remove x nu else Some nu) as [nu'|] eqn:En;
      [|done].
    apply IH. by eapply lingers_step.
Qed.

Lemma bo_run_lingers m muts n : forall usage nu,
  lingers usage nu m ->
  snd (fst (bo_run order n usage nu muts)) = Unfinished
  /\ length (fst (fst (bo_run order n usage nu muts))) = n.
Proof.
  induction n as [|n IH]; intros usage nu Hl; simpl; [done|].
  pose proof (lingers_in _ _ _ Hl) as Hin.
  destruct nu as [|y0 nu0]; [by apply elem_of_nil in Hin|].
  unfold bo_step.
  pose proof (bo_grouping_lingers m (length (py_sort_by (usage_key usage) muts)) usage
                (y0 :: nu0) [] (py_sort_by (usage_key usage) muts) Hl) as Hl'.
  destruct (bo_grouping order _ usage (y0 :: nu0) [] _) as [[[usage' nu'] ts'] a].
  specialize (IH usage' nu' Hl').
  destruct (bo_run order n usage' nu' muts) as [[gs e] u]. simpl in *.
  destruct IH as [-> ->]. done.
Qed.

Lemma lingers_usage0 muts m rest : muts ≡ₚ m :: m :: rest -> lingers (usage0 muts) muts m.
Proof.
  intros Hr. exists 0. split; [|split; [done|right; eauto]].
  apply usage0_lookup. rewrite Hr. left.
Qed.

End RepeatedMutation.

Section RepeatedMutationTheorem.
Context `{MutationSig}.

(** X10.  On an input that holds the same mutation twice the generator of
    BetweenOperators is never exhausted, whatever the order: the mutation
    is taken out of [not_used] only at its first use and its second copy
    stays there, so every request is answered by one more group. *)
Theorem BetweenOperators_repeated_mutation_never_ends order σ l mutations (n : nat) :
  σ !! l = Some mutations -> ¬ NoDup mutations ->
  let c := consume (BetweenOperatorsHOMStrategy.next order) n
             (BetweenOperatorsHOMStrategy.generate l) σ in
  ended c = Unfinished /\ length (groups c) = n.
Proof.
  intros E Hd. cbv zeta.
  destruct (repeated_element mutations Hd) as (m & rest & Hr).
  pose proof (BetweenOperators_sees order n σ l mutations E) as B. cbv zeta in B.
  pose proof (bo_run_lingers order m mutations n (usage0 mutations) mutations
                (lingers_usage0 _ _ _ Hr)) as Hbo.
  destruct (bo_run order n (usage0 mutations) mutations mutations) as [[gs e] u].
  destruct B as (-> & -> & _). simpl in Hbo. by destruct Hbo.
Qed.

(** X11.  [remove_bad_mutations] takes out of [available_mutations], a list object
    other than [mutations_to_apply], exactly the mutations that are bad for
    one of the mutations to apply, every copy of them, and keeps the others
    in their order; it raises nothing and changes no other list object. *)
Theorem remove_bad_mutations_filters allow σ t a ts avail :
  t ≠ a -> σ !! t = Some ts -> σ !! a = Some avail ->
  exists σ' kept,
    remove_bad_mutations t a allow σ = (Ok tt, σ')
    /\ σ' !! a = Some kept
    /\ kept = filter (compatible allow ts) avail
    /\ (forall x, x ∈ kept <-> x ∈ avail /\ forall y, y ∈ ts -> bad allow y x = false)
    /\ length σ' = length σ
    /\ forall l : nat, l ≠ a -> σ' !! l = σ !! l.
Proof.
  intros Hne Et Ea.
  exists (<[a := filter (compatible allow ts) avail]> σ), (filter (compatible allow ts) avail).
  split; [by apply remove_bad_mutations_ok|].
  split; [by eapply lookup_update_eq|]. split; [done|]. split; [|split].
  - intros x. rewrite list_elem_of_filter. unfold compatible. rewrite Forall_forall.
    tauto.
  - apply length_insert.
  - intros l Hl. by rewrite list_lookup_insert_ne.
Qed.

End RepeatedMutationTheorem.

Section ConflictFree.
Context `{MutationSig}.
Variable order : Z.
Implicit Types (σ : list (list Mutation)) (ms ts avail nu muts g mid : list Mutation)
  (x y z : Mutation).

Lemma conflict_bad_false x y : ~ conflict x y -> bad true x y = false.
Proof.
  intros Hc. unfold bad.
  rewrite !bool_decide_false by (intros ?; apply Hc; unfold conflict; tauto). done.
Qed.

Lemma filter_all {A} (P : A -> Prop) `{forall a, Decision (P a)} (l : list A) :
  (forall a, a ∈ l -> P a) -> filter P l = l.
Proof.
  induction l as [|a l IH]; intros Hl; [done|].
  rewrite filter_cons, decide_True by (apply Hl; left).
  f_equal. apply IH. intros b Hb. apply Hl. by right.
Qed.

Lemma non_conflicting_app_compatible ts rest :
  non_conflicting (ts ++ rest) -> filter (compatible true ts) rest = rest.
Proof.
  intros Hn. apply filter_all. intros y Hy. unfold compatible. apply Forall_forall.
  intros u Hu. apply conflict_bad_false.
  apply list_elem_of_lookup in Hu as [i Hi]. apply list_elem_of_lookup in Hy as [j Hj].
  apply (Hn i (length ts + j)%nat).
  - apply lookup_lt_Some in Hi. lia.
  - by apply lookup_app_l_Some.
  - rewrite lookup_app_r by lia. by replace (length ts + j - length ts)%nat with j by lia.
Qed.

Lemma non_conflicting_drop k ms : non_conflicting ms -> non_conflicting (drop k ms).
Proof.
  intros Hn i j x y Hij Hi Hj. rewrite lookup_drop in Hi, Hj.
  apply (Hn (k + i)%nat (k + j)%nat); [lia|done|done].
Qed.

Lemma non_conflicting_not_in x rest : non_conflicting (x :: rest) -> x ∉ rest.
Proof.
  intros Hn Hx. apply list_elem_of_lookup in Hx as [j Hj].
  apply (Hn 0%nat (S j) x x); [lia|done|done|]. by left.
Qed.

Lemma py_pop_last {A} (l : list A) (z : A) : py_pop (-1) (l ++ [z]) = Some (z, l).
Proof.
  unfold py_pop, py_index. rewrite length_app. simpl length.
  rewrite (bool_decide_true (-1 < 0)) by lia.
  rewrite bool_decide_true by lia. simpl.
  replace (Z.to_nat (-1 + Z.of_nat (length l + 1))) with (length l) by lia.
  rewrite list_lookup_middle by done. simpl.
  by rewrite delete_middle, app_nil_r.
Qed.

(** ** [EachChoice] on an input without conflicts *)

Lemma grouping_front_free fuel : forall ts ms,
  non_conflicting (ts ++ ms) -> (length ms <= fuel)%nat ->
  grouping order front fuel ms ts ms 0
  = (drop (Z.to_nat (order - Z.of_nat (length ts))) ms,
     ts ++ take (Z.to_nat (order - Z.of_nat (length ts))) ms,
     drop (Z.to_nat (order - Z.of_nat (length ts))) ms).
Proof.
  induction fuel as [|fuel IH]; intros ts ms Hn Hf.
  - destruct ms; [|simpl in Hf; lia]. rewrite grouping_stop.
    + by rewrite drop_nil, take_nil, app_nil_r.
    + apply andb_false_iff. right. by apply bool_decide_eq_false; intros [].
  - rewrite grouping_S.
    destruct (decide (Z.of_nat (length ts) < order)) as [Hlt|Hge]; last first.
    { rewrite (bool_decide_false _ Hge). simpl.
      replace (Z.to_nat (order - Z.of_nat (length ts))) with 0%nat by lia.
      by rewrite drop_0, take_0, app_nil_r. }
    destruct ms as [|x rest].
    { rewrite andb_false_intro2 by (apply bool_decide_eq_false; intros []; done).
      by rewrite drop_nil, take_nil, app_nil_r. }
    rewrite andb_true_intro by (split; apply bool_decide_eq_true; done).
    rewrite py_pop_front. simpl py_remove. rewrite decide_True by done.
    assert (non_conflicting ((ts ++ [x]) ++ rest)) as Hn' by (by rewrite <- app_assoc).
    rewrite (non_conflicting_app_compatible _ _ Hn').
    unfold front at 2. rewrite (IH (ts ++ [x]) rest Hn') by (simpl in Hf; lia).
    rewrite length_app. simpl length.
    replace (Z.to_nat (order - Z.of_nat (length ts)))
      with (S (Z.to_nat (order - Z.of_nat (length ts + 1)))) by lia.
    simpl. by rewrite <- app_assoc.
Qed.

Lemma group_step_front_free ms :
  non_conflicting ms ->
  group_step order front ms = (drop (Z.to_nat order) ms, take (Z.to_nat order) ms).
Proof.
  intros Hn. unfold group_step. rewrite (grouping_front_free _ [] ms) by done.
  simpl. by rewrite Z.sub_0_r.
Qed.

Lemma run_groups_front_free n : forall ms,
  non_conflicting ms -> 0 < order ->
  (forall (i : nat) g, fst (run_groups order front n ms) !! i = Some g ->
     g = take (Z.to_nat order) (drop (i * Z.to_nat order) ms))
  /\ ((length ms < n)%nat ->
      snd (run_groups order front n ms) = Exhausted
      /\ concat (fst (run_groups order front n ms)) = ms).
Proof.
  induction n as [|n IH]; intros ms Hn Ho; simpl.
  - split; [by intros i g|lia].
  - destruct ms as [|x rest]; [split; [by intros i g|done]|].
    rewrite (group_step_front_free _ Hn).
    destruct (IH (drop (Z.to_nat order) (x :: rest))
                 (non_conflicting_drop _ _ Hn) Ho) as [Hi Hc].
    destruct (run_groups order front n (drop (Z.to_nat order) (x :: rest))) as [gs e].
    simpl in *. split.
    + intros [|i] g; simpl.
      * by intros [= <-].
      * intros Hg%Hi. by rewrite Hg, drop_drop.
    + intros Hl. destruct Hc as [-> Hc].
      { rewrite length_drop. simpl. lia. }
      split; [done|]. by rewrite Hc, take_drop.
Qed.

(** ** [FirstToLast] with order 2 on an input without conflicts *)

Lemma group_step_alternate_pair x mid z :
  order = 2 -> non_conflicting (x :: mid ++ [z]) ->
  group_step order alternate (x :: mid ++ [z]) = (mid, [x; z]).
Proof.
  intros Ho Hn. unfold group_step. simpl length. rewrite grouping_S.
  rewrite andb_true_intro by (split; apply bool_decide_eq_true; simpl; [lia|done]).
  rewrite py_pop_front. simpl py_remove. rewrite decide_True by done.
  rewrite (non_conflicting_app_compatible ([] ++ [x]) (mid ++ [z]) Hn).
  rewrite length_app. simpl length.
  replace (length mid + 1)%nat with (S (length mid)) by lia.
  rewrite grouping_S.
  rewrite andb_true_intro; last first.
  { split; apply bool_decide_eq_true; simpl; [lia|]. rewrite length_app. simpl. lia. }
  unfold alternate at 1. rewrite bool_decide_false by lia.
  rewrite py_pop_last.
  assert (z ∉ mid) as Hz.
  { intros Hz. apply list_elem_of_lookup in Hz as [j Hj].
    apply (Hn (S j) (S (length mid)) z z).
    - apply lookup_lt_Some in Hj. lia.
    - simpl. by apply lookup_app_l_Some.
    - simpl. by rewrite list_lookup_middle.
    - by left. }
  rewrite (py_remove_middle z mid [] Hz), app_nil_r.
  rewrite grouping_stop; [done|].
  apply andb_false_iff. left. apply bool_decide_eq_false. simpl. lia.
Qed.

Lemma run_groups_alternate_pair n x mid z :
  order = 2 -> non_conflicting (x :: mid ++ [z]) ->
  run_groups order alternate (S n) (x :: mid ++ [z])
  = ([x; z] :: fst (run_groups order alternate n mid), snd (run_groups order alternate n mid)).
Proof.
  intros Ho Hn.
  change (run_groups order alternate (S n) (x :: mid ++ [z]))
    with (let '(ms', g) := group_step order alternate (x :: mid ++ [z]) in
          let '(gs, e) := run_groups order alternate n ms' in (g :: gs, e)).
  rewrite (group_step_alternate_pair _ _ _ Ho Hn).
  by destruct (run_groups order alternate n mid).
Qed.

End ConflictFree.

Section ConflictFreeTheorems.
Context `{MutationSig}.

(** X12.  On an input in which no two mutations are in conflict, EachChoice with
    a positive order cuts the input into consecutive groups of [order]
    mutations: the group of rank [i] holds the mutations of positions
    [i * order] to [i * order + order - 1], and the groups put end to end
    are the input, in its order. *)
Theorem EachChoice_cuts_conflict_free_input order σ l mutations :
  0 < order -> σ !! l = Some mutations -> non_conflicting mutations ->
  let c := consume (EachChoiceHOMStrategy.next order) (S (length mutations))
             (EachChoiceHOMStrategy.generate l) σ in
  ended c = Exhausted
  /\ concat (groups c) = mutations
  /\ forall (i : nat) g, groups c !! i = Some g ->
       g = take (Z.to_nat order) (drop (i * Z.to_nat order) mutations).
Proof.
  intros Ho E Hn. cbv zeta.
  destruct (EachChoice_sees order (S (length mutations)) σ l mutations E) as (-> & -> & _).
  destruct (run_groups_front_free order (S (length mutations)) mutations Hn Ho) as [Hi Hc].
  destruct Hc as [He Hc]; [lia|]. done.
Qed.

(** X13.  On an input in which no two mutations are in conflict, FirstToLast with
    order 2 pairs the first mutation with the last, and goes on with what is
    between them as it would on a list that holds only that. *)
Theorem FirstToLast_pairs_the_ends σ σ' l l' x mid z (n : nat) :
  σ !! l = Some (x :: mid ++ [z]) -> σ' !! l' = Some mid ->
  non_conflicting (x :: mid ++ [z]) ->
  let c := consume (FirstToLastHOMStrategy.next 2) (S n)
             (FirstToLastHOMStrategy.generate l) σ in
  let c' := consume (FirstToLastHOMStrategy.next 2) n
              (FirstToLastHOMStrategy.generate l') σ' in
  groups c = [x; z] :: groups c' /\ ended c = ended c'.
Proof.
  intros E E' Hn. cbv zeta.
  destruct (FirstToLast_sees 2 (S n) σ l _ E) as (-> & -> & _).
  destruct (FirstToLast_sees 2 n σ' l' _ E') as (-> & -> & _).
  by rewrite (run_groups_alternate_pair 2 n x mid z eq_refl Hn).
Qed.

End ConflictFreeTheorems.

Section Handed.
Context `{MutationSig}.
Variable order : Z.
Implicit Types (σ : list (list Mutation)) (ms ts avail nu muts g : list Mutation)
  (x y m : Mutation) (usage : gmap Mutation Z).

Lemma run_groups_partial toggle n : forall ms,
  exists rest, concat (fst (run_groups order toggle n ms)) ++ rest ≡ₚ ms.
Proof.
  induction n as [|n IH]; intros ms; simpl; [by exists ms|].
  destruct ms as [|x ms]; [by exists []|].
  pose proof (group_step_Permutation order toggle (x :: ms)) as Hp.
  destruct (group_step order toggle (x :: ms)) as [ms' g].
  destruct (IH ms') as [rest Hr].
  destruct (run_groups order toggle n ms') as [gs e]. simpl in *.
  exists rest. by rewrite <- app_assoc, Hr.
Qed.

Lemma occurrences_app m l l' : occurrences m (l ++ l') = occurrences m l + occurrences m l'.
Proof. unfold occurrences. rewrite filter_app, length_app. lia. Qed.

Lemma occurrences_nil m : occurrences m [] = 0.
Proof. done. Qed.

Lemma occurrences_singleton m x :
  occurrences m [x] = if decide (x = m) then 1 else 0.
Proof.
  unfold occurrences. rewrite filter_cons, filter_nil. by destruct (decide (x = m)).
Qed.

Lemma bo_grouping_usage m fuel : forall usage nu ts avail,
  match bo_grouping order fuel usage nu ts avail with
  | (usage', _, ts', _) =>
    usage_key usage' m - usage_key usage m = occurrences m ts' - occurrences m ts
  end.
Proof.
  induction fuel as [|fuel IH]; intros usage nu ts avail; simpl.
  - destruct (_ && _); lia.
  - destruct (_ && _); [|lia].
    destruct avail as [|x avail']; [lia|].
    destruct (usage !! x) as [u|] eqn:Eu; [|lia].
    destruct (if bool_decide (u = 0) then py_remove x nu else Some nu) as [nu'|]; [|lia].
    specialize (IH (<[x:=u + 1]> usage) nu' (ts ++ [x])
                   (filter (compatible false (ts ++ [x])) avail')).
    destruct (bo_grouping order fuel _ nu' _ _) as [[[usage' nu''] ts'] a].
    rewrite occurrences_app, occurrences_singleton in IH.
    unfold usage_key in *. destruct (decide (x = m)) as [->|Hne].
    + rewrite lookup_insert_eq in IH. rewrite Eu. simpl in *. lia.
    + rewrite lookup_insert_ne in IH by done. lia.
Qed.

Lemma bo_run_usage m muts n : forall usage nu,
  match bo_run order n usage nu muts with
  | (gs, _, u) => usage_key u m = usage_key usage m + occurrences m (concat gs)
  end.
Proof.
  induction n as [|n IH]; intros usage nu; simpl.
  - rewrite occurrences_nil. lia.
  - destruct nu as [|y0 nu0]; [simpl; rewrite occurrences_nil; lia|].
    unfold bo_step.
    pose proof (bo_grouping_usage m (length (py_sort_by (usage_key usage) muts)) usage
                  (y0 :: nu0) [] (py_sort_by (usage_key usage) muts)) as Hg.
    destruct (bo_grouping order _ usage (y0 :: nu0) [] _) as [[[usage' nu'] ts'] a].
    specialize (IH usage' nu').
    destruct (bo_run order n usage' nu' muts) as [[gs e] u].
    simpl. rewrite occurrences_app. rewrite occurrences_nil in Hg. lia.
Qed.

Lemma bo_run_tracked muts n : forall usage nu,
  tracked muts usage nu ->
  forall y, y ∈ muts -> is_Some (snd (bo_run order n usage nu muts) !! y).
Proof.
  induction n as [|n IH]; intros usage nu Ht y Hy; simpl.
  - destruct Ht as [Hc _]. destruct (Hc y Hy) as (u & Eu & _). by exists u.
  - destruct nu as [|y0 nu0].
    { destruct Ht as [Hc _]. destruct (Hc y Hy) as (u & Eu & _). by exists u. }
    pose proof (bo_step_tracked order muts usage (y0 :: nu0) Ht) as Ht'.
    destruct (bo_step order usage (y0 :: nu0) muts) as [[usage' nu'] g].
    specialize (IH usage' nu' Ht' y Hy).
    by destruct (bo_run order n usage' nu' muts) as [[gs e] u].
Qed.

Lemma usage_key_usage0 muts m : usage_key (usage0 muts) m = 0.
Proof.
  unfold usage_key. destruct (decide (m ∈ muts)) as [Hm|Hm].
  - by rewrite usage0_lookup.
  - unfold usage0. rewrite (not_elem_of_list_to_map_1 _ m); [done|].
    rewrite <- list_fmap_compose. simpl. by rewrite list_fmap_id.
Qed.

End Handed.

Section HandedTheorems.
Context `{MutationSig}.

(** X14.  However many groups have been asked for, and whatever the order, the
    groups that FirstToLast and EachChoice have handed over hold mutations
    of the input, none of them twice: put end to end, and together with
    some rest, they are a rearrangement of the input.  The same holds for
    Random and what the shuffler left of the input.  The groups of
    BetweenOperators hold mutations of the input only. *)
Theorem groups_hand_over_input_mutations order shuffler σ l mutations (n : nat) :
  σ !! l = Some mutations ->
  (exists rest,
     concat (groups (consume (FirstToLastHOMStrategy.next order) n
                       (FirstToLastHOMStrategy.generate l) σ)) ++ rest ≡ₚ mutations)
  /\ (exists rest,
        concat (groups (consume (EachChoiceHOMStrategy.next order) n
                          (EachChoiceHOMStrategy.generate l) σ)) ++ rest ≡ₚ mutations)
  /\ (exists rest,
        concat (groups (consume (RandomHOMStrategy.next order shuffler) n
                          (RandomHOMStrategy.generate l) σ)) ++ rest
        ≡ₚ shuffler mutations)
  /\ (forall m,
        m ∈ concat (groups (consume (BetweenOperatorsHOMStrategy.next order) n
                              (BetweenOperatorsHOMStrategy.generate l) σ)) ->
        m ∈ mutations).
Proof.
  intros E.
  destruct (FirstToLast_sees order n σ l mutations E) as (-> & _).
  destruct (EachChoice_sees order n σ l mutations E) as (-> & _).
  destruct (Random_sees order shuffler n σ l mutations E) as (-> & _).
  pose proof (BetweenOperators_sees order n σ l mutations E) as B. cbv zeta in B.
  pose proof (bo_run_groups order n (usage0 mutations) mutations mutations) as G.
  destruct (bo_run order n (usage0 mutations) mutations mutations) as [[gs e] u].
  destruct B as (-> & _). simpl in G.
  split; [|split; [|split]]; try apply run_groups_partial.
  intros m (g & Hm & Hg)%elem_of_concat. by apply (G g Hg).
Qed.

(** X15.  When the generator of BetweenOperators is exhausted, the counter of
    every mutation of the input in [usage] is the number of times the
    mutation was handed over in the groups. *)
Theorem BetweenOperators_usage_counts_uses order σ l mutations (n : nat) :
  σ !! l = Some mutations ->
  let c := consume (BetweenOperatorsHOMStrategy.next order) n
             (BetweenOperatorsHOMStrategy.generate l) σ in
  ended c = Exhausted ->
  exists locals, final_locals c = Some locals
    /\ forall m, m ∈ mutations ->
         BetweenOperatorsHOMStrategy.usage locals !! m
         = Some (occurrences m (concat (groups c))).
Proof.
  intros E. cbv zeta.
  pose proof (BetweenOperators_sees order n σ l mutations E) as B. cbv zeta in B.
  pose proof (bo_run_tracked order mutations n (usage0 mutations) mutations
                (tracked_usage0 mutations)) as Ht.
  pose proof (fun m => bo_run_usage order m mutations n (usage0 mutations) mutations) as Hu.
  destruct (bo_run order n (usage0 mutations) mutations mutations) as [[gs e] u].
  destruct B as (-> & -> & Hf & _). simpl in Ht.
  intros He. destruct (Hf He) as (locals & Hl & <-).
  exists locals. split; [done|]. intros m Hm.
  specialize (Hu m). rewrite usage_key_usage0 in Hu. unfold usage_key in Hu.
  destruct (Ht m Hm) as [v Ev]. rewrite Ev in Hu |- *. simpl in Hu. f_equal. lia.
Qed.

End HandedTheorems.

(** ** Further properties of the controller *)

Section LoopFacts.
Context `{MutationSig} `{ControllerSig}.
Implicit Types (self : MutationController) (s : cstate) (sc : MutationScore).

Lemma sound_count_bounds sc : sound sc -> (0 <= count sc)%Q /\ (count sc <= 100)%Q.
Proof.
  intros (Hk & Ht & _ & Hv).
  destruct (Z.eq_dec (all_mutants sc - incompetent_mutants sc) 0) as [E|E].
  - unfold count. rewrite (proj2 (Z.eqb_eq _ _) E). split; discriminate.
  - assert (0 < all_mutants sc - incompetent_mutants sc) as Hb
      by (unfold all_mutants in *; lia).
    rewrite (count_positive_bottom sc Hb).
    apply ratio_bounds; [unfold all_mutants; lia|exact Hb].
Qed.







(** X18.  The coverage totals of the score change only at the start of
    [mutate_module], and no mutant changes them.  With [mutate_covered] off
    they stay as they are.  With [mutate_covered] on, when the suite for the
    module with the coverage injected is made they grow by the result of
    the injector after that suite has run; when the test loader raises
    while that suite is made (line 189), [mutate_module] raises the same
    exception and nothing has changed. *)
Theorem mutate_module_coverage_totals self target_module to_mutate total_duration s sc :
  score s = Some sc ->
  (mutate_covered self = false ->
   exists sc' r evs,
     mutate_module self target_module to_mutate total_duration s
     = (r, mkState (Some sc') evs)
     /\ covered_nodes sc' = covered_nodes sc /\ all_nodes sc' = all_nodes sc)
  /\ (mutate_covered self = true ->
      let '(coverage_injector, coverage_module) :=
        coverage_inject self (create_ast self target_module)
                        (module_name self target_module) in
      match create_test_suite self coverage_module with
      | inl e => mutate_module self target_module to_mutate total_duration s = (inl e, s)
      | inr suite =>
        let cov := coverage_run self suite coverage_injector in
        exists sc' r evs,
          mutate_module self target_module to_mutate total_duration s
          = (r, mkState (Some sc') evs)
          /\ covered_nodes sc' = covered_nodes sc + fst (coverage_get_result self cov)
          /\ all_nodes sc' = all_nodes sc + snd (coverage_get_result self cov)
      end).
Proof.
  intros E. split.
  - intros Hoff.
    assert (inject_coverage self (create_ast self target_module) target_module = inr None)
      as Ei by (unfold inject_coverage; by rewrite Hoff).
    destruct (mutate_module_ok self target_module to_mutate total_duration s sc None E Ei)
      as (r & sc' & es & k & j & E1 & _ & _ & Hc & Hn & _).
    by exists sc', r, (events s ++ es).
  - intros Hon.
    destruct (coverage_inject self (create_ast self target_module)
                (module_name self target_module))
      as [coverage_injector coverage_module] eqn:Ec.
    destruct (create_test_suite self coverage_module) as [e|suite] eqn:Es.
    + rewrite (mutate_module_unfold _ _ _ _ _ sc E).
      unfold inject_coverage. by rewrite Hon, Ec, Es.
    + assert (inject_coverage self (create_ast self target_module) target_module
              = inr (Some (coverage_run self suite coverage_injector))) as Ei
        by (unfold inject_coverage; by rewrite Hon, Ec, Es).
      destruct (mutate_module_ok self target_module to_mutate total_duration s sc _ E Ei)
        as (r & sc' & es & k & j & E1 & _ & _ & Hc & Hn & _).
      exists sc', r, (events s ++ es). split; [exact E1|].
      unfold score_coverage, update_coverage in Hc, Hn. simpl in Hc, Hn. done.
Qed.

(** X19.  When [run] returns, the last notification is the end of the run, with
    the score; none of the counters of that score is negative and its
    [count] is a percentage, between [0] and [100]. *)
Theorem reported_score_is_percentage self s :
  run self = mkRun Completed s ->
  exists sc evs,
    s = mkState (Some sc) (evs ++ [notify_end sc (run_duration self)])
    /\ sound sc
    /\ (0 <= count sc)%Q /\ (count sc <= 100)%Q.
Proof.
  rewrite run_of_mutation_process.
  destruct (mutation_process self (initialized self)) as [[e|[]] s1] eqn:E.
  - destruct e; try discriminate.
    destruct (score s1) as [sc|] eqn:Esc; [|discriminate]. intros [= <-].
    pose proof (mutation_process_sound self _ _ sc E Esc) as Hs.
    exists sc, (events s1). split; [done|]. split; [done|].
    by apply sound_count_bounds.
  - destruct (score s1) as [sc|] eqn:Esc; [|discriminate]. intros [= <-].
    pose proof (mutation_process_sound self _ _ sc E Esc) as Hs.
    exists sc, (events s1). split; [done|]. split; [done|].
    by apply sound_count_bounds.
Qed.

Lemma check_tests_first_failure self (passed : list (Mod * string)) item rest :
  forall test_modules number total s,
  Forall (fun item => wasSuccessful (fst (run_test self (fst item) (snd item))) = true)
         passed ->
  wasSuccessful (fst (run_test self (fst item) (snd item))) = false ->
  check_tests self (stream_app passed (Yield item rest)) test_modules number total s
  = (inl (TestsFailAtOriginal (fst (run_test self (fst item) (snd item)))), s).
Proof.
  induction passed as [|[test_module target_test] passed IH];
    intros test_modules number total s Hall Hfail; simpl in *.
  - destruct item as [test_module target_test]. simpl in *.
    destruct (run_test self test_module target_test) as [result duration].
    simpl in *. by rewrite Hfail.
  - apply Forall_cons in Hall as [Hok Hall]. simpl in Hok.
    destruct (run_test self test_module target_test) as [result duration].
    simpl in *. rewrite Hok. by apply IH.
Qed.

(** X20.  When every test of the baseline passes and the loader ends normally,
    [load_and_check_tests] returns the tests in the order of the loader,
    each with its duration, the sum of the durations and the number of
    tests run in all, and sends no notification. *)
Theorem load_and_check_tests_totals self s :
  let items := stream_items (test_loader_load self) in
  Forall (fun item => wasSuccessful (fst (run_test self (fst item) (snd item))) = true)
         items ->
  stream_end (test_loader_load self) = None ->
  load_and_check_tests self s
  = (inr (baseline_entry self <$> items,
          sum_durations ((fun entry => snd entry) <$> (baseline_entry self <$> items)),
          sum_tests_run self items), s).
Proof.
  intros items Hall Hend. unfold load_and_check_tests.
  rewrite (check_tests_passes self _ [] 0 0%Q s Hall Hend). fold items.
  unfold sum_durations. rewrite <- list_fmap_compose. done.
Qed.

(** X21.  The baseline stops at the first test that fails: whatever the loader
    would yield or raise after it, [load_and_check_tests] raises
    [TestsFailAtOriginal] with the result of that test, and [run] reports
    that result and leaves with status [-1] without having created the
    score. *)
Theorem baseline_stops_at_first_failure self (passed : list (Mod * string)) item rest :
  test_loader_load self = stream_app passed (Yield item rest) ->
  Forall (fun item => wasSuccessful (fst (run_test self (fst item) (snd item))) = true)
         passed ->
  wasSuccessful (fst (run_test self (fst item) (snd item))) = false ->
  let result := fst (run_test self (fst item) (snd item)) in
  (forall s, load_and_check_tests self s = (inl (TestsFailAtOriginal result), s))
  /\ run self
     = mkRun (SysExit (-1))
         (mkState None (events (initialized self) ++ [notify_original_tests_fail result])).
Proof.
  intros El Hall Hfail result.
  assert (forall s, load_and_check_tests self s = (inl (TestsFailAtOriginal result), s)) as Hl.
  { intros s. unfold load_and_check_tests. rewrite El.
    by apply check_tests_first_failure. }
  split; [exact Hl|].
  rewrite run_of_mutation_process. unfold mutation_process.
  by erewrite C_bind_fail by apply Hl.
Qed.

End LoopFacts.

(** ** The table of modules *)

Section ModuleTableFacts.
Context {V : Type}.
Implicit Types (sys_modules : gmap string V) (init_modules keys : list string).

Lemma remove_loaded_modules_loop init_modules keys : forall sys_modules,
  NoDup keys -> (forall name, name ∈ keys -> is_Some (sys_modules !! name)) ->
  remove_loaded_modules init_modules keys sys_modules
  = Some (filter (fun entry => fst entry ∈ init_modules \/ fst entry ∉ keys) sys_modules).
Proof.
  induction keys as [|module keys IH]; intros sys_modules Hnd Hin; simpl.
  - f_equal. symmetry. apply map_filter_id. intros name v _. right. apply not_elem_of_nil.
  - apply NoDup_cons in Hnd as [Hm Hnd].
    destruct (decide (module ∈ init_modules)) as [Hi|Hi].
    + rewrite bool_decide_false by (intros Hx; by apply Hx).
      rewrite IH; [|done|intros name Hn; apply Hin; by right].
      f_equal. apply map_filter_ext. intros name v _. simpl.
      rewrite not_elem_of_cons. split; [|tauto].
      intros [?|?]; [by left|]. destruct (decide (name = module)) as [->|?]; [by left|tauto].
    + rewrite bool_decide_true by done. unfold del_module.
      destruct (Hin module ltac:(left)) as [v Ev]. rewrite Ev. simpl.
      rewrite IH; [|done|]; last first.
      { intros name Hn. rewrite lookup_delete_ne; [apply Hin; by right|].
        intros <-. done. }
      f_equal. apply map_eq. intros name. rewrite !map_lookup_filter.
      destruct (decide (name = module)) as [->|Hne].
      * rewrite lookup_delete_eq, Ev. simpl.
        rewrite option_guard_False; [done|].
        simpl. rewrite not_elem_of_cons. tauto.
      * rewrite lookup_delete_ne by done.
        destruct (sys_modules !! name) as [w|]; [|done]. simpl.
        destruct (decide (name ∈ init_modules \/ name ∉ keys)) as [Hp|Hp].
        -- rewrite !option_guard_True; [done| |done].
           simpl. rewrite not_elem_of_cons. tauto.
        -- rewrite !option_guard_False; [done| |done].
           simpl. rewrite not_elem_of_cons. tauto.
Qed.

Lemma remove_loaded_modules_ok init_modules keys sys_modules :
  keys_of sys_modules keys ->
  remove_loaded_modules init_modules keys sys_modules
  = Some (filter (fun entry => fst entry ∈ init_modules) sys_modules).
Proof.
  intros [Hnd Hk]. rewrite remove_loaded_modules_loop; [|done|intros name; apply Hk].
  f_equal. apply map_filter_ext. intros name v Ev. simpl.
  split; [|tauto]. intros [?|Hn]; [done|]. destruct Hn. apply Hk. eauto.
Qed.

(** X22.  [remove_loaded_modules] raises nothing and leaves in [sys.modules]
    exactly the modules whose name is in [init_modules], each with the
    object it had; a second call changes nothing more. *)
Theorem remove_loaded_modules_keeps_init init_modules keys sys_modules :
  keys_of sys_modules keys ->
  exists left_,
    remove_loaded_modules init_modules keys sys_modules = Some left_
    /\ (forall name,
          left_ !! name = if bool_decide (name ∈ init_modules) then sys_modules !! name
                          else None)
    /\ forall keys', keys_of left_ keys' ->
         remove_loaded_modules init_modules keys' left_ = Some left_.
Proof.
  intros Hk. eexists. split; [by apply remove_loaded_modules_ok|]. split.
  - intros name. rewrite map_lookup_filter.
    destruct (sys_modules !! name) as [v|]; simpl; [|by case_bool_decide].
    case_bool_decide.
    + by rewrite option_guard_True.
    + by rewrite option_guard_False.
  - intros keys' Hk'. rewrite remove_loaded_modules_ok by done.
    f_equal. apply map_filter_id. intros name v Ev.
    apply map_lookup_filter_Some in Ev as [_ Hi]. exact Hi.
Qed.

(** X23.  The round trip of [store_init_modules] and [remove_loaded_modules]:
    when the modules recorded are all still in [sys.modules], with the
    objects they had, [remove_loaded_modules] gives back the table that was
    recorded, whatever modules were loaded since. *)
Theorem remove_loaded_modules_restores recorded init_modules keys sys_modules :
  keys_of recorded init_modules -> keys_of sys_modules keys ->
  recorded ⊆ sys_modules ->
  remove_loaded_modules init_modules keys sys_modules = Some recorded.
Proof.
  intros [_ Hi] Hk Hsub. rewrite remove_loaded_modules_ok by done.
  f_equal. apply map_eq. intros name. rewrite map_lookup_filter.
  destruct (recorded !! name) as [v|] eqn:Er.
  - rewrite (lookup_weaken _ _ _ _ Er Hsub). simpl.
    rewrite option_guard_True; [done|]. simpl. apply Hi. eauto.
  - destruct (sys_modules !! name) as [w|]; [|done]. simpl.
    rewrite option_guard_False; [done|]. simpl. intros Hn%Hi.
    rewrite Er in Hn. by destruct Hn.
Qed.

End ModuleTableFacts.

(** ** Further properties of the mutators *)

Section HighOrderShape.
Context `{MutationSig} `{ControllerSig}.
Implicit Types (mutator : Mutator) (gens : list (list (Mutation * Ast))).

Lemma finish_generators_exhausted gens :
  Forall (fun g => g = []) gens -> finish_generators gens = None.
Proof.
  induction gens as [|g gens IH]; [done|].
  intros [-> Hg]%Forall_cons. simpl. by apply IH.
Qed.

Lemma finish_generators_left gens :
  Exists (fun g => g ≠ []) gens ->
  finish_generators gens = Some (AssertionError "too many mutations!").
Proof.
  induction gens as [|g gens IH]; intros He.
  - by apply Exists_nil in He.
  - destruct g as [|item g]; [|done]. simpl. apply IH.
    apply Exists_cons in He as [He|He]; done.
Qed.

Lemma apply_mutations_lengths mutator to_mutate cov module : forall group mutant applied gens
    applied' mutant' gens',
  apply_mutations mutator to_mutate cov module group mutant applied gens
  = inr (applied', mutant', gens') ->
  length applied' = (length applied + length group)%nat
  /\ length gens' = (length gens + length group)%nat.
Proof.
  induction group as [|m group IH]; intros mutant applied gens applied' mutant' gens'; simpl.
  - intros [= <- _ <-]. lia.
  - destruct (operator_mutate _ _ _ _ _ _ _ _) as [|[new_mutation mutant1] generator];
      [done|].
    intros E%IH. rewrite !length_app in E. simpl in E. lia.
Qed.

Lemma apply_mutations_once mutator to_mutate cov module :
  (forall mutation mutant, exists new_mutation mutant',
     operator_mutate mutator (operator mutation) mutant to_mutate true cov module
                     (Some mutation) = [(new_mutation, mutant')]) ->
  forall group mutant applied gens,
  Forall (fun g => g = []) gens ->
  exists applied' mutant' gens',
    apply_mutations mutator to_mutate cov module group mutant applied gens
    = inr (applied', mutant', gens')
    /\ Forall (fun g => g = []) gens'.
Proof.
  intros Honce. induction group as [|m group IH]; intros mutant applied gens Hg; simpl.
  - eauto.
  - destruct (Honce m mutant) as (new_mutation & mutant1 & ->).
    apply IH. apply Forall_app. split; [done|]. by constructor.
Qed.

(** X24.  When every operator, re-applied for a mutation, yields exactly one
    mutation, [HighOrderMutator.mutate] yields one mutant for each group of
    the strategy, with as many applied mutations as the group has, and it
    ends as the strategy ends: with the end of the groups or with the
    exception the strategy raised. *)
Theorem HighOrderMutator_one_mutant_per_group mutator to_mutate cov module target_ast
    (groups : stream error (list Mutation)) :
  (forall mutation mutant, exists new_mutation mutant',
     operator_mutate mutator (operator mutation) mutant to_mutate true cov module
                     (Some mutation) = [(new_mutation, mutant')]) ->
  let st := mutate_groups mutator to_mutate cov module target_ast groups in
  stream_end st = stream_end groups
  /\ (fun item => length (fst item)) <$> stream_items st = length <$> stream_items groups.
Proof.
  intros Honce. cbv zeta. induction groups as [|group rest IH|e]; [done| |done].
  destruct (apply_mutations_once mutator to_mutate cov module Honce group target_ast [] []
              ltac:(constructor)) as (applied & mutant & gens & E & Hg).
  destruct IH as [IHe IHi].
  cbn [mutate_groups]. rewrite E.
  rewrite finish_generators_exhausted by (by apply Forall_reverse).
  cbn [stream_end stream_items]. rewrite !fmap_cons. split; [exact IHe|].
  rewrite IHi. f_equal. simpl.
  by destruct (apply_mutations_lengths _ _ _ _ _ _ _ _ _ _ _ E) as [-> _].
Qed.

(** X25.  When the mutations of a group are all applied but one of the operators
    has a second mutation to yield, [HighOrderMutator.mutate] yields the
    mutant of the group and, at the next request, raises the assertion error
    [too many mutations!] in place of the mutants of the groups that follow;
    when none has, it goes on with the next group. *)
Theorem too_many_mutations_after_the_mutant mutator to_mutate cov module target_ast
    group (rest : stream error (list Mutation)) applied mutant gens :
  apply_mutations mutator to_mutate cov module group target_ast [] []
  = inr (applied, mutant, gens) ->
  (Exists (fun g => g ≠ []) gens ->
   mutate_groups mutator to_mutate cov module target_ast (Yield group rest)
   = Yield (applied, mutant) (Throw (AssertionError "too many mutations!")))
  /\ (Forall (fun g => g = []) gens ->
      mutate_groups mutator to_mutate cov module target_ast (Yield group rest)
      = Yield (applied, mutant)
              (mutate_groups mutator to_mutate cov module target_ast rest)).
Proof.
  intros E. cbn [mutate_groups]. rewrite E. split; intros Hg.
  - rewrite finish_generators_left; [done|].
    apply Exists_exists in Hg as (g & Hin & Hg). apply Exists_exists.
    exists g. split; [|done]. by apply elem_of_reverse.
  - by rewrite finish_generators_exhausted by (by apply Forall_reverse).
Qed.

Lemma singletons_of (l : list (Mutation * Ast)) :
  concat (fst <$> (l ≫= fun '(mutation, mutant) => [([mutation], mutant)])) = fst <$> l
  /\ Forall (fun item : list Mutation * Ast => length (fst item) = 1%nat)
            (l ≫= fun '(mutation, mutant) => [([mutation], mutant)]).
Proof.
  induction l as [|[mutation mutant] l [IH1 IH2]]; [by split|].
  rewrite bind_cons. split.
  - rewrite fmap_app, concat_app, IH1. done.
  - apply Forall_app. split; [by repeat constructor|done].
Qed.

Lemma mutations_of (l : list (Mutation * Ast)) :
  l ≫= (fun '(mutation, _) => [mutation]) = fst <$> l.
Proof.
  induction l as [|[mutation mutant] l IH]; [done|].
  rewrite bind_cons, IH. done.
Qed.

(** X26.  Every mutant that [FirstOrderMutator.mutate] yields has exactly one
    mutation.  When every operator finds the same mutations with the
    sampler as without it, these mutations, in the order of the mutants, are
    the list [generate_all_mutations] collects for [HighOrderMutator]. *)
Theorem FirstOrderMutator_yields_single_mutations mutator target_ast to_mutate cov module :
  let st := FirstOrderMutator_mutate mutator target_ast to_mutate cov module in
  Forall (fun item => length (fst item) = 1%nat) (stream_items st)
  /\ ((forall op,
         fst <$> operator_mutate mutator op target_ast to_mutate true cov module None
         = fst <$> operator_mutate mutator op target_ast to_mutate false cov module None) ->
      concat (fst <$> stream_items st)
      = generate_all_mutations mutator cov module target_ast to_mutate).
Proof.
  cbv zeta. unfold FirstOrderMutator_mutate, generate_all_mutations.
  rewrite stream_items_list_stream.
  induction (sort_operators mutator (operators mutator)) as [|op ops [IH1 IH2]];
    [by split|].
  rewrite !bind_cons.
  destruct (singletons_of
              (operator_mutate mutator op target_ast to_mutate true cov module None))
    as [S1 S2].
  split.
  - apply Forall_app. by split.
  - intros Hsame. rewrite fmap_app, concat_app, S1, (IH2 Hsame), (Hsame op).
    by rewrite mutations_of.
Qed.

End HighOrderShape.

(** ** Instances of the further properties *)

Section MoreWitnesses.
#[local] Existing Instance example_sig.
#[local] Existing Instance example_controller_sig.

Lemma count_is_percentage_witness :
  0 <= killed_mutants (mkScore 3 1 2 4 0 0)
  /\ 0 <= timeout_mutants (mkScore 3 1 2 4 0 0)
  /\ 0 <= survived_mutants (mkScore 3 1 2 4 0 0)
  /\ (0 <= count (mkScore 3 1 2 4 0 0))%Q /\ (count (mkScore 3 1 2 4 0 0) <= 100)%Q.
Proof.
  split; [simpl; lia|]. split; [simpl; lia|]. split; [simpl; lia|].
  apply (count_is_percentage (mkScore 3 1 2 4 0 0)); simpl; lia.
Defined.

Lemma count_moves_witness :
  0 <= killed_mutants (mkScore 3 1 2 4 0 0)
  /\ 0 <= timeout_mutants (mkScore 3 1 2 4 0 0)
  /\ 0 <= survived_mutants (mkScore 3 1 2 4 0 0)
  /\ count (inc_incompetent (mkScore 3 1 2 4 0 0)) = count (mkScore 3 1 2 4 0 0)
  /\ (count (mkScore 3 1 2 4 0 0) <= count (inc_killed (mkScore 3 1 2 4 0 0)))%Q
  /\ (count (inc_survived (mkScore 3 1 2 4 0 0)) <= count (mkScore 3 1 2 4 0 0))%Q.
Proof.
  destruct (count_moves (mkScore 3 1 2 4 0 0) 0 0) as (Hi & _ & Hm).
  destruct Hm as (Hk & _ & Hs); [simpl; lia|simpl; lia|simpl; lia|].
  split; [simpl; lia|]. split; [simpl; lia|]. split; [simpl; lia|].
  split; [exact Hi|]. split; [exact Hk|exact Hs].
Defined.

Lemma count_extremes_witness :
  0 < killed_mutants (mkScore 3 1 2 0 0 0) + timeout_mutants (mkScore 3 1 2 0 0 0)
  /\ survived_mutants (mkScore 3 1 2 0 0 0) = 0
  /\ (count (mkScore 3 1 2 0 0 0) == 100)%Q
  /\ killed_mutants (mkScore 0 0 2 5 0 0) + timeout_mutants (mkScore 0 0 2 5 0 0) = 0
  /\ (count (mkScore 0 0 2 5 0 0) == 0)%Q.
Proof.
  split; [simpl; lia|]. split; [reflexivity|]. split.
  - apply (proj1 (count_extremes (mkScore 3 1 2 0 0 0))); [simpl; lia|reflexivity].
  - split; [reflexivity|].
    apply (proj2 (count_extremes (mkScore 0 0 2 5 0 0))). reflexivity.
Defined.

Lemma groups_well_sized_witness :
  [example_mutations] !! 0%nat = Some example_mutations
  /\ [(0, 0, 1); (5, 2, 4)]%nat
     ∈ groups (consume (FirstToLastHOMStrategy.next 2) 4
                 (FirstToLastHOMStrategy.generate 0%nat) [example_mutations])
  /\ well_sized 2 [(0, 0, 1); (5, 2, 4)]%nat.
Proof.
  assert ([(0, 0, 1); (5, 2, 4)]%nat
          ∈ groups (consume (FirstToLastHOMStrategy.next 2) 4
                      (FirstToLastHOMStrategy.generate 0%nat) [example_mutations])) as Hin.
  { apply list_elem_of_In. vm_compute. left. reflexivity. }
  split; [reflexivity|]. split; [exact Hin|].
  exact (proj1 (groups_well_sized (H := example_sig) 2 reverse [example_mutations] 0%nat
                  example_mutations 4 _ eq_refl) Hin).
Defined.

Lemma nonpositive_order_never_ends_witness :
  0 <= 0
  /\ [example_mutations] !! 0%nat = Some example_mutations
  /\ example_mutations ≠ []
  /\ groups (consume (EachChoiceHOMStrategy.next 0) 3
               (EachChoiceHOMStrategy.generate 0%nat) [example_mutations])
     = [[]; []; []]
  /\ ended (consume (EachChoiceHOMStrategy.next 0) 3
              (EachChoiceHOMStrategy.generate 0%nat) [example_mutations])
     = Unfinished.
Proof.
  split; [lia|]. split; [reflexivity|]. split; [discriminate|].
  exact (proj1 (proj2 (nonpositive_order_never_ends (H := example_sig) 0 reverse
                         [example_mutations] 0%nat example_mutations 3
                         ltac:(lia) eq_refl ltac:(discriminate)))).
Defined.

Lemma order_one_gives_singletons_witness :
  [example_mutations] !! 0%nat = Some example_mutations
  /\ groups (consume (FirstToLastHOMStrategy.next 1) (S (length example_mutations))
               (FirstToLastHOMStrategy.generate 0%nat) [example_mutations])
     = (fun x => [x]) <$> example_mutations.
Proof.
  split; [reflexivity|].
  exact (proj1 (proj1 (order_one_gives_singletons (H := example_sig) reverse
                         [example_mutations] 0%nat example_mutations eq_refl))).
Defined.

Lemma Random_is_EachChoice_shuffled_witness :
  [example_mutations] !! 0%nat = Some example_mutations
  /\ [[]; reverse example_mutations] !! 1%nat = Some (reverse example_mutations)
  /\ groups (consume (RandomHOMStrategy.next 2 reverse) 7
               (RandomHOMStrategy.generate 0%nat) [example_mutations])
     = groups (consume (EachChoiceHOMStrategy.next 2) 7
                 (EachChoiceHOMStrategy.generate 1%nat) [[]; reverse example_mutations]).
Proof.
  split; [reflexivity|]. split; [reflexivity|].
  exact (proj1 (Random_is_EachChoice_shuffled (H := example_sig) 2 reverse
                  [example_mutations] [[]; reverse example_mutations] 0%nat 1%nat
                  example_mutations 7 eq_refl eq_refl)).
Defined.

Lemma BetweenOperators_groups_distinct_operators_witness :
  [example_mutations] !! 0%nat = Some example_mutations
  /\ [(0, 0, 1); (3, 1, 4)]%nat
     ∈ groups (consume (BetweenOperatorsHOMStrategy.next 2) 7
                 (BetweenOperatorsHOMStrategy.generate 0%nat) [example_mutations])
  /\ distinct_operators [(0, 0, 1); (3, 1, 4)]%nat.
Proof.
  assert ([(0, 0, 1); (3, 1, 4)]%nat
          ∈ groups (consume (BetweenOperatorsHOMStrategy.next 2) 7
                      (BetweenOperatorsHOMStrategy.generate 0%nat) [example_mutations]))
    as Hin.
  { apply list_elem_of_In. vm_compute. left. reflexivity. }
  split; [reflexivity|]. split; [exact Hin|].
  exact (BetweenOperators_groups_distinct_operators (H := example_sig) 2
           [example_mutations] 0%nat example_mutations 7 _ eq_refl Hin).
Defined.

Lemma BetweenOperators_repeated_mutation_never_ends_witness :
  [[(0, 0, 1); (0, 0, 1)]%nat] !! 0%nat = Some [(0, 0, 1); (0, 0, 1)]%nat
  /\ ¬ NoDup [(0, 0, 1); (0, 0, 1)]%nat
  /\ ended (consume (BetweenOperatorsHOMStrategy.next 2) 5
              (BetweenOperatorsHOMStrategy.generate 0%nat) [[(0, 0, 1); (0, 0, 1)]%nat])
     = Unfinished.
Proof.
  assert (¬ NoDup [(0, 0, 1); (0, 0, 1)]%nat) as Hd.
  { intros Hd. apply NoDup_cons in Hd as [Hn _]. apply Hn. left. }
  split; [reflexivity|]. split; [exact Hd|].
  exact (proj1 (BetweenOperators_repeated_mutation_never_ends (H := example_sig) 2
                  [[(0, 0, 1); (0, 0, 1)]%nat] 0%nat [(0, 0, 1); (0, 0, 1)]%nat 5
                  eq_refl Hd)).
Defined.

Lemma remove_bad_mutations_filters_witness :
  0%nat ≠ 1%nat
  /\ [[(0, 0, 1)]%nat; example_mutations] !! 0%nat = Some [(0, 0, 1)]%nat
  /\ [[(0, 0, 1)]%nat; example_mutations] !! 1%nat = Some example_mutations
  /\ exists σ' kept,
       remove_bad_mutations 0%nat 1%nat true [[(0, 0, 1)]%nat; example_mutations]
       = (Ok tt, σ')
       /\ σ' !! 1%nat = Some kept
       /\ kept = filter (compatible true [(0, 0, 1)]%nat) example_mutations
       /\ (forall x, x ∈ kept <->
             x ∈ example_mutations
             /\ forall y, y ∈ [(0, 0, 1)]%nat -> bad true y x = false)
       /\ length σ' = length [[(0, 0, 1)]%nat; example_mutations]
       /\ forall l : nat, l ≠ 1%nat ->
            σ' !! l = [[(0, 0, 1)]%nat; example_mutations] !! l.
Proof.
  split; [discriminate|]. split; [reflexivity|]. split; [reflexivity|].
  exact (remove_bad_mutations_filters (H := example_sig) true
           [[(0, 0, 1)]%nat; example_mutations] 0%nat 1%nat [(0, 0, 1)]%nat
           example_mutations ltac:(discriminate) eq_refl eq_refl).
Defined.

Lemma example_apart_non_conflicting : non_conflicting example_apart.
Proof.
  intros i j x y Hij Hi Hj.
  destruct i as [|[|[|i]]]; destruct j as [|[|[|j]]]; simpl in Hi, Hj; try done;
    injection Hi as <-; injection Hj as <-; unfold conflict; simpl;
    intros [Hc|[Hc|Hc]]; try discriminate; by apply elem_of_nil in Hc.
Qed.

Lemma EachChoice_cuts_conflict_free_input_witness :
  0 < 2
  /\ [example_apart] !! 0%nat = Some example_apart
  /\ non_conflicting example_apart
  /\ groups (consume (EachChoiceHOMStrategy.next 2) (S (length example_apart))
               (EachChoiceHOMStrategy.generate 0%nat) [example_apart])
       !! 1%nat = Some [(4, 0, 5)%nat]
  /\ concat (groups (consume (EachChoiceHOMStrategy.next 2) (S (length example_apart))
                       (EachChoiceHOMStrategy.generate 0%nat) [example_apart]))
     = example_apart.
Proof.
  split; [lia|]. split; [reflexivity|]. split; [exact example_apart_non_conflicting|].
  split; [vm_compute; reflexivity|].
  exact (proj1 (proj2 (EachChoice_cuts_conflict_free_input (H := example_sig) 2
                         [example_apart] 0%nat example_apart ltac:(lia) eq_refl
                         example_apart_non_conflicting))).
Defined.

Lemma FirstToLast_pairs_the_ends_witness :
  [example_apart] !! 0%nat = Some ((2, 1, 3)%nat :: [(3, 1, 4)%nat] ++ [(4, 0, 5)%nat])
  /\ [[(3, 1, 4)%nat]] !! 0%nat = Some [(3, 1, 4)%nat]
  /\ non_conflicting ((2, 1, 3)%nat :: [(3, 1, 4)%nat] ++ [(4, 0, 5)%nat])
  /\ groups (consume (FirstToLastHOMStrategy.next 2) 3
               (FirstToLastHOMStrategy.generate 0%nat) [example_apart])
     = [(2, 1, 3); (4, 0, 5)]%nat
       :: groups (consume (FirstToLastHOMStrategy.next 2) 2
                    (FirstToLastHOMStrategy.generate 0%nat) [[(3, 1, 4)%nat]]).
Proof.
  split; [reflexivity|]. split; [reflexivity|].
  split; [exact example_apart_non_conflicting|].
  exact (proj1 (FirstToLast_pairs_the_ends (H := example_sig) [example_apart]
                  [[(3, 1, 4)%nat]] 0%nat 0%nat (2, 1, 3)%nat [(3, 1, 4)%nat] (4, 0, 5)%nat
                  2 eq_refl eq_refl example_apart_non_conflicting)).
Defined.

Lemma groups_hand_over_input_mutations_witness :
  [example_mutations] !! 0%nat = Some example_mutations
  /\ exists rest,
       concat (groups (consume (FirstToLastHOMStrategy.next 2) 1
                         (FirstToLastHOMStrategy.generate 0%nat) [example_mutations]))
       ++ rest ≡ₚ example_mutations.
Proof.
  split; [reflexivity|].
  exact (proj1 (groups_hand_over_input_mutations (H := example_sig) 2 reverse
                  [example_mutations] 0%nat example_mutations 1 eq_refl)).
Defined.

Lemma BetweenOperators_usage_counts_uses_witness :
  [example_mutations] !! 0%nat = Some example_mutations
  /\ ended (consume (BetweenOperatorsHOMStrategy.next 2) 7
              (BetweenOperatorsHOMStrategy.generate 0%nat) [example_mutations])
     = Exhausted
  /\ exists locals,
       final_locals (consume (BetweenOperatorsHOMStrategy.next 2) 7
                       (BetweenOperatorsHOMStrategy.generate 0%nat) [example_mutations])
       = Some locals
       /\ forall m, m ∈ example_mutations ->
            BetweenOperatorsHOMStrategy.usage locals !! m
            = Some (occurrences m
                      (concat (groups (consume (BetweenOperatorsHOMStrategy.next 2) 7
                                         (BetweenOperatorsHOMStrategy.generate 0%nat)
                                         [example_mutations])))).
Proof.
  assert (ended (consume (BetweenOperatorsHOMStrategy.next 2) 7
                   (BetweenOperatorsHOMStrategy.generate 0%nat) [example_mutations])
          = Exhausted) as He by (vm_compute; reflexivity).
  split; [reflexivity|]. split; [exact He|].
  exact (BetweenOperators_usage_counts_uses (H := example_sig) 2 [example_mutations] 0%nat
           example_mutations 7 eq_refl He).
Defined.



Lemma mutate_module_coverage_totals_witness :
  let self := example_controller (FirstOrderMutator_mutate example_mutator) None true in
  let s := mkState (Some MutationScore_init) [] in
  score s = Some MutationScore_init
  /\ mutate_covered self = false
  /\ exists sc' r evs,
       mutate_module self "target"%string None (1 # 2) s = (r, mkState (Some sc') evs)
       /\ covered_nodes sc' = covered_nodes MutationScore_init
       /\ all_nodes sc' = all_nodes MutationScore_init.
Proof.
  cbv zeta. split; [reflexivity|]. split; [reflexivity|].
  exact (proj1 (mutate_module_coverage_totals
                  (example_controller (FirstOrderMutator_mutate example_mutator) None true)
                  "target"%string None (1 # 2)
                  (mkState (Some MutationScore_init) []) MutationScore_init eq_refl)
           eq_refl).
Defined.

Lemma reported_score_is_percentage_witness :
  let self := example_controller (FirstOrderMutator_mutate example_mutator) None true in
  run self = mkRun Completed (run_state (run self))
  /\ exists sc evs,
       run_state (run self) = mkState (Some sc) (evs ++ [notify_end sc (run_duration self)])
       /\ sound sc
       /\ (0 <= count sc)%Q /\ (count sc <= 100)%Q.
Proof.
  cbv zeta.
  assert (run (example_controller (FirstOrderMutator_mutate example_mutator) None true)
          = mkRun Completed
              (run_state (run (example_controller
                                 (FirstOrderMutator_mutate example_mutator) None true))))
    as Hr by (vm_compute; reflexivity).
  split; [exact Hr|].
  exact (reported_score_is_percentage
           (example_controller (FirstOrderMutator_mutate example_mutator) None true) _ Hr).
Defined.

Lemma load_and_check_tests_totals_witness :
  let self := example_controller (FirstOrderMutator_mutate example_mutator) None true in
  Forall (fun item => wasSuccessful (fst (run_test self (fst item) (snd item))) = true)
         (stream_items (test_loader_load self))
  /\ stream_end (test_loader_load self) = None
  /\ load_and_check_tests self (initialized self)
     = (inr ([("test_target"%string, EmptyString, 1 # 2)], (0 + (1 # 2))%Q, 3),
        initialized self).
Proof.
  cbv zeta.
  assert (Forall (fun item =>
                    wasSuccessful
                      (fst (run_test
                              (example_controller (FirstOrderMutator_mutate example_mutator)
                                 None true) (fst item) (snd item))) = true)
                 (stream_items
                    (test_loader_load
                       (example_controller (FirstOrderMutator_mutate example_mutator)
                          None true)))) as Hall.
  { repeat constructor. }
  split; [exact Hall|]. split; [reflexivity|].
  exact (load_and_check_tests_totals
           (example_controller (FirstOrderMutator_mutate example_mutator) None true)
           (initialized
              (example_controller (FirstOrderMutator_mutate example_mutator) None true))
           Hall eq_refl).
Defined.

Lemma baseline_stops_at_first_failure_witness :
  let self := example_controller (FirstOrderMutator_mutate example_mutator) None false in
  test_loader_load self = stream_app [] (Yield ("test_target"%string, EmptyString) Stop)
  /\ wasSuccessful (fst (run_test self "test_target"%string EmptyString)) = false
  /\ run self
     = mkRun (SysExit (-1))
         (mkState None
            (events (initialized self)
             ++ [notify_original_tests_fail
                   (fst (run_test self "test_target"%string EmptyString))])).
Proof.
  cbv zeta. split; [reflexivity|]. split; [reflexivity|].
  exact (proj2 (baseline_stops_at_first_failure
                  (example_controller (FirstOrderMutator_mutate example_mutator) None false)
                  [] ("test_target"%string, EmptyString) Stop eq_refl
                  ltac:(constructor) eq_refl)).
Defined.

Lemma example_init_keys : keys_of example_init_modules ["sys"%string; "unittest"%string].
Proof.
  split.
  - apply NoDup_cons. split; [|apply NoDup_singleton].
    intros Hin%list_elem_of_singleton. discriminate.
  - intros name. unfold example_init_modules.
    rewrite !lookup_insert_is_Some, lookup_empty, !elem_of_cons, elem_of_nil.
    split.
    + intros [->|[->|[]]]; [by left|]. right. split; [discriminate|]. by left.
    + intros [<-|[_ [<-|[_ [? ?]]]]]; [by left|right; by left|done].
Qed.

Lemma example_sys_keys :
  keys_of example_sys_modules ["target"%string; "sys"%string; "unittest"%string].
Proof.
  destruct example_init_keys as [Hnd Hk]. split.
  - apply NoDup_cons. split; [|exact Hnd].
    intros Hin. apply elem_of_cons in Hin as [? | Hin%list_elem_of_singleton]; discriminate.
  - intros name. unfold example_sys_modules.
    rewrite lookup_insert_is_Some, elem_of_cons, Hk. split.
    + intros [->|Hs]; [by left|]. destruct (decide ("target"%string = name)); [by left|].
      by right.
    + intros [<-|[_ Hs]]; [by left|by right].
Qed.

Lemma remove_loaded_modules_keeps_init_witness :
  keys_of example_sys_modules ["target"%string; "sys"%string; "unittest"%string]
  /\ exists left_,
       remove_loaded_modules ["sys"%string; "unittest"%string]
         ["target"%string; "sys"%string; "unittest"%string] example_sys_modules
       = Some left_
       /\ (forall name,
             left_ !! name
             = if bool_decide (name ∈ ["sys"%string; "unittest"%string])
               then example_sys_modules !! name else None)
       /\ forall keys', keys_of left_ keys' ->
            remove_loaded_modules ["sys"%string; "unittest"%string] keys' left_
            = Some left_.
Proof.
  split; [exact example_sys_keys|].
  exact (remove_loaded_modules_keeps_init ["sys"%string; "unittest"%string]
           ["target"%string; "sys"%string; "unittest"%string] example_sys_modules
           example_sys_keys).
Defined.

Lemma remove_loaded_modules_restores_witness :
  keys_of example_init_modules ["sys"%string; "unittest"%string]
  /\ keys_of example_sys_modules ["target"%string; "sys"%string; "unittest"%string]
  /\ example_init_modules ⊆ example_sys_modules
  /\ remove_loaded_modules ["sys"%string; "unittest"%string]
       ["target"%string; "sys"%string; "unittest"%string] example_sys_modules
     = Some example_init_modules.
Proof.
  assert (example_init_modules ⊆ example_sys_modules) as Hsub.
  { apply insert_subseteq. unfold example_init_modules.
    rewrite !lookup_insert_ne by discriminate. apply lookup_empty. }
  split; [exact example_init_keys|]. split; [exact example_sys_keys|].
  split; [exact Hsub|].
  exact (remove_loaded_modules_restores example_init_modules
           ["sys"%string; "unittest"%string]
           ["target"%string; "sys"%string; "unittest"%string] example_sys_modules
           example_init_keys example_sys_keys Hsub).
Defined.

Lemma HighOrderMutator_one_mutant_per_group_witness :
  (forall mutation mutant, exists new_mutation mutant',
     operator_mutate example_mutator (operator mutation) mutant None true None
                     "target"%string (Some mutation) = [(new_mutation, mutant')])
  /\ (fun item : list (nat * nat * nat) * list nat => length (fst item))
       <$> stream_items (mutate_groups example_mutator None None "target"%string []
                           (example_strategy example_mutations))
     = length <$> stream_items (example_strategy example_mutations).
Proof.
  assert (forall mutation mutant, exists new_mutation mutant',
            operator_mutate example_mutator (operator mutation) mutant None true None
                            "target"%string (Some mutation) = [(new_mutation, mutant')])
    as Honce.
  { intros mutation mutant. eexists _, _. reflexivity. }
  split; [exact Honce|].
  exact (proj2 (HighOrderMutator_one_mutant_per_group example_mutator None None
                  "target"%string [] (example_strategy example_mutations) Honce)).
Defined.

Lemma too_many_mutations_after_the_mutant_witness :
  apply_mutations eager_mutator None None "target"%string [(3, 1, 4)%nat] [] [] []
  = inr ([(3, 1, 4)%nat], [4%nat], [[((3, 1, 4)%nat, [4%nat])]])
  /\ Exists (fun g => g ≠ []) [[((3, 1, 4)%nat, [4%nat])]]
  /\ mutate_groups eager_mutator None None "target"%string []
       (Yield [(3, 1, 4)%nat] Stop)
     = Yield ([(3, 1, 4)%nat], [4%nat]) (Throw (AssertionError "too many mutations!")).
Proof.
  assert (Exists (fun g : list (nat * nat * nat * list nat) => g ≠ [])
                 [[((3, 1, 4)%nat, [4%nat])]]) as He.
  { apply Exists_cons_hd. discriminate. }
  split; [reflexivity|]. split; [exact He|].
  exact (proj1 (too_many_mutations_after_the_mutant eager_mutator None None
                  "target"%string [] [(3, 1, 4)%nat] Stop [(3, 1, 4)%nat] [4%nat]
                  [[((3, 1, 4)%nat, [4%nat])]] eq_refl) He).
Defined.

Lemma FirstOrderMutator_yields_single_mutations_witness :
  (forall op,
     fst <$> operator_mutate example_mutator op [] None true None "target"%string None
     = fst <$> operator_mutate example_mutator op [] None false None "target"%string None)
  /\ concat (fst <$> stream_items
                       (FirstOrderMutator_mutate example_mutator [] None None
                          "target"%string))
     = generate_all_mutations example_mutator None "target"%string [] None.
Proof.
  assert (forall op,
            fst <$> operator_mutate example_mutator op [] None true None "target"%string None
            = fst <$> operator_mutate example_mutator op [] None false None
                        "target"%string None) as Hsame by reflexivity.
  split; [exact Hsame|].
  exact (proj2 (FirstOrderMutator_yields_single_mutations example_mutator []
                  None None "target"%string) Hsame).
Defined.

End MoreWitnesses.
